(** * Pinniped supervisor: upstream identity provider watchers

    A shallow embedding of
      - internal/controller/conditionsutil/conditions_util.go
      - internal/controller/supervisorconfig/githubupstreamwatcher/github_upstream_watcher.go
      - internal/controller/supervisorconfig/oidcupstreamwatcher/oidc_upstream_watcher.go
    together with the properties of the condition merge, of the two Sync
    loops and of the OIDC validation helpers. *)

From Stdlib Require Import ZArith String Ascii List Lia Sorted Permutation.
From stdpp Require Import base list strings gmap sorting.

Local Open Scope string_scope.
Local Open Scope list_scope.

(** ** A state monad for the effects of the controllers *)

Module StateM.

Definition M (S A : Type) : Type := S -> A * S.

Definition ret {S A} (a : A) : M S A := fun s => (a, s).

Definition bind {S A B} (m : M S A) (k : A -> M S B) : M S B :=
  fun s => let '(a, s') := m s in k a s'.

Definition get {S} : M S S := fun s => (s, s).

Definition modify {S} (f : S -> S) : M S unit := fun s => (tt, f s).

Definition when {S} (b : bool) (m : M S unit) : M S unit :=
  if b then m else ret tt.

End StateM.

Declare Scope go_scope.
Delimit Scope go_scope with go.

Notation "x <- m ;; k" := (StateM.bind m (fun x => k))
  (at level 100, m at next level, right associativity) : go_scope.
Notation "m ;;; k" := (StateM.bind m (fun _ => k))
  (at level 100, right associativity) : go_scope.

(** ** metav1: conditions and time *)

Module metav1.

(** metav1.Time as an instant. The merge compares two times only when one
    is a copy of the other or when the Status differs already, so equality
    of instants decides every comparison it makes. *)
Definition Time : Type := Z.

Inductive ConditionStatus : Type :=
| ConditionTrue
| ConditionFalse
| ConditionUnknown.

Global Instance ConditionStatus_eq_dec : EqDecision ConditionStatus.
Proof. solve_decision. Defined.

(** Modelled from the spec: the declaration of the Condition struct is not
    among the sources; its fields are those of the data model (Type, Status
    with the values True, False and Unknown, Reason, Message,
    ObservedGeneration, LastTransitionTime). *)
Record Condition : Type := mkCondition {
  Type_ : string;
  Status : ConditionStatus;
  ObservedGeneration : Z;
  LastTransitionTime : Time;
  Reason : string;
  Message : string
}.

Global Instance Condition_eq_dec : EqDecision Condition.
Proof. solve_decision. Defined.

Definition withLastTransitionTime (t : Time) (c : Condition) : Condition :=
  {| Type_ := Type_ c; Status := Status c;
     ObservedGeneration := ObservedGeneration c;
     LastTransitionTime := t;
     Reason := Reason c; Message := Message c |}.

Definition withObservedGeneration (g : Z) (c : Condition) : Condition :=
  {| Type_ := Type_ c; Status := Status c;
     ObservedGeneration := g;
     LastTransitionTime := LastTransitionTime c;
     Reason := Reason c; Message := Message c |}.

(** ObjectMeta, as far as the watchers read it. *)
Record ObjectMeta : Type := mkObjectMeta {
  Name : string;
  Namespace : string;
  Generation : Z;
  UID : string
}.

Global Instance ObjectMeta_eq_dec : EqDecision ObjectMeta.
Proof. solve_decision. Defined.

End metav1.

(** ** sort.SliceStable

    Go's sort.SliceStable is a stable sort; every stable sort computes the
    same list, here the one built by inserting the elements from left to right,
    each behind the ones that are not greater. *)

Module sort.

Section SliceStable.
Context {A : Type} (less : A -> A -> bool).

(** [x] goes in front of the first element that is greater than it. *)
Fixpoint insertStable (x : A) (l : list A) : list A :=
  match l with
  | [] => [x]
  | y :: l' => if less x y then x :: y :: l' else y :: insertStable x l'
  end.

Definition SliceStable (l : list A) : list A :=
  fold_left (fun acc x => insertStable x acc) l [].

(** The order a list is in once no element is greater than a later
    one. *)
Definition notAfter (a b : A) : Prop := less b a = false.
End SliceStable.

End sort.

(** ** conditionsutil *)

Module conditionsutil.
Import metav1 StateM.

(** One call of log.Info("updated condition", ...). *)
Record LogEntry : Type := mkLogEntry {
  logType : string;
  logStatus : ConditionStatus;
  logReason : string;
  logMessage : string
}.

(** What a merge reads and writes besides the condition slice: the number
    of clock readings taken so far and the log lines written. *)
Record Effects : Type := mkEffects {
  ticks : nat;
  logged : list LogEntry
}.

Section WithClock.
(** [wall n] is what the n-th call of v1.Now() returns. *)
Variable wall : nat -> Time.

Definition Now : M Effects Time :=
  fun s => (wall (ticks s), {| ticks := S (ticks s); logged := logged s |}).

Definition logInfo (c : Condition) : M Effects unit :=
  modify (fun s =>
    {| ticks := ticks s;
       logged := logged s ++
         [mkLogEntry (Type_ c) (Status c) (Reason c) (Message c)] |}).

(** The search loop of mergeIDPCondition: [old] ends as the index of the
    last entry whose Type matches (the loop never leaves early). *)
Fixpoint findOld (existing : list Condition) (ty : string)
         (i : nat) (old : option nat) : option nat :=
  match existing with
  | [] => old
  | c :: rest =>
      findOld rest ty (S i) (if String.eqb (Type_ c) ty then Some i else old)
  end.

Definition mergeIDPCondition (existing : list Condition) (new : Condition)
  : list Condition * bool :=
  match findOld existing (Type_ new) 0 None with
  | None => (existing ++ [new], true)
  | Some i =>
      match existing !! i with
      | None => (existing, false)
      | Some old =>
          let new' :=
            if decide (Status old = Status new)
            then withLastTransitionTime (LastTransitionTime old) new
            else new in
          if decide (old = new') then (existing, false)
          else (<[i := new']> existing, true)
      end
  end.

Definition lessType (a b : Condition) : bool :=
  String.ltb (Type_ a) (Type_ b).

(** The entry that MergeIDPConditions hands to mergeIDPCondition: a copy of
    the incoming condition with LastTransitionTime = v1.Now() and the
    observed generation set. *)
Definition stamped (now : Time) (observedGeneration : Z) (c : Condition)
  : Condition :=
  withObservedGeneration observedGeneration (withLastTransitionTime now c).

(** The loop of MergeIDPConditions over the incoming conditions. *)
Fixpoint mergeEach (conditions : list Condition) (observedGeneration : Z)
         (conditionsToUpdate : list Condition) (hadErrorCondition : bool)
  : M Effects (list Condition * bool) :=
  match conditions with
  | [] => ret (conditionsToUpdate, hadErrorCondition)
  | c :: rest =>
      (now <- Now ;;
       let cond := stamped now observedGeneration c in
       let '(updated, changed) := mergeIDPCondition conditionsToUpdate cond in
       when changed (logInfo cond) ;;;
       mergeEach rest observedGeneration updated
         (if decide (Status cond = ConditionFalse) then true
          else hadErrorCondition))%go
  end.

Definition MergeIDPConditions (conditions : list Condition)
           (observedGeneration : Z) (conditionsToUpdate : list Condition)
  : M Effects (list Condition * bool) :=
  (r <- mergeEach conditions observedGeneration conditionsToUpdate false ;;
   let '(merged, hadErrorCondition) := r in
   ret (sort.SliceStable lessType merged, hadErrorCondition))%go.

(** mergeConfigCondition and MergeConfigConditions, the same merge for the
    conditions of the config API group. The declaration of that Condition
    struct is not among the sources either; it has the fields of the data
    model, so the one record stands for both. *)
Fixpoint findOldConfig (existing : list Condition) (ty : string)
         (i : nat) (old : option nat) : option nat :=
  match existing with
  | [] => old
  | c :: rest =>
      findOldConfig rest ty (S i)
        (if String.eqb (Type_ c) ty then Some i else old)
  end.

Definition mergeConfigCondition (existing : list Condition) (new : Condition)
  : list Condition * bool :=
  match findOldConfig existing (Type_ new) 0 None with
  | None => (existing ++ [new], true)
  | Some i =>
      match existing !! i with
      | None => (existing, false)
      | Some old =>
          let new' :=
            if decide (Status old = Status new)
            then withLastTransitionTime (LastTransitionTime old) new
            else new in
          if decide (old = new') then (existing, false)
          else (<[i := new']> existing, true)
      end
  end.

(** The loop of MergeConfigConditions over the incoming conditions. *)
Fixpoint mergeEachConfig (conditions : list Condition) (observedGeneration : Z)
         (conditionsToUpdate : list Condition) (hadErrorCondition : bool)
  : M Effects (list Condition * bool) :=
  match conditions with
  | [] => ret (conditionsToUpdate, hadErrorCondition)
  | c :: rest =>
      (now <- Now ;;
       let cond :=
         withObservedGeneration observedGeneration
           (withLastTransitionTime now c) in
       let '(updated, changed) := mergeConfigCondition conditionsToUpdate cond in
       when changed (logInfo cond) ;;;
       mergeEachConfig rest observedGeneration updated
         (if decide (Status cond = ConditionFalse) then true
          else hadErrorCondition))%go
  end.

Definition MergeConfigConditions (conditions : list Condition)
           (observedGeneration : Z) (conditionsToUpdate : list Condition)
  : M Effects (list Condition * bool) :=
  (r <- mergeEachConfig conditions observedGeneration conditionsToUpdate false ;;
   let '(merged, hadErrorCondition) := r in
   ret (sort.SliceStable lessType merged, hadErrorCondition))%go.

End WithClock.

(** Modelled from the spec: MergeConditions, which the OIDC watcher calls
    with one timestamp for the whole merge, is not among the sources. As the
    spec has it: each incoming condition is stamped with the observed
    generation and merged (appended when its Type is new, else
    LastTransitionTime carried forward when Status is unchanged and set to
    now otherwise, the entry replaced only if it differs); the set is then
    sorted by Type with a stable sort; the result says whether any resulting
    condition has Status False. *)
Fixpoint mergeEachAt (lastTransitionTime : Time) (conditions : list Condition)
         (observedGeneration : Z) (conditionsToUpdate : list Condition)
  : M Effects (list Condition) :=
  match conditions with
  | [] => ret conditionsToUpdate
  | c :: rest =>
      (let cond := stamped lastTransitionTime observedGeneration c in
       let '(updated, changed) := mergeIDPCondition conditionsToUpdate cond in
       when changed (logInfo cond) ;;;
       mergeEachAt lastTransitionTime rest observedGeneration updated)%go
  end.

Definition MergeConditions (conditions : list Condition)
           (observedGeneration : Z) (conditionsToUpdate : list Condition)
           (lastTransitionTime : Time) : M Effects (list Condition * bool) :=
  (merged <- mergeEachAt lastTransitionTime conditions observedGeneration
               conditionsToUpdate ;;
   let sorted := sort.SliceStable lessType merged in
   ret (sorted,
        existsb (fun c => bool_decide (Status c = ConditionFalse)) sorted))%go.

(** Vocabulary of the statements below. *)

Definition hasType (ty : string) (c : Condition) : bool :=
  String.eqb (Type_ c) ty.

(** The entry of Type [ty] that a merge would find: the last one. *)
Definition lastOf (ty : string) (l : list Condition) : option Condition :=
  last (List.filter (hasType ty) l).

Definition isFalse (c : Condition) : bool :=
  bool_decide (Status c = ConditionFalse).

(** The Types of a condition slice after one more Type was merged in. *)
Definition addType (tys : list string) (ty : string) : list string :=
  if bool_decide (ty ∈ tys) then tys else tys ++ [ty].

Definition byType (a b : Condition) : Prop := (Type_ a ≤ Type_ b)%string.

End conditionsutil.

(** ** controllerlib: what Sync hands back to the scheduler

    The errors a Sync can return: the distinguished synthetic requeue, or an
    error built by fmt.Errorf around the error of the lister. *)

Module controllerlib.

Inductive error : Type :=
| ErrSyntheticRequeue
| Errorf (message : string) (wrapped : string).

Global Instance error_eq_dec : EqDecision error.
Proof. solve_decision. Defined.

End controllerlib.

(** ** githubupstreamwatcher *)

Module githubupstreamwatcher.
Import metav1 StateM controllerlib.

(** The Phase of the status: Pending, Ready or Error as in the spec's data
    model, under the names the watcher uses. *)
Inductive GitHubIdentityProviderPhase : Type :=
| GitHubPhasePending
| GitHubPhaseReady
| GitHubPhaseError.

Global Instance Phase_eq_dec : EqDecision GitHubIdentityProviderPhase.
Proof. solve_decision. Defined.

Record GitHubIdentityProviderStatus : Type := mkStatus {
  Phase : GitHubIdentityProviderPhase;
  Conditions : list Condition
}.

Global Instance Status_eq_dec : EqDecision GitHubIdentityProviderStatus.
Proof. solve_decision. Defined.

(** The fields of a GitHubIdentityProvider that the watcher reads or
    writes; updateStatus changes the Status only, so the comparison of the
    object with its updated copy is decided by these. *)
Record GitHubIdentityProvider : Type := mkGitHubIdentityProvider {
  Name : string;
  Namespace : string;
  Generation : Z;
  Status : GitHubIdentityProviderStatus
}.

Global Instance GitHubIdentityProvider_eq_dec : EqDecision GitHubIdentityProvider.
Proof. solve_decision. Defined.

(** upstreamgithub.ProviderConfig, of which the watcher fills in Name. *)
Record ProviderConfig : Type := mkProviderConfig {
  configName : string
}.

(** The collaborators of one Sync pass: the lister of the informer and the
    API server answering UpdateStatus (None: accepted). *)
Record Cluster : Type := mkCluster {
  List_ : list GitHubIdentityProvider + string;
  UpdateStatus : GitHubIdentityProvider -> option string
}.

(** What a pass changes: clock readings and "updated condition" lines of
    the merge, the calls of SetGitHubIdentityProviders in order (the last
    one is what the cache publishes), the UpdateStatus requests sent, and
    the "failed to update status" errors logged. *)
Record World : Type := mkWorld {
  effects : conditionsutil.Effects;
  cacheSets : list (list ProviderConfig);
  statusUpdates : list GitHubIdentityProvider;
  updateErrors : list string
}.

Definition liftEffects {A} (m : M conditionsutil.Effects A) : M World A :=
  fun w =>
    let '(a, e) := m (effects w) in
    (a, {| effects := e; cacheSets := cacheSets w;
           statusUpdates := statusUpdates w;
           updateErrors := updateErrors w |}).

Definition SetGitHubIdentityProviders (l : list ProviderConfig) : M World unit :=
  modify (fun w =>
    {| effects := effects w; cacheSets := cacheSets w ++ [l];
       statusUpdates := statusUpdates w;
       updateErrors := updateErrors w |}).

Section WithCluster.
Variable wall : nat -> Time.
Variable cluster : Cluster.

Definition clientUpdateStatus (updated : GitHubIdentityProvider) : M World unit :=
  modify (fun w =>
    {| effects := effects w; cacheSets := cacheSets w;
       statusUpdates := statusUpdates w ++ [updated];
       updateErrors :=
         match UpdateStatus cluster updated with
         | Some err => updateErrors w ++ [err]
         | None => updateErrors w
         end |}).

Definition updateStatus (upstream : GitHubIdentityProvider)
           (conditions : list Condition) : M World unit :=
  (r <- liftEffects
          (conditionsutil.MergeIDPConditions wall conditions
             (Generation upstream) (Conditions (Status upstream))) ;;
   let '(merged, hadErrorCondition) := r in
   let updated :=
     {| Name := Name upstream; Namespace := Namespace upstream;
        Generation := Generation upstream;
        Status :=
          {| Phase := if hadErrorCondition : bool then GitHubPhaseError
                      else GitHubPhaseReady;
             Conditions := merged |} |} in
   if decide (upstream = updated) then ret tt
   else clientUpdateStatus updated)%go.

Definition validateUpstream (upstream : GitHubIdentityProvider)
  : M World (option ProviderConfig) :=
  (let result := {| configName := Name upstream |} in
   let conditions : list Condition := [] in
   updateStatus upstream conditions ;;;
   ret (Some result))%go.

(** The loop of Sync over the listed providers. *)
Fixpoint validateEach (actualUpstreams : list GitHubIdentityProvider)
         (requeue : bool) (validatedUpstreams : list ProviderConfig)
  : M World (bool * list ProviderConfig) :=
  match actualUpstreams with
  | [] => ret (requeue, validatedUpstreams)
  | upstream :: rest =>
      (valid <- validateUpstream upstream ;;
       match valid with
       | None => validateEach rest true validatedUpstreams
       | Some v => validateEach rest requeue (validatedUpstreams ++ [v])
       end)%go
  end.

Definition Sync : M World (option error) :=
  match List_ cluster with
  | inr err => ret (Some (Errorf "failed to list GitHubIdentityProviders" err))
  | inl actualUpstreams =>
      (r <- validateEach actualUpstreams false [] ;;
       let '(requeue, validatedUpstreams) := r in
       SetGitHubIdentityProviders validatedUpstreams ;;;
       ret (if requeue : bool then Some ErrSyntheticRequeue else None))%go
  end.

End WithCluster.

(** Vocabulary of the statements below. *)

(** The object that updateStatus builds from [upstream] when the merge
    reports [hadErrorCondition] and leaves [merged]. *)
Definition updatedWith (upstream : GitHubIdentityProvider)
           (merged : list Condition) (hadErrorCondition : bool)
  : GitHubIdentityProvider :=
  {| Name := Name upstream; Namespace := Namespace upstream;
     Generation := Generation upstream;
     Status := {| Phase := if hadErrorCondition then GitHubPhaseError
                           else GitHubPhaseReady;
                  Conditions := merged |} |}.

(** [upstream] with its stored conditions sorted and Phase Ready. *)
Definition readied (upstream : GitHubIdentityProvider) : GitHubIdentityProvider :=
  updatedWith upstream
    (sort.SliceStable conditionsutil.lessType (Conditions (Status upstream)))
    false.

Definition phaseFor (conditions : list Condition) : GitHubIdentityProviderPhase :=
  if existsb conditionsutil.isFalse conditions then GitHubPhaseError
  else GitHubPhaseReady.

End githubupstreamwatcher.

(** ** Go library functions the watchers call

    Models of the functions of Go's standard library that the code under
    study calls: strings, strconv.Quote and net/url. Separators are single
    bytes wherever the callers pass one. *)

Module strings.

Fixpoint Join (elems : list string) (sep : string) : string :=
  match elems with
  | [] => ""
  | [x] => x
  | x :: rest => x +:+ sep +:+ Join rest sep
  end.

Fixpoint HasPrefix (s prefix : string) : bool :=
  match prefix, s with
  | "", _ => true
  | String p prefix', String c s' => Ascii.eqb p c && HasPrefix s' prefix'
  | String _ _, "" => false
  end.

Fixpoint ContainsByte (s : string) (b : ascii) : bool :=
  match s with
  | "" => false
  | String c s' => Ascii.eqb c b || ContainsByte s' b
  end.

Fixpoint CountByte (s : string) (b : ascii) : nat :=
  match s with
  | "" => 0
  | String c s' => (if Ascii.eqb c b then 1 else 0) + CountByte s' b
  end.

(** strings.Cut(s, sep) for a one-byte sep: the text before the first sep,
    the text after it, and whether sep was found. *)
Fixpoint Cut (s : string) (sep : ascii) : string * string * bool :=
  match s with
  | "" => ("", "", false)
  | String c s' =>
      if Ascii.eqb c sep then ("", s', true)
      else let '(before, after, found) := Cut s' sep in
           (String c before, after, found)
  end.

(** The split at the last sep: strings.LastIndex(s, sep) with the two
    slices s[:i] and s[i+1:] that the callers take. *)
Fixpoint CutLast (s : string) (sep : ascii) : option (string * string) :=
  match s with
  | "" => None
  | String c s' =>
      match CutLast s' sep with
      | Some (before, after) => Some (String c before, after)
      | None => if Ascii.eqb c sep then Some ("", s') else None
      end
  end.

Fixpoint HasSuffixByte (s : string) (b : ascii) : bool :=
  match s with
  | "" => false
  | String c "" => Ascii.eqb c b
  | String _ s' => HasSuffixByte s' b
  end.

(** s[:len(s)-1] *)
Fixpoint dropLast (s : string) : string :=
  match s with
  | "" => ""
  | String _ "" => ""
  | String c s' => String c (dropLast s')
  end.

(** The split at the first occurrence of [sub]: s[:i] and s[i:] for
    i = strings.Index(s, sub). *)
Fixpoint SplitAt (s sub : string) : option (string * string) :=
  match s with
  | "" => if HasPrefix "" sub then Some ("", "") else None
  | String c s' =>
      if HasPrefix s sub then Some ("", s)
      else match SplitAt s' sub with
           | Some (before, rest) => Some (String c before, rest)
           | None => None
           end
  end.

(** strings.Split(s, sep) for a one-byte sep. *)
Fixpoint Split (s : string) (sep : ascii) : list string :=
  match s with
  | "" => [""]
  | String c s' =>
      if Ascii.eqb c sep then "" :: Split s' sep
      else match Split s' sep with
           | [] => [String c ""]
           | piece :: pieces => String c piece :: pieces
           end
  end.

Fixpoint drop (n : nat) (s : string) : string :=
  match n, s with
  | 0, _ => s
  | S n', String _ s' => drop n' s'
  | S _, "" => ""
  end.

Definition inRange (lo hi c : ascii) : bool :=
  (N_of_ascii lo <=? N_of_ascii c)%N && (N_of_ascii c <=? N_of_ascii hi)%N.

Definition toLowerByte (c : ascii) : ascii :=
  if inRange "A" "Z" c then ascii_of_N (N_of_ascii c + 32) else c.

(** strings.ToLower on ASCII text. *)
Fixpoint ToLower (s : string) : string :=
  match s with
  | "" => ""
  | String c s' => String (toLowerByte c) (ToLower s')
  end.

End strings.

Module strconv.

Definition dquote : string := String "034"%char "".
Definition backslash : string := String "092"%char "".

Fixpoint escapeBytes (s : string) : string :=
  match s with
  | "" => ""
  | String c s' =>
      (if Ascii.eqb c "034" then backslash +:+ dquote
       else if Ascii.eqb c "092" then backslash +:+ backslash
       else String c "") +:+ escapeBytes s'
  end.

(** strconv.Quote (the %q verb) on printable ASCII text: the text between
    double quotes, with double quotes and backslashes escaped. *)
Definition Quote (s : string) : string := dquote +:+ escapeBytes s +:+ dquote.

End strconv.

(** net/url as of Go 1.22: Parse and Query. RawPath and RawFragment, the
    hints for re-encoding, are left out of the URL. *)

Module url.

Record Userinfo : Type := mkUserinfo {
  username : string;
  password : string;
  passwordSet : bool
}.

Record URL : Type := mkURL {
  Scheme : string;
  Opaque : string;
  User : option Userinfo;
  Host : string;
  Path : string;
  OmitHost : bool;
  ForceQuery : bool;
  RawQuery : string;
  Fragment : string
}.

Global Instance Userinfo_eq_dec : EqDecision Userinfo.
Proof. solve_decision. Defined.

Global Instance URL_eq_dec : EqDecision URL.
Proof. solve_decision. Defined.

Inductive encoding : Type :=
| encodePath
| encodeHost
| encodeZone
| encodeUserPassword
| encodeQueryComponent
| encodeFragment.

Definition isAlpha (c : ascii) : bool :=
  strings.inRange "a" "z" c || strings.inRange "A" "Z" c.

Definition isDigit (c : ascii) : bool := strings.inRange "0" "9" c.

Definition ishex (c : ascii) : bool :=
  isDigit c || strings.inRange "a" "f" c || strings.inRange "A" "F" c.

Definition unhex (c : ascii) : N :=
  if isDigit c then N_of_ascii c - N_of_ascii "0"
  else if strings.inRange "a" "f" c then N_of_ascii c - N_of_ascii "a" + 10
  else if strings.inRange "A" "F" c then N_of_ascii c - N_of_ascii "A" + 10
  else 0.

(** shouldEscape(c, encodeHost) *)
Definition shouldEscapeHost (c : ascii) : bool :=
  negb (isAlpha c || isDigit c
        || strings.ContainsByte "!$&'()*+,;=:[]<>" c || Ascii.eqb c "034"
        || strings.ContainsByte "-_.~" c).

Definition EscapeError (s : string) : string :=
  "invalid URL escape " +:+ strconv.Quote s.

Definition InvalidHostError (c : ascii) : string :=
  "invalid character " +:+ strconv.Quote (String c "") +:+ " in host name".

Definition isHostMode (mode : encoding) : bool :=
  match mode with encodeHost | encodeZone => true | _ => false end.

Fixpoint unescape (s : string) (mode : encoding) : string + string :=
  match s with
  | "" => inl ""
  | String "%" (String a (String b rest)) =>
      if ishex a && ishex b then
        let v := ascii_of_N (unhex a * 16 + unhex b) in
        let is25 := Ascii.eqb a "2" && Ascii.eqb b "5" in
        if match mode with
           | encodeHost => (unhex a <? 8)%N && negb is25
           | encodeZone => negb is25 && negb (Ascii.eqb v " ") && shouldEscapeHost v
           | _ => false
           end
        then inr (EscapeError (String "%" (String a (String b ""))))
        else match unescape rest mode with
             | inl t => inl (String v t)
             | inr e => inr e
             end
      else inr (EscapeError (String "%" (String a (String b ""))))
  | String "%" rest => inr (EscapeError (String "%" rest))
  | String c rest =>
      if isHostMode mode && (N_of_ascii c <? 128)%N && shouldEscapeHost c
      then inr (InvalidHostError c)
      else match unescape rest mode with
           | inl t =>
               inl (String (match mode with
                            | encodeQueryComponent =>
                                if Ascii.eqb c "+" then " "%char else c
                            | _ => c
                            end) t)
           | inr e => inr e
           end
  end.

Fixpoint stringContainsCTLByte (s : string) : bool :=
  match s with
  | "" => false
  | String c s' =>
      (N_of_ascii c <? 32)%N || Ascii.eqb c "127" || stringContainsCTLByte s'
  end.

(** The loop of getScheme: [i] is the index of the byte looked at. *)
Fixpoint getSchemeFrom (rawURL : string) (i : nat) (s : string)
  : string * string + string :=
  match s with
  | "" => inl ("", rawURL)
  | String c rest =>
      if isAlpha c then getSchemeFrom rawURL (S i) rest
      else if isDigit c || strings.ContainsByte "+-." c then
        if Nat.eqb i 0 then inl ("", rawURL)
        else getSchemeFrom rawURL (S i) rest
      else if Ascii.eqb c ":" then
        if Nat.eqb i 0 then inr "missing protocol scheme"
        else inl (String.substring 0 i rawURL, rest)
      else inl ("", rawURL)
  end.

Definition getScheme (rawURL : string) : string * string + string :=
  getSchemeFrom rawURL 0 rawURL.

Fixpoint allDigits (s : string) : bool :=
  match s with
  | "" => true
  | String c s' => isDigit c && allDigits s'
  end.

Definition validOptionalPort (port : string) : bool :=
  match port with
  | "" => true
  | String c rest => Ascii.eqb c ":" && allDigits rest
  end.

Fixpoint validUserinfo (s : string) : bool :=
  match s with
  | "" => true
  | String c s' =>
      (isAlpha c || isDigit c || strings.ContainsByte "-._:~!$&'()*+,;=%@" c)
      && validUserinfo s'
  end.

Definition parseHost (host : string) : string + string :=
  if strings.HasPrefix host "[" then
    match strings.CutLast host "]" with
    | None => inr "missing ']' in host"
    | Some (inBrackets, colonPort) =>
        if negb (validOptionalPort colonPort) then
          inr ("invalid port " +:+ strconv.Quote colonPort +:+ " after host")
        else
          match strings.SplitAt inBrackets "%25" with
          | Some (beforeZone, zone) =>
              match unescape beforeZone encodeHost with
              | inr e => inr e
              | inl host1 =>
                  match unescape zone encodeZone with
                  | inr e => inr e
                  | inl host2 =>
                      match unescape ("]" +:+ colonPort) encodeHost with
                      | inr e => inr e
                      | inl host3 => inl (host1 +:+ host2 +:+ host3)
                      end
                  end
              end
          | None => unescape host encodeHost
          end
    end
  else
    match strings.CutLast host ":" with
    | Some (_, port) =>
        if negb (validOptionalPort (":" +:+ port)) then
          inr ("invalid port " +:+ strconv.Quote (":" +:+ port) +:+ " after host")
        else unescape host encodeHost
    | None => unescape host encodeHost
    end.

Definition parseAuthority (authority : string)
  : option Userinfo * string + string :=
  match strings.CutLast authority "@" with
  | None =>
      match parseHost authority with
      | inr e => inr e
      | inl host => inl (None, host)
      end
  | Some (userinfo, hostPart) =>
      match parseHost hostPart with
      | inr e => inr e
      | inl host =>
          if negb (validUserinfo userinfo) then inr "net/url: invalid userinfo"
          else if negb (strings.ContainsByte userinfo ":") then
            match unescape userinfo encodeUserPassword with
            | inr e => inr e
            | inl name => inl (Some (mkUserinfo name "" false), host)
            end
          else
            let '(name, pass, _) := strings.Cut userinfo ":" in
            match unescape name encodeUserPassword with
            | inr e => inr e
            | inl name' =>
                match unescape pass encodeUserPassword with
                | inr e => inr e
                | inl pass' => inl (Some (mkUserinfo name' pass' true), host)
                end
            end
      end
  end.

(** parse(rawURL, viaRequest) with viaRequest = false, as Parse calls it. *)
Definition parse (rawURL : string) : URL + string :=
  if stringContainsCTLByte rawURL then
    inr "net/url: invalid control character in URL"
  else if String.eqb rawURL "*" then
    inl (mkURL "" "" None "" "*" false false "" "")
  else
    match getScheme rawURL with
    | inr e => inr e
    | inl (scheme0, rest0) =>
        let scheme := strings.ToLower scheme0 in
        let '(rest, forceQuery, rawQuery) :=
          if strings.HasSuffixByte rest0 "?"
             && Nat.eqb (strings.CountByte rest0 "?") 1
          then (strings.dropLast rest0, true, "")
          else let '(r, q, _) := strings.Cut rest0 "?" in (r, false, q) in
        let hasScheme := negb (String.eqb scheme "") in
        if negb (strings.HasPrefix rest "/") && hasScheme then
          inl (mkURL scheme rest None "" "" false forceQuery rawQuery "")
        else if negb (strings.HasPrefix rest "/")
                && strings.ContainsByte (fst (fst (strings.Cut rest "/"))) ":"
        then inr "first path segment in URL cannot contain colon"
        else if (hasScheme || negb (strings.HasPrefix rest "///"))
                && strings.HasPrefix rest "//"
        then
          let '(authority, path, found) := strings.Cut (strings.drop 2 rest) "/" in
          let path' := if found then "/" +:+ path else "" in
          match parseAuthority authority with
          | inr e => inr e
          | inl (user, host) =>
              match unescape path' encodePath with
              | inr e => inr e
              | inl p =>
                  inl (mkURL scheme "" user host p false forceQuery rawQuery "")
              end
          end
        else
          let omitHost := hasScheme && strings.HasPrefix rest "/" in
          match unescape rest encodePath with
          | inr e => inr e
          | inl p => inl (mkURL scheme "" None "" p omitHost forceQuery rawQuery "")
          end
    end.

(** The text of a url.Error. *)
Definition Error (op url err : string) : string :=
  op +:+ " " +:+ strconv.Quote url +:+ ": " +:+ err.

Definition Parse (rawURL : string) : URL + string :=
  let '(u, frag, _) := strings.Cut rawURL "#" in
  match parse u with
  | inr e => inr (Error "parse" u e)
  | inl url =>
      if String.eqb frag "" then inl url
      else match unescape frag encodeFragment with
           | inr e => inr (Error "parse" rawURL e)
           | inl f =>
               inl (mkURL (Scheme url) (Opaque url) (User url) (Host url)
                          (Path url) (OmitHost url) (ForceQuery url)
                          (RawQuery url) f)
           end
  end.

(** One round of the loop of parseQuery, for the text between two "&". *)
Definition parseQueryField (m : gmap string (list string)) (field : string)
  : gmap string (list string) :=
  if strings.ContainsByte field ";" then m
  else if String.eqb field "" then m
  else
    let '(key, value, _) := strings.Cut field "=" in
    match unescape key encodeQueryComponent with
    | inr _ => m
    | inl key' =>
        match unescape value encodeQueryComponent with
        | inr _ => m
        | inl value' => <[key' := (default [] (m !! key') ++ [value'])%list]> m
        end
    end.

(** URL.Query(): the values of RawQuery; malformed pairs are dropped. *)
Definition Query (u : URL) : gmap string (list string) :=
  fold_left parseQueryField (strings.Split (RawQuery u) "&") ∅.

End url.

(** ** k8s.io/apimachinery/pkg/util/sets: a set of strings *)

Module sets.

Definition NewString : gset string := ∅.

Definition Insert (s : string) (set : gset string) : gset string := {[ s ]} ∪ set.

(** List() returns the members in ascending order. *)
Definition List_ (set : gset string) : list string :=
  merge_sort String.le (elements set).

End sets.

(** ** The API types of the OIDC identity provider

    The declarations of package v1alpha1 are not among the sources; the
    records hold the fields that the watcher reads and writes, under the
    names it uses, and the Phase is the Pending, Ready or Error of the
    spec's data model. *)

Module v1alpha1.
Import metav1.

Record Parameter_ : Type := mkParameter {
  Name : string;
  Value : string
}.

Record OIDCAuthorizationConfig : Type := mkOIDCAuthorizationConfig {
  AdditionalScopes : list string;
  AdditionalAuthorizeParameters : list Parameter_;
  AllowPasswordGrant : bool
}.

Record OIDCClaims : Type := mkOIDCClaims {
  Groups : string;
  Username : string;
  AdditionalClaimMappings : gmap string string
}.

Record TLSSpec : Type := mkTLSSpec {
  CertificateAuthorityData : string
}.

Record OIDCClient : Type := mkOIDCClient {
  SecretName : string
}.

Record OIDCIdentityProviderSpec : Type := mkOIDCIdentityProviderSpec {
  Issuer : string;
  TLS : option TLSSpec;
  AuthorizationConfig : OIDCAuthorizationConfig;
  Claims : OIDCClaims;
  Client : OIDCClient
}.

Inductive OIDCIdentityProviderPhase : Type :=
| PhasePending
| PhaseReady
| PhaseError.

Record OIDCIdentityProviderStatus : Type := mkOIDCIdentityProviderStatus {
  Phase : OIDCIdentityProviderPhase;
  Conditions : list Condition
}.

(** Name, Namespace, Generation and UID are the fields of the embedded
    ObjectMeta that the watcher reads. *)
Record OIDCIdentityProvider : Type := mkOIDCIdentityProvider {
  ObjectMeta : metav1.ObjectMeta;
  Spec : OIDCIdentityProviderSpec;
  Status : OIDCIdentityProviderStatus
}.

Global Instance Parameter_eq_dec : EqDecision Parameter_.
Proof. solve_decision. Defined.
Global Instance OIDCAuthorizationConfig_eq_dec : EqDecision OIDCAuthorizationConfig.
Proof. solve_decision. Defined.
Global Instance OIDCClaims_eq_dec : EqDecision OIDCClaims.
Proof. solve_decision. Defined.
Global Instance TLSSpec_eq_dec : EqDecision TLSSpec.
Proof. solve_decision. Defined.
Global Instance OIDCClient_eq_dec : EqDecision OIDCClient.
Proof. solve_decision. Defined.
Global Instance OIDCIdentityProviderSpec_eq_dec : EqDecision OIDCIdentityProviderSpec.
Proof. solve_decision. Defined.
Global Instance OIDCIdentityProviderPhase_eq_dec : EqDecision OIDCIdentityProviderPhase.
Proof. solve_decision. Defined.
Global Instance OIDCIdentityProviderStatus_eq_dec : EqDecision OIDCIdentityProviderStatus.
Proof. solve_decision. Defined.
Global Instance OIDCIdentityProvider_eq_dec : EqDecision OIDCIdentityProvider.
Proof. solve_decision. Defined.

End v1alpha1.

(** ** What validation produces: upstreamoidc.ProviderConfig *)

Module upstreamoidc.

(** oauth2.Endpoint and oauth2.Config, as far as the watcher fills them. *)
Record Endpoint : Type := mkEndpoint {
  AuthURL : string;
  TokenURL : string
}.

Record Config : Type := mkConfig {
  ClientID : string;
  ClientSecret : string;
  ConfigEndpoint : Endpoint;
  Scopes : list string
}.

(** http.Client: the CA bundle it trusts (None: the system roots) and its
    timeout in nanoseconds. *)
Record HTTPClient : Type := mkHTTPClient {
  RootCAs : option string;
  Timeout : Z
}.

(** coreosoidc.Provider: the discovery document of an issuer; Claims is the
    outcome of decoding its revocation_endpoint. *)
Record Provider : Type := mkProvider {
  ProviderEndpoint : Endpoint;
  ProviderClaims : string + string
}.

Record ProviderConfig : Type := mkProviderConfig {
  Name : string;
  Config_ : Config;
  UsernameClaim : string;
  GroupsClaim : string;
  AllowPasswordGrant : bool;
  AdditionalAuthcodeParams : gmap string string;
  AdditionalClaimMappings : gmap string string;
  ResourceUID : string;
  RevocationURL : option url.URL;
  Provider_ : option Provider;
  Client : option HTTPClient
}.

End upstreamoidc.

(** ** oidcupstreamwatcher *)

Module oidcupstreamwatcher.
Import metav1 StateM controllerlib.

Definition oidcClientSecretType : string := "secrets.pinniped.dev/oidc-client".
Definition clientIDDataKey : string := "clientID".
Definition clientSecretDataKey : string := "clientSecret".

(** time.Minute and the TTL of the discovery cache, in nanoseconds. *)
Definition Minute : Z := 60 * 1000000000.
Definition oidcValidatorCacheTTL : Z := 15 * Minute.

Definition typeClientCredentialsSecretValid : string := "ClientCredentialsSecretValid".
Definition typeAdditionalAuthorizeParametersValid : string :=
  "AdditionalAuthorizeParametersValid".
Definition typeOIDCDiscoverySucceeded : string := "OIDCDiscoverySucceeded".

Definition reasonUnreachable : string := "Unreachable".
Definition reasonInvalidResponse : string := "InvalidResponse".
Definition reasonDisallowedParameterName : string := "DisallowedParameterName".
Definition allParamNamesAllowedMsg : string :=
  "additionalAuthorizeParameters parameter names are allowed".
Definition errOIDCFailureStatus : string :=
  "OIDCIdentityProvider has a failing condition".

(** Modelled from the spec: the package upstreamwatchers, which declares
    the shared reasons and ErrNoCertificates, is not among the sources; they
    are named as the spec names them. *)
Definition ReasonSuccess : string := "Success".
Definition ReasonNotFound : string := "NotFound".
Definition ReasonWrongType : string := "WrongType".
Definition ReasonMissingKeys : string := "MissingKeys".
Definition ReasonInvalidTLSConfig : string := "InvalidTLSConfig".
Definition ErrNoCertificates : string := "no certificates found".

(** Modelled from the spec: the package oidcapi, which declares the scope
    names, is not among the sources; the default set is the spec's
    openid, offline_access, email, profile. *)
Definition ScopeOpenID : string := "openid".
Definition ScopeOfflineAccess : string := "offline_access".
Definition ScopeEmail : string := "email".
Definition ScopeProfile : string := "profile".

Definition disallowedAdditionalAuthorizeParameters : gmap string bool :=
  list_to_map
    [("response_type", true);
     ("scope", true);
     ("client_id", true);
     ("state", true);
     ("nonce", true);
     ("code_challenge", true);
     ("code_challenge_method", true);
     ("redirect_uri", true);
     ("hd", true)].

(** disallowedAdditionalAuthorizeParameters[name]: false for a name that is
    not a key of the map. *)
Definition disallowed (name : string) : bool :=
  default false (disallowedAdditionalAuthorizeParameters !! name).

(** corev1.Secret, as far as the watcher reads it. *)
Record Secret : Type := mkSecret {
  SecretType : string;
  Data : gmap string string
}.

(** The collaborators of a Sync pass: the two listers of the informers, the
    API server answering UpdateStatus (None: accepted), the decoders of the
    CA bundle, OIDC discovery over the network, and
    pinnipedcontroller.TruncateMostLongErr. *)
Record Cluster : Type := mkCluster {
  List_ : list v1alpha1.OIDCIdentityProvider + string;
  GetSecret : string -> string -> Secret + string;
  UpdateStatus : v1alpha1.OIDCIdentityProvider -> option string;
  DecodeString : string -> string + string;
  AppendCertsFromPEM : string -> bool;
  NewProvider : upstreamoidc.HTTPClient -> string -> upstreamoidc.Provider + string;
  TruncateMostLongErr : string -> string
}.

Record lruValidatorCacheEntry : Type := mkEntry {
  provider : upstreamoidc.Provider;
  client : upstreamoidc.HTTPClient;
  expiry : Time
}.

(** An error written to the controller's log. *)
Record ErrorLine : Type := mkErrorLine {
  lineError : string;
  lineMessage : string;
  lineValues : list (string * string)
}.

(** What a pass changes: clock readings and "updated condition" lines, the
    discovery cache, the calls of SetOIDCIdentityProviders in order (the last
    one is what the cache publishes), the UpdateStatus requests sent and the
    errors logged. *)
Record World : Type := mkWorld {
  effects : conditionsutil.Effects;
  validatorCache : gmap (string * string) lruValidatorCacheEntry;
  cacheSets : list (list upstreamoidc.ProviderConfig);
  statusUpdates : list v1alpha1.OIDCIdentityProvider;
  errorLog : list ErrorLine
}.

Definition liftEffects {A} (m : M conditionsutil.Effects A) : M World A :=
  fun w =>
    let '(a, e) := m (effects w) in
    (a, {| effects := e; validatorCache := validatorCache w;
           cacheSets := cacheSets w; statusUpdates := statusUpdates w;
           errorLog := errorLog w |}).

Definition logError (err msg : string) (values : list (string * string))
  : M World unit :=
  modify (fun w =>
    {| effects := effects w; validatorCache := validatorCache w;
       cacheSets := cacheSets w; statusUpdates := statusUpdates w;
       errorLog := errorLog w ++ [mkErrorLine err msg values] |}).

Definition SetOIDCIdentityProviders (l : list upstreamoidc.ProviderConfig)
  : M World unit :=
  modify (fun w =>
    {| effects := effects w; validatorCache := validatorCache w;
       cacheSets := cacheSets w ++ [l]; statusUpdates := statusUpdates w;
       errorLog := errorLog w |}).

Definition cacheKey (spec : v1alpha1.OIDCIdentityProviderSpec) : string * string :=
  (v1alpha1.Issuer spec,
   match v1alpha1.TLS spec with
   | Some tls => v1alpha1.CertificateAuthorityData tls
   | None => ""
   end).

Definition computeScopes (additionalScopes : list string) : list string :=
  if Nat.eqb (length additionalScopes) 0 then
    [ScopeOpenID; ScopeOfflineAccess; ScopeEmail; ScopeProfile]
  else
    sets.List_
      (fold_left (fun set s => sets.Insert s set) additionalScopes
         (sets.Insert ScopeOpenID sets.NewString)).

(** A condition literal of the watcher with Status False: the observed
    generation and the transition time are left at their zero values. *)
Definition falseCondition (type reason message : string) : Condition :=
  {| Type_ := type; Status := ConditionFalse; ObservedGeneration := 0%Z;
     LastTransitionTime := 0%Z; Reason := reason; Message := message |}.

(** The same with Status True. *)
Definition trueCondition (type reason message : string) : Condition :=
  {| Type_ := type; Status := ConditionTrue; ObservedGeneration := 0%Z;
     LastTransitionTime := 0%Z; Reason := reason; Message := message |}.

Definition validateHTTPSURL (cluster : Cluster)
           (maybeHTTPSURL endpointType reason : string)
  : option url.URL * option Condition :=
  match url.Parse maybeHTTPSURL with
  | inr err =>
      (None,
       Some (falseCondition typeOIDCDiscoverySucceeded reason
               ("failed to parse " +:+ endpointType +:+ " URL: "
                +:+ TruncateMostLongErr cluster err)))
  | inl parsedURL =>
      if negb (String.eqb (url.Scheme parsedURL) "https") then
        (None,
         Some (falseCondition typeOIDCDiscoverySucceeded reason
                 (endpointType +:+ " URL '" +:+ maybeHTTPSURL
                  +:+ "' must have " +:+ strconv.Quote "https"
                  +:+ " scheme, not "
                  +:+ strconv.Quote (url.Scheme parsedURL))))
      else if negb (Nat.eqb (size (url.Query parsedURL)) 0)
              || negb (String.eqb (url.Fragment parsedURL) "") then
        (None,
         Some (falseCondition typeOIDCDiscoverySucceeded reason
                 (endpointType +:+ " URL '" +:+ maybeHTTPSURL
                  +:+ "' cannot contain query or fragment component")))
      else (Some parsedURL, None)
  end.

(** The loop of validateUpstream over the additional authorize
    parameters. *)
Fixpoint splitAuthorizeParameters (params : list v1alpha1.Parameter_)
         (additionalAuthcodeAuthorizeParameters : gmap string string)
         (rejectedAuthcodeAuthorizeParameters : list string)
  : gmap string string * list string :=
  match params with
  | [] => (additionalAuthcodeAuthorizeParameters,
           rejectedAuthcodeAuthorizeParameters)
  | p :: rest =>
      if disallowed (v1alpha1.Name p) then
        splitAuthorizeParameters rest additionalAuthcodeAuthorizeParameters
          (rejectedAuthcodeAuthorizeParameters ++ [v1alpha1.Name p])
      else
        splitAuthorizeParameters rest
          (<[v1alpha1.Name p := v1alpha1.Value p]>
             additionalAuthcodeAuthorizeParameters)
          rejectedAuthcodeAuthorizeParameters
  end.

(** The AdditionalAuthorizeParametersValid condition that validateUpstream
    appends. *)
Definition authorizeParametersCondition
           (rejectedAuthcodeAuthorizeParameters : list string) : Condition :=
  if Nat.ltb 0 (length rejectedAuthcodeAuthorizeParameters) then
    falseCondition typeAdditionalAuthorizeParametersValid
      reasonDisallowedParameterName
      ("the following additionalAuthorizeParameters are not allowed: "
       +:+ strings.Join rejectedAuthcodeAuthorizeParameters ",")
  else
    trueCondition typeAdditionalAuthorizeParametersValid ReasonSuccess
      allParamNamesAllowedMsg.

Definition withCredentials (clientID clientSecret : string)
           (result : upstreamoidc.ProviderConfig) : upstreamoidc.ProviderConfig :=
  {| upstreamoidc.Name := upstreamoidc.Name result;
     upstreamoidc.Config_ :=
       {| upstreamoidc.ClientID := clientID;
          upstreamoidc.ClientSecret := clientSecret;
          upstreamoidc.ConfigEndpoint :=
            upstreamoidc.ConfigEndpoint (upstreamoidc.Config_ result);
          upstreamoidc.Scopes := upstreamoidc.Scopes (upstreamoidc.Config_ result) |};
     upstreamoidc.UsernameClaim := upstreamoidc.UsernameClaim result;
     upstreamoidc.GroupsClaim := upstreamoidc.GroupsClaim result;
     upstreamoidc.AllowPasswordGrant := upstreamoidc.AllowPasswordGrant result;
     upstreamoidc.AdditionalAuthcodeParams := upstreamoidc.AdditionalAuthcodeParams result;
     upstreamoidc.AdditionalClaimMappings := upstreamoidc.AdditionalClaimMappings result;
     upstreamoidc.ResourceUID := upstreamoidc.ResourceUID result;
     upstreamoidc.RevocationURL := upstreamoidc.RevocationURL result;
     upstreamoidc.Provider_ := upstreamoidc.Provider_ result;
     upstreamoidc.Client := upstreamoidc.Client result |}.

Definition withRevocationURL (revocationURL : option url.URL)
           (result : upstreamoidc.ProviderConfig) : upstreamoidc.ProviderConfig :=
  {| upstreamoidc.Name := upstreamoidc.Name result;
     upstreamoidc.Config_ := upstreamoidc.Config_ result;
     upstreamoidc.UsernameClaim := upstreamoidc.UsernameClaim result;
     upstreamoidc.GroupsClaim := upstreamoidc.GroupsClaim result;
     upstreamoidc.AllowPasswordGrant := upstreamoidc.AllowPasswordGrant result;
     upstreamoidc.AdditionalAuthcodeParams := upstreamoidc.AdditionalAuthcodeParams result;
     upstreamoidc.AdditionalClaimMappings := upstreamoidc.AdditionalClaimMappings result;
     upstreamoidc.ResourceUID := upstreamoidc.ResourceUID result;
     upstreamoidc.RevocationURL := revocationURL;
     upstreamoidc.Provider_ := upstreamoidc.Provider_ result;
     upstreamoidc.Client := upstreamoidc.Client result |}.

Definition withDiscovery (discoveredProvider : upstreamoidc.Provider)
           (httpClient : upstreamoidc.HTTPClient)
           (result : upstreamoidc.ProviderConfig) : upstreamoidc.ProviderConfig :=
  {| upstreamoidc.Name := upstreamoidc.Name result;
     upstreamoidc.Config_ :=
       {| upstreamoidc.ClientID := upstreamoidc.ClientID (upstreamoidc.Config_ result);
          upstreamoidc.ClientSecret :=
            upstreamoidc.ClientSecret (upstreamoidc.Config_ result);
          upstreamoidc.ConfigEndpoint := upstreamoidc.ProviderEndpoint discoveredProvider;
          upstreamoidc.Scopes := upstreamoidc.Scopes (upstreamoidc.Config_ result) |};
     upstreamoidc.UsernameClaim := upstreamoidc.UsernameClaim result;
     upstreamoidc.GroupsClaim := upstreamoidc.GroupsClaim result;
     upstreamoidc.AllowPasswordGrant := upstreamoidc.AllowPasswordGrant result;
     upstreamoidc.AdditionalAuthcodeParams := upstreamoidc.AdditionalAuthcodeParams result;
     upstreamoidc.AdditionalClaimMappings := upstreamoidc.AdditionalClaimMappings result;
     upstreamoidc.ResourceUID := upstreamoidc.ResourceUID result;
     upstreamoidc.RevocationURL := upstreamoidc.RevocationURL result;
     upstreamoidc.Provider_ := Some discoveredProvider;
     upstreamoidc.Client := Some httpClient |}.

(** The ProviderConfig that validateUpstream starts from, before the secret
    and the issuer are looked at. *)
Definition newResult (upstream : v1alpha1.OIDCIdentityProvider)
           (additionalAuthcodeAuthorizeParameters : gmap string string)
  : upstreamoidc.ProviderConfig :=
  let authorizationConfig := v1alpha1.AuthorizationConfig (v1alpha1.Spec upstream) in
  {| upstreamoidc.Name := Name (v1alpha1.ObjectMeta upstream);
     upstreamoidc.Config_ :=
       {| upstreamoidc.ClientID := "";
          upstreamoidc.ClientSecret := "";
          upstreamoidc.ConfigEndpoint := upstreamoidc.mkEndpoint "" "";
          upstreamoidc.Scopes :=
            computeScopes (v1alpha1.AdditionalScopes authorizationConfig) |};
     upstreamoidc.UsernameClaim :=
       v1alpha1.Username (v1alpha1.Claims (v1alpha1.Spec upstream));
     upstreamoidc.GroupsClaim :=
       v1alpha1.Groups (v1alpha1.Claims (v1alpha1.Spec upstream));
     upstreamoidc.AllowPasswordGrant := v1alpha1.AllowPasswordGrant authorizationConfig;
     upstreamoidc.AdditionalAuthcodeParams := additionalAuthcodeAuthorizeParameters;
     upstreamoidc.AdditionalClaimMappings :=
       v1alpha1.AdditionalClaimMappings (v1alpha1.Claims (v1alpha1.Spec upstream));
     upstreamoidc.ResourceUID := UID (v1alpha1.ObjectMeta upstream);
     upstreamoidc.RevocationURL := None;
     upstreamoidc.Provider_ := None;
     upstreamoidc.Client := None |}.

Section WithCluster.
Variable wall : nat -> Time.
Variable cluster : Cluster.

Definition getProvider (spec : v1alpha1.OIDCIdentityProviderSpec)
  : M World (option (upstreamoidc.Provider * upstreamoidc.HTTPClient)) :=
  (w <- get ;;
   match validatorCache w !! cacheKey spec with
   | None => ret None
   | Some entry =>
       now <- liftEffects (conditionsutil.Now wall) ;;
       if (now <? expiry entry)%Z then ret (Some (provider entry, client entry))
       else ret None
   end)%go.

Definition putProvider (spec : v1alpha1.OIDCIdentityProviderSpec)
           (discovered : upstreamoidc.Provider) (httpClient : upstreamoidc.HTTPClient)
  : M World unit :=
  (now <- liftEffects (conditionsutil.Now wall) ;;
   modify (fun w =>
     {| effects := effects w;
        validatorCache :=
          <[cacheKey spec := mkEntry discovered httpClient
                               (now + oidcValidatorCacheTTL)%Z]> (validatorCache w);
        cacheSets := cacheSets w; statusUpdates := statusUpdates w;
        errorLog := errorLog w |}))%go.

Definition defaultClientShortTimeout (rootCAs : option string)
  : upstreamoidc.HTTPClient :=
  {| upstreamoidc.RootCAs := rootCAs; upstreamoidc.Timeout := Minute |}.

Definition getClient (upstream : v1alpha1.OIDCIdentityProvider)
  : upstreamoidc.HTTPClient + string :=
  match v1alpha1.TLS (v1alpha1.Spec upstream) with
  | None => inl (defaultClientShortTimeout None)
  | Some tls =>
      if String.eqb (v1alpha1.CertificateAuthorityData tls) "" then
        inl (defaultClientShortTimeout None)
      else
        match DecodeString cluster (v1alpha1.CertificateAuthorityData tls) with
        | inr err => inr ("spec.certificateAuthorityData is invalid: " +:+ err)
        | inl bundle =>
            if negb (AppendCertsFromPEM cluster bundle) then
              inr ("spec.certificateAuthorityData is invalid: " +:+ ErrNoCertificates)
            else inl (defaultClientShortTimeout (Some bundle))
        end
  end.

Definition validateSecret (upstream : v1alpha1.OIDCIdentityProvider)
           (result : upstreamoidc.ProviderConfig)
  : Condition * upstreamoidc.ProviderConfig :=
  let secretName := v1alpha1.SecretName (v1alpha1.Client (v1alpha1.Spec upstream)) in
  match GetSecret cluster (Namespace (v1alpha1.ObjectMeta upstream)) secretName with
  | inr err =>
      (falseCondition typeClientCredentialsSecretValid ReasonNotFound err, result)
  | inl secret =>
      if negb (String.eqb (SecretType secret) oidcClientSecretType) then
        (falseCondition typeClientCredentialsSecretValid ReasonWrongType
           ("referenced Secret " +:+ strconv.Quote secretName
            +:+ " has wrong type " +:+ strconv.Quote (SecretType secret)
            +:+ " (should be " +:+ strconv.Quote oidcClientSecretType +:+ ")"),
         result)
      else
        let clientID := default "" (Data secret !! clientIDDataKey) in
        let clientSecret := default "" (Data secret !! clientSecretDataKey) in
        if Nat.eqb (String.length clientID) 0
           || Nat.eqb (String.length clientSecret) 0 then
          (falseCondition typeClientCredentialsSecretValid ReasonMissingKeys
             ("referenced Secret " +:+ strconv.Quote secretName
              +:+ " is missing required keys ["
              +:+ strconv.Quote clientIDDataKey +:+ " "
              +:+ strconv.Quote clientSecretDataKey +:+ "]"),
           result)
        else
          (trueCondition typeClientCredentialsSecretValid ReasonSuccess
             "loaded client credentials",
           withCredentials clientID clientSecret result)
  end.

(** validateIssuer from the point where the provider is known, either from
    the cache or from a fresh discovery. *)
Definition validateDiscovered (upstream : v1alpha1.OIDCIdentityProvider)
           (discoveredProvider : upstreamoidc.Provider)
           (httpClient : upstreamoidc.HTTPClient)
           (result : upstreamoidc.ProviderConfig)
  : Condition * upstreamoidc.ProviderConfig :=
  let issuer := v1alpha1.Issuer (v1alpha1.Spec upstream) in
  match upstreamoidc.ProviderClaims discoveredProvider with
  | inr err =>
      (falseCondition typeOIDCDiscoverySucceeded reasonInvalidResponse
         ("failed to unmarshal OIDC discovery response from "
          +:+ strconv.Quote issuer +:+ ":" +:+ String "010" ""
          +:+ TruncateMostLongErr cluster err),
       result)
  | inl revocationEndpoint =>
      let revocation :=
        if negb (String.eqb revocationEndpoint "") then
          match validateHTTPSURL cluster revocationEndpoint "revocation endpoint"
                  reasonInvalidResponse with
          | (_, Some revocationURLCondition) => inr revocationURLCondition
          | (revocationURL, None) => inl (withRevocationURL revocationURL result)
          end
        else inl result in
      match revocation with
      | inr revocationURLCondition => (revocationURLCondition, result)
      | inl result' =>
          match validateHTTPSURL cluster
                  (upstreamoidc.AuthURL (upstreamoidc.ProviderEndpoint discoveredProvider))
                  "authorization endpoint" reasonInvalidResponse with
          | (_, Some authorizeURLCondition) => (authorizeURLCondition, result')
          | (_, None) =>
              match validateHTTPSURL cluster
                      (upstreamoidc.TokenURL (upstreamoidc.ProviderEndpoint discoveredProvider))
                      "token endpoint" reasonInvalidResponse with
              | (_, Some tokenURLCondition) => (tokenURLCondition, result')
              | (_, None) =>
                  (trueCondition typeOIDCDiscoverySucceeded ReasonSuccess
                     "discovered issuer configuration",
                   withDiscovery discoveredProvider httpClient result')
              end
          end
      end
  end.

Definition validateIssuer (upstream : v1alpha1.OIDCIdentityProvider)
           (result : upstreamoidc.ProviderConfig)
  : M World (Condition * upstreamoidc.ProviderConfig) :=
  let spec := v1alpha1.Spec upstream in
  (cached <- getProvider spec ;;
   match cached with
   | Some (discoveredProvider, httpClient) =>
       ret (validateDiscovered upstream discoveredProvider httpClient result)
   | None =>
       match getClient upstream with
       | inr err =>
           ret (falseCondition typeOIDCDiscoverySucceeded ReasonInvalidTLSConfig err,
                result)
       | inl httpClient =>
           match validateHTTPSURL cluster (v1alpha1.Issuer spec) "issuer"
                   reasonUnreachable with
           | (_, Some issuerURLCondition) => ret (issuerURLCondition, result)
           | (_, None) =>
               match NewProvider cluster httpClient (v1alpha1.Issuer spec) with
               | inr err =>
                   logError err "failed to perform OIDC discovery"
                     [("namespace", Namespace (v1alpha1.ObjectMeta upstream));
                      ("name", Name (v1alpha1.ObjectMeta upstream));
                      ("issuer", v1alpha1.Issuer spec)] ;;;
                   ret (falseCondition typeOIDCDiscoverySucceeded reasonUnreachable
                          ("failed to perform OIDC discovery against "
                           +:+ strconv.Quote (v1alpha1.Issuer spec) +:+ ":"
                           +:+ String "010" ""
                           +:+ TruncateMostLongErr cluster err),
                        result)
               | inl discoveredProvider =>
                   putProvider spec discoveredProvider httpClient ;;;
                   ret (validateDiscovered upstream discoveredProvider httpClient result)
               end
           end
       end
   end)%go.

Definition clientUpdateStatus (updated : v1alpha1.OIDCIdentityProvider)
  : M World unit :=
  (modify (fun w =>
     {| effects := effects w; validatorCache := validatorCache w;
        cacheSets := cacheSets w;
        statusUpdates := statusUpdates w ++ [updated];
        errorLog := errorLog w |}) ;;;
   match UpdateStatus cluster updated with
   | Some err =>
       logError err "failed to update status"
         [("namespace", Namespace (v1alpha1.ObjectMeta updated));
          ("name", Name (v1alpha1.ObjectMeta updated))]
   | None => ret tt
   end)%go.

Definition updateStatus (upstream : v1alpha1.OIDCIdentityProvider)
           (conditions : list Condition) : M World unit :=
  (now <- liftEffects (conditionsutil.Now wall) ;;
   r <- liftEffects
          (conditionsutil.MergeConditions conditions
             (Generation (v1alpha1.ObjectMeta upstream))
             (v1alpha1.Conditions (v1alpha1.Status upstream)) now) ;;
   let '(merged, hadErrorCondition) := r in
   let updated :=
     {| v1alpha1.ObjectMeta := v1alpha1.ObjectMeta upstream;
        v1alpha1.Spec := v1alpha1.Spec upstream;
        v1alpha1.Status :=
          {| v1alpha1.Phase := if hadErrorCondition : bool then v1alpha1.PhaseError
                               else v1alpha1.PhaseReady;
             v1alpha1.Conditions := merged |} |} in
   if decide (upstream = updated) then ret tt
   else clientUpdateStatus updated)%go.

(** The last loop of validateUpstream: every failing condition is logged,
    and the upstream is valid when there is none. *)
Fixpoint logFailing (upstream : v1alpha1.OIDCIdentityProvider)
         (conditions : list Condition) (valid : bool) : M World bool :=
  match conditions with
  | [] => ret valid
  | condition :: rest =>
      if decide (Status condition = ConditionFalse) then
        (logError errOIDCFailureStatus "found failing condition"
           [("namespace", Namespace (v1alpha1.ObjectMeta upstream));
            ("name", Name (v1alpha1.ObjectMeta upstream));
            ("type", Type_ condition);
            ("reason", Reason condition);
            ("message", Message condition)] ;;;
         logFailing upstream rest false)%go
      else logFailing upstream rest valid
  end.

Definition validateUpstream (upstream : v1alpha1.OIDCIdentityProvider)
  : M World (option upstreamoidc.ProviderConfig) :=
  let authorizationConfig := v1alpha1.AuthorizationConfig (v1alpha1.Spec upstream) in
  let '(additionalAuthcodeAuthorizeParameters, rejectedAuthcodeAuthorizeParameters) :=
    splitAuthorizeParameters
      (v1alpha1.AdditionalAuthorizeParameters authorizationConfig) ∅ [] in
  let result := newResult upstream additionalAuthcodeAuthorizeParameters in
  let '(secretCondition, result1) := validateSecret upstream result in
  (r <- validateIssuer upstream result1 ;;
   let '(issuerCondition, result2) := r in
   let conditions :=
     [secretCondition; issuerCondition;
      authorizeParametersCondition rejectedAuthcodeAuthorizeParameters] in
   updateStatus upstream conditions ;;;
   valid <- logFailing upstream conditions true ;;
   ret (if valid : bool then Some result2 else None))%go.

(** The loop of Sync over the listed providers. *)
Fixpoint validateEach (actualUpstreams : list v1alpha1.OIDCIdentityProvider)
         (requeue : bool) (validatedUpstreams : list upstreamoidc.ProviderConfig)
  : M World (bool * list upstreamoidc.ProviderConfig) :=
  match actualUpstreams with
  | [] => ret (requeue, validatedUpstreams)
  | upstream :: rest =>
      (valid <- validateUpstream upstream ;;
       match valid with
       | None => validateEach rest true validatedUpstreams
       | Some v => validateEach rest requeue (validatedUpstreams ++ [v])
       end)%go
  end.

Definition Sync : M World (option error) :=
  match List_ cluster with
  | inr err => ret (Some (Errorf "failed to list OIDCIdentityProviders" err))
  | inl actualUpstreams =>
      (r <- validateEach actualUpstreams false [] ;;
       let '(requeue, validatedUpstreams) := r in
       SetOIDCIdentityProviders validatedUpstreams ;;;
       ret (if requeue : bool then Some ErrSyntheticRequeue else None))%go
  end.

(** Vocabulary of the statements below. *)

(** What validateUpstream returns for each listed provider in turn, when
    Sync runs from [w]. *)
Fixpoint validations (actualUpstreams : list v1alpha1.OIDCIdentityProvider)
         (w : World) : list (option upstreamoidc.ProviderConfig) :=
  match actualUpstreams with
  | [] => []
  | upstream :: rest =>
      let '(valid, w') := validateUpstream upstream w in
      valid :: validations rest w'
  end.

End WithCluster.

(** Vocabulary of the statements below. *)

Definition denylist : list string :=
  ["response_type"; "scope"; "client_id"; "state"; "nonce"; "code_challenge";
   "code_challenge_method"; "redirect_uri"; "hd"].

Definition isAllowed (p : v1alpha1.Parameter_) : bool :=
  negb (disallowed (v1alpha1.Name p)).

Definition notFalse (c : Condition) : bool :=
  negb (bool_decide (Status c = ConditionFalse)).

Definition isNil {A} (v : option A) : bool :=
  match v with
  | None => true
  | Some _ => false
  end.

(** A computation that leaves the published sets alone. *)
Definition keepsCacheSets {A} (m : M World A) : Prop :=
  forall w, cacheSets (snd (m w)) = cacheSets w.

(** [maybeHTTPSURL] parses to [u], an https URL with no query parameter and
    no fragment. *)
Definition parsesToHTTPS (maybeHTTPSURL : string) (u : url.URL) : Prop :=
  url.Parse maybeHTTPSURL = inl u /\ url.Scheme u = "https" /\
  url.Query u = ∅ /\ url.Fragment u = "".

(** The line that validateUpstream logs for a failing condition. *)
Definition failingLine (upstream : v1alpha1.OIDCIdentityProvider)
           (condition : Condition) : ErrorLine :=
  mkErrorLine errOIDCFailureStatus "found failing condition"
    [("namespace", Namespace (v1alpha1.ObjectMeta upstream));
     ("name", Name (v1alpha1.ObjectMeta upstream));
     ("type", Type_ condition);
     ("reason", Reason condition);
     ("message", Message condition)].

(** The CA bundle of a spec, empty when it has no TLS block. *)
Definition caBundle (spec : v1alpha1.OIDCIdentityProviderSpec) : string :=
  snd (cacheKey spec).

(** A computation that leaves the error log as it is but for lines it
    appends, each of which satisfies [P]. *)
Definition appendsErrors {A} (P : ErrorLine -> Prop) (m : M World A) : Prop :=
  forall w, exists added,
    errorLog (snd (m w)) = errorLog w ++ added /\ Forall P added.

End oidcupstreamwatcher.

(** ** plog: redaction of the request parameters that are audit logged *)

Module plog.

(** The elements of the []any that sanitizeRequestParams returns: a key, the
    map params or the map multiValueParams. *)
Inductive any : Type :=
| anyString (s : string)
| anyParams (params : gmap string string)
| anyValues (multiValueParams : gmap string (list string)).

(** url.QueryUnescape *)
Definition QueryUnescape (s : string) : string + string :=
  url.unescape s url.encodeQueryComponent.

(** The closure transform of sanitizeRequestParams. *)
Definition transform (allowedKeys : gset string) (key value : string) : string :=
  if negb (bool_decide (key ∈ allowedKeys)) then "redacted"
  else match QueryUnescape value with
       | inr _ => value
       | inl unescape => unescape
       end.

(** The inner loop of sanitizeRequestParams over inputParams[key]: [i] is
    the index of the value looked at and [count] is len(inputParams[key]). *)
Fixpoint eachValue (allowedKeys : gset string) (key : string) (count : nat)
         (values : list string) (i : nat)
         (params : gmap string string)
         (multiValueParams : gmap string (list string))
  : gmap string string * gmap string (list string) :=
  match values with
  | [] => (params, multiValueParams)
  | p :: rest =>
      let transformed := transform allowedKeys key p in
      let params :=
        if Nat.eqb i 0 then <[key := transformed]> params else params in
      let multiValueParams :=
        if Nat.ltb 1 count then
          <[key := (default [] (multiValueParams !! key) ++ [transformed])%list]>
            multiValueParams
        else multiValueParams in
      eachValue allowedKeys key count rest (S i) params multiValueParams
  end.

(** The outer loop over the keys of inputParams. Go leaves the order in
    which a map is ranged over open; every key writes entries under its own
    name only, and the statements below hold for the result whatever the
    order was. *)
Definition eachKey (inputParams : gmap string (list string))
           (allowedKeys : gset string)
  : gmap string string * gmap string (list string) :=
  map_fold
    (fun key values acc =>
       eachValue allowedKeys key (length values) values 0 (fst acc) (snd acc))
    (∅, ∅) inputParams.

Definition sanitizeRequestParams (inputParams : gmap string (list string))
           (allowedKeys : gset string) : list any :=
  let '(params, multiValueParams) := eachKey inputParams allowedKeys in
  if Nat.ltb 0 (size multiValueParams) then
    [anyString "params"; anyParams params;
     anyString "multiValueParams"; anyValues multiValueParams]
  else [anyString "params"; anyParams params].

End plog.

(** ** Concrete inputs used below *)

Module examples.
Import metav1 conditionsutil.

(** A clock that shows a later time at every reading. *)
Definition tickClock : nat -> Time := Z.of_nat.

Definition start : Effects := {| ticks := 0; logged := [] |}.

Definition cond (ty : string) (st : ConditionStatus) : Condition :=
  {| Type_ := ty; Status := st; ObservedGeneration := 0%Z;
     LastTransitionTime := 0%Z; Reason := "Reason"; Message := "message" |}.

(** Two incoming conditions of one Type. *)
Definition sameTypeTwice : list Condition :=
  [cond "Ready" ConditionTrue; cond "Ready" ConditionFalse].

(** A stored condition set with a failing entry. *)
Definition storedFailure : list Condition :=
  [cond "ClientCredentialsValid" ConditionFalse].

Definition storedReady : Condition :=
  {| Type_ := "Ready"; Status := ConditionTrue; ObservedGeneration := 1%Z;
     LastTransitionTime := 5%Z; Reason := "Success"; Message := "ready" |}.

Definition ghProvider : githubupstreamwatcher.GitHubIdentityProvider :=
  {| githubupstreamwatcher.Name := "github";
     githubupstreamwatcher.Namespace := "pinniped-supervisor";
     githubupstreamwatcher.Generation := 1%Z;
     githubupstreamwatcher.Status :=
       {| githubupstreamwatcher.Phase := githubupstreamwatcher.GitHubPhasePending;
          githubupstreamwatcher.Conditions := storedFailure |} |}.

Definition ghCluster : githubupstreamwatcher.Cluster :=
  {| githubupstreamwatcher.List_ := inl [ghProvider];
     githubupstreamwatcher.UpdateStatus := fun _ => None |}.

Definition ghWorld : githubupstreamwatcher.World :=
  {| githubupstreamwatcher.effects := start;
     githubupstreamwatcher.cacheSets := [];
     githubupstreamwatcher.statusUpdates := [];
     githubupstreamwatcher.updateErrors := [] |}.

(** An OIDC provider whose secret and issuer are in order and whose spec
    asks for the additional authorize parameter redirect_uri. *)
Definition oidcProvider : v1alpha1.OIDCIdentityProvider :=
  {| v1alpha1.ObjectMeta :=
       {| Name := "oidc"; Namespace := "pinniped-supervisor";
          Generation := 1%Z; UID := "uid-1" |};
     v1alpha1.Spec :=
       {| v1alpha1.Issuer := "https://example.com";
          v1alpha1.TLS := None;
          v1alpha1.AuthorizationConfig :=
            {| v1alpha1.AdditionalScopes := [];
               v1alpha1.AdditionalAuthorizeParameters :=
                 [v1alpha1.mkParameter "redirect_uri" "evil";
                  v1alpha1.mkParameter "prompt" "consent"];
               v1alpha1.AllowPasswordGrant := false |};
          v1alpha1.Claims :=
            {| v1alpha1.Groups := "groups"; v1alpha1.Username := "email";
               v1alpha1.AdditionalClaimMappings := ∅ |};
          v1alpha1.Client := {| v1alpha1.SecretName := "client" |} |};
     v1alpha1.Status :=
       {| v1alpha1.Phase := v1alpha1.PhasePending;
          v1alpha1.Conditions := [] |} |}.

Definition oidcSecret : oidcupstreamwatcher.Secret :=
  {| oidcupstreamwatcher.SecretType := "secrets.pinniped.dev/oidc-client";
     oidcupstreamwatcher.Data :=
       list_to_map [("clientID", "id"); ("clientSecret", "secret")] |}.

Definition oidcDiscovery : upstreamoidc.Provider :=
  {| upstreamoidc.ProviderEndpoint :=
       {| upstreamoidc.AuthURL := "https://example.com/authorize";
          upstreamoidc.TokenURL := "https://example.com/token" |};
     upstreamoidc.ProviderClaims := inl "" |}.

(** A cluster in which nothing transient goes wrong: the lister, the secret
    lookup, discovery and the status update all succeed. *)
Definition oidcCluster : oidcupstreamwatcher.Cluster :=
  {| oidcupstreamwatcher.List_ := inl [oidcProvider];
     oidcupstreamwatcher.GetSecret := fun _ _ => inl oidcSecret;
     oidcupstreamwatcher.UpdateStatus := fun _ => None;
     oidcupstreamwatcher.DecodeString := fun s => inl s;
     oidcupstreamwatcher.AppendCertsFromPEM := fun _ => true;
     oidcupstreamwatcher.NewProvider := fun _ _ => inl oidcDiscovery;
     oidcupstreamwatcher.TruncateMostLongErr := fun err => err |}.

Definition oidcWorld : oidcupstreamwatcher.World :=
  {| oidcupstreamwatcher.effects := start;
     oidcupstreamwatcher.validatorCache := ∅;
     oidcupstreamwatcher.cacheSets := [];
     oidcupstreamwatcher.statusUpdates := [];
     oidcupstreamwatcher.errorLog := [] |}.

(** A cluster whose lister fails. *)
Definition ghUnlistable : githubupstreamwatcher.Cluster :=
  {| githubupstreamwatcher.List_ := inr "informer cache not synced";
     githubupstreamwatcher.UpdateStatus := fun _ => None |}.

(** A cluster whose API server turns every status update down. *)
Definition ghConflicting : githubupstreamwatcher.Cluster :=
  {| githubupstreamwatcher.List_ := inl [ghProvider];
     githubupstreamwatcher.UpdateStatus := fun _ => Some "conflict" |}.

(** The cluster after the status update of [ghProvider] was stored. *)
Definition ghSettled : githubupstreamwatcher.Cluster :=
  {| githubupstreamwatcher.List_ :=
       inl (map githubupstreamwatcher.readied [ghProvider]);
     githubupstreamwatcher.UpdateStatus := fun _ => Some "conflict" |}.

(** [oidcProvider] without the additional authorize parameter redirect_uri. *)
Definition oidcPlainProvider : v1alpha1.OIDCIdentityProvider :=
  {| v1alpha1.ObjectMeta := v1alpha1.ObjectMeta oidcProvider;
     v1alpha1.Spec :=
       {| v1alpha1.Issuer := "https://example.com";
          v1alpha1.TLS := None;
          v1alpha1.AuthorizationConfig :=
            {| v1alpha1.AdditionalScopes := ["groups"];
               v1alpha1.AdditionalAuthorizeParameters :=
                 [v1alpha1.mkParameter "prompt" "consent"];
               v1alpha1.AllowPasswordGrant := false |};
          v1alpha1.Claims := v1alpha1.Claims (v1alpha1.Spec oidcProvider);
          v1alpha1.Client := v1alpha1.Client (v1alpha1.Spec oidcProvider) |};
     v1alpha1.Status := v1alpha1.Status oidcProvider |}.

(** [oidcPlainProvider] with a TLS block whose CA bundle is empty, under
    another name. *)
Definition oidcEmptyCAProvider : v1alpha1.OIDCIdentityProvider :=
  {| v1alpha1.ObjectMeta :=
       {| Name := "oidc-2"; Namespace := "pinniped-supervisor";
          Generation := 1%Z; UID := "uid-2" |};
     v1alpha1.Spec :=
       {| v1alpha1.Issuer := "https://example.com";
          v1alpha1.TLS := Some {| v1alpha1.CertificateAuthorityData := "" |};
          v1alpha1.AuthorizationConfig :=
            v1alpha1.AuthorizationConfig (v1alpha1.Spec oidcPlainProvider);
          v1alpha1.Claims := v1alpha1.Claims (v1alpha1.Spec oidcProvider);
          v1alpha1.Client := v1alpha1.Client (v1alpha1.Spec oidcProvider) |};
     v1alpha1.Status := v1alpha1.Status oidcProvider |}.


(** The cluster of [oidcCluster] once the issuer no longer answers. *)
Definition oidcUnreachable : oidcupstreamwatcher.Cluster :=
  {| oidcupstreamwatcher.List_ := inl [oidcPlainProvider];
     oidcupstreamwatcher.GetSecret := oidcupstreamwatcher.GetSecret oidcCluster;
     oidcupstreamwatcher.UpdateStatus := oidcupstreamwatcher.UpdateStatus oidcCluster;
     oidcupstreamwatcher.DecodeString := oidcupstreamwatcher.DecodeString oidcCluster;
     oidcupstreamwatcher.AppendCertsFromPEM :=
       oidcupstreamwatcher.AppendCertsFromPEM oidcCluster;
     oidcupstreamwatcher.NewProvider := fun _ _ => inr "connection refused";
     oidcupstreamwatcher.TruncateMostLongErr :=
       oidcupstreamwatcher.TruncateMostLongErr oidcCluster |}.

(** The form of a request that gives two passwords and one scope. *)
Definition loginForm : gmap string (list string) :=
  {[ "password" := ["hunter2"; "hunter3"]; "scope" := ["openid%20email"] ]}.

Definition safeToLog : gset string := {[ "scope" ]}.

End examples.

(** * Properties *)

(** ** Facts about the stable sort *)

Section SliceStableFacts.
Context {A : Type} (less : A -> A -> bool).

Local Abbreviation notAfter := (sort.notAfter less).

Hypothesis less_irrefl : forall a, less a a = false.
Hypothesis less_trans :
  forall a b c, less a b = true -> less b c = true -> less a c = true.
Hypothesis less_negtrans :
  forall a b c, less a b = false -> less b c = false -> less a c = false.

Lemma SliceStable_snoc (l : list A) (x : A) :
  sort.SliceStable less (l ++ [x]) =
  sort.insertStable less x (sort.SliceStable less l).
Proof. unfold sort.SliceStable. now rewrite fold_left_app. Qed.

Lemma insertStable_behind (x : A) (l : list A) :
  Forall (fun y => less x y = false) l ->
  sort.insertStable less x l = l ++ [x].
Proof.
  induction 1 as [|y l Hy _ IH]; simpl; [reflexivity|].
  now rewrite Hy, IH.
Qed.

Lemma insertStable_Permutation (x : A) (l : list A) :
  sort.insertStable less x l ≡ₚ x :: l.
Proof.
  induction l as [|y l IH]; simpl; [reflexivity|].
  destruct (less x y); [reflexivity|].
  rewrite IH. apply Permutation_swap.
Qed.

Lemma SliceStable_Permutation (l : list A) : sort.SliceStable less l ≡ₚ l.
Proof.
  induction l as [|x l IH] using rev_ind; [reflexivity|].
  rewrite SliceStable_snoc, insertStable_Permutation, IH.
  apply Permutation_cons_append.
Qed.

Lemma insertStable_Forall (P : A -> Prop) (x : A) (l : list A) :
  P x -> Forall P l -> Forall P (sort.insertStable less x l).
Proof.
  intros Hx Hl. rewrite insertStable_Permutation. now constructor.
Qed.

Lemma insertStable_sorted (x : A) (l : list A) :
  StronglySorted notAfter l ->
  StronglySorted notAfter (sort.insertStable less x l).
Proof.
  induction 1 as [|y l Hs IH Hy]; simpl.
  - repeat constructor.
  - destruct (less x y) eqn:Hxy.
    + constructor; [now constructor|].
      constructor.
      * unfold sort.notAfter. destruct (less y x) eqn:Hyx; [|reflexivity].
        pose proof (less_trans _ _ _ Hxy Hyx) as Hxx.
        now rewrite less_irrefl in Hxx.
      * eapply Forall_impl; [exact Hy|].
        intros z Hz. unfold sort.notAfter in *.
        destruct (less z x) eqn:Hzx; [|reflexivity].
        pose proof (less_trans _ _ _ Hzx Hxy) as Hzy. congruence.
    + constructor; [exact IH|].
      apply insertStable_Forall; [exact Hxy | exact Hy].
Qed.

Lemma SliceStable_sorted (l : list A) :
  StronglySorted notAfter (sort.SliceStable less l).
Proof.
  induction l as [|x l IH] using rev_ind; [constructor|].
  rewrite SliceStable_snoc. now apply insertStable_sorted.
Qed.

(** Sorting leaves a sorted list as it is. *)
Lemma SliceStable_of_sorted (l : list A) :
  StronglySorted notAfter l -> sort.SliceStable less l = l.
Proof.
  induction l as [|x l IH] using rev_ind; [reflexivity|].
  intros Hs. apply StronglySorted_app in Hs as (Hlx & Hl & _).
  rewrite SliceStable_snoc, IH by exact Hl.
  apply insertStable_behind, Forall_forall. intros y Hy.
  apply (Hlx y x); [exact Hy | now left].
Qed.

Lemma filter_none (p : A -> bool) (l : list A) :
  (forall z, In z l -> p z = false) -> List.filter p l = [].
Proof.
  induction l as [|z l IH]; simpl; intros H; [reflexivity|].
  rewrite (H z) by now left. apply IH. intros; apply H. now right.
Qed.

(** Stability: elements that the order does not tell apart keep their
    places relative to each other. *)
Lemma insertStable_filter (p : A -> bool) (x : A) (l : list A) :
  (forall y, p x = true -> p y = true -> less x y = false) ->
  StronglySorted notAfter l ->
  List.filter p (sort.insertStable less x l) =
  List.filter p l ++ (if p x then [x] else []).
Proof.
  intros Hp. induction 1 as [|y l Hs IH Hy]; simpl; [now destruct (p x)|].
  destruct (less x y) eqn:Hxy; simpl.
  - destruct (p x) eqn:Hx; [|now rewrite app_nil_r].
    assert (Hnone : List.filter p (y :: l) = []).
    { apply filter_none.
      intros z Hz. destruct (p z) eqn:Hpz; [exfalso|reflexivity].
      assert (Hyz : less z y = false).
      { destruct Hz as [->|Hz].
        - apply less_irrefl.
        - rewrite List.Forall_forall in Hy. now apply Hy. }
      pose proof (less_negtrans _ _ _ (Hp z eq_refl Hpz) Hyz). congruence. }
    simpl in Hnone. now rewrite Hnone.
  - rewrite IH. now destruct (p y).
Qed.

Lemma SliceStable_filter (p : A -> bool) (l : list A) :
  (forall x y, p x = true -> p y = true -> less x y = false) ->
  List.filter p (sort.SliceStable less l) = List.filter p l.
Proof.
  intros Hp. induction l as [|x l IH] using rev_ind; [reflexivity|].
  rewrite SliceStable_snoc, insertStable_filter, IH, List.filter_app.
  - reflexivity.
  - intros y. apply Hp.
  - apply SliceStable_sorted.
Qed.
End SliceStableFacts.

(** ** Facts about the order of Types *)

Section TypeOrder.

Lemma ltb_negb_leb (a b : string) : String.ltb a b = negb (String.leb b a).
Proof.
  unfold String.ltb, String.leb. rewrite (String.compare_antisym b a).
  now destruct (String.compare a b).
Qed.

Lemma ltb_false_le (a b : string) : String.ltb a b = false <-> (b ≤ a)%string.
Proof.
  rewrite ltb_negb_leb. unfold String.le.
  destruct (String.leb b a); simpl; intuition congruence.
Qed.

Lemma ltb_irrefl (a : string) : String.ltb a a = false.
Proof. now apply ltb_false_le. Qed.

Lemma ltb_negtrans (a b c : string) :
  String.ltb a b = false -> String.ltb b c = false -> String.ltb a c = false.
Proof.
  rewrite !ltb_false_le. intros Hba Hcb. now transitivity b.
Qed.

Lemma ltb_trans (a b c : string) :
  String.ltb a b = true -> String.ltb b c = true -> String.ltb a c = true.
Proof.
  intros Hab Hbc. destruct (String.ltb a c) eqn:Hac; [reflexivity|exfalso].
  apply ltb_false_le in Hac.
  destruct (total String.le a b) as [Hle|Hle].
  - assert (Hcb : (c ≤ b)%string) by now transitivity a.
    apply ltb_false_le in Hcb. congruence.
  - apply ltb_false_le in Hle. congruence.
Qed.

End TypeOrder.

(** ** Facts about mergeIDPCondition *)

Section MergeFacts.
Import metav1 conditionsutil.

Lemma withLastTransitionTime_same (c : Condition) :
  withLastTransitionTime (LastTransitionTime c) c = c.
Proof. now destruct c. Qed.

Lemma stamped_withLastTransitionTime (t now : Time) (og : Z) (c : Condition) :
  withLastTransitionTime t (stamped now og c) = stamped t og c.
Proof. reflexivity. Qed.

Lemma hasType_true (ty : string) (c : Condition) :
  hasType ty c = true <-> Type_ c = ty.
Proof. apply String.eqb_eq. Qed.

Lemma hasType_false (ty : string) (c : Condition) :
  hasType ty c = false <-> Type_ c <> ty.
Proof. apply String.eqb_neq. Qed.

Lemma findOld_app (l1 l2 : list Condition) (ty : string) (i : nat) (old : option nat) :
  findOld (l1 ++ l2) ty i old = findOld l2 ty (i + length l1) (findOld l1 ty i old).
Proof.
  revert i old. induction l1 as [|c l1 IH]; intros i old; simpl.
  - now rewrite Nat.add_0_r.
  - rewrite IH. f_equal. lia.
Qed.

Lemma findOld_absent (l : list Condition) (ty : string) (i : nat) (old : option nat) :
  Forall (fun c => Type_ c <> ty) l -> findOld l ty i old = old.
Proof.
  intros H. revert i old. induction H as [|c l Hc _ IH]; intros i old; simpl.
  - reflexivity.
  - rewrite IH. apply String.eqb_neq in Hc. now rewrite Hc.
Qed.

(** The search ends at the last entry of the Type, wherever it is. *)
Lemma findOld_last (l1 l2 : list Condition) (old : Condition) (ty : string) :
  Type_ old = ty -> Forall (fun c => Type_ c <> ty) l2 ->
  findOld (l1 ++ old :: l2) ty 0 None = Some (length l1).
Proof.
  intros Hold Hl2. rewrite findOld_app. simpl.
  rewrite findOld_absent by exact Hl2.
  apply String.eqb_eq in Hold. now rewrite Hold.
Qed.

(** Either no entry has the Type, or the slice splits at the last one. *)
Lemma split_at_last (ty : string) (l : list Condition) :
  Forall (fun c => Type_ c <> ty) l \/
  exists l1 old l2, l = l1 ++ old :: l2 /\ Type_ old = ty /\
                    Forall (fun c => Type_ c <> ty) l2.
Proof.
  induction l as [|c l IH] using rev_ind; [left; constructor|].
  destruct (decide (Type_ c = ty)) as [Hc|Hc].
  - right. exists l, c, []. auto.
  - destruct IH as [IH|(l1 & old & l2 & -> & Hold & Hl2)].
    + left. apply Forall_app. auto.
    + right. exists l1, old, (l2 ++ [c]). rewrite <- app_assoc. simpl.
      repeat split; auto. apply Forall_app. auto.
Qed.

Lemma mergeIDPCondition_absent (l : list Condition) (new : Condition) :
  Forall (fun c => Type_ c <> Type_ new) l ->
  mergeIDPCondition l new = (l ++ [new], true).
Proof.
  intros H. unfold mergeIDPCondition. now rewrite findOld_absent.
Qed.

Lemma mergeIDPCondition_present (l1 l2 : list Condition) (old new : Condition) :
  Type_ old = Type_ new -> Forall (fun c => Type_ c <> Type_ new) l2 ->
  mergeIDPCondition (l1 ++ old :: l2) new =
  let new' := if decide (Status old = Status new)
              then withLastTransitionTime (LastTransitionTime old) new
              else new in
  if decide (old = new') then (l1 ++ old :: l2, false)
  else (l1 ++ new' :: l2, true).
Proof.
  intros Hold Hl2. unfold mergeIDPCondition.
  rewrite findOld_last by assumption.
  rewrite list_lookup_middle by reflexivity. simpl.
  destruct (decide (old = _)); [reflexivity|].
  now rewrite insert_app_r_alt, Nat.sub_diag by lia.
Qed.

Lemma filter_hasType_none (ty : string) (l : list Condition) :
  Forall (fun c => Type_ c <> ty) l -> List.filter (hasType ty) l = [].
Proof.
  intros H. apply filter_none. intros z Hz.
  rewrite List.Forall_forall in H. apply hasType_false. now apply H.
Qed.

Lemma lastOf_split (ty : string) (l1 l2 : list Condition) (old : Condition) :
  Type_ old = ty -> Forall (fun c => Type_ c <> ty) l2 ->
  lastOf ty (l1 ++ old :: l2) = Some old.
Proof.
  intros Hold Hl2. unfold lastOf. rewrite List.filter_app. simpl.
  apply hasType_true in Hold. rewrite Hold.
  rewrite (filter_hasType_none ty l2) by exact Hl2. apply last_snoc.
Qed.

Lemma lastOf_absent (ty : string) (l : list Condition) :
  Forall (fun c => Type_ c <> ty) l -> lastOf ty l = None.
Proof. intros H. unfold lastOf. now rewrite filter_hasType_none. Qed.

Lemma lastOf_Some_split (ty : string) (l : list Condition) (x : Condition) :
  lastOf ty l = Some x ->
  exists l1 l2, l = l1 ++ x :: l2 /\ Type_ x = ty /\
                Forall (fun c => Type_ c <> ty) l2.
Proof.
  intros Hx. destruct (split_at_last ty l) as [H|(l1 & old & l2 & -> & Hold & Hl2)].
  - rewrite lastOf_absent in Hx by exact H. discriminate.
  - rewrite lastOf_split in Hx by assumption. injection Hx as <-. eauto.
Qed.

(** A merge touches the entries of the merged Type only. *)
Lemma mergeIDPCondition_filter_other (ty : string) (l : list Condition) (new : Condition) :
  Type_ new <> ty ->
  List.filter (hasType ty) (fst (mergeIDPCondition l new)) = List.filter (hasType ty) l.
Proof.
  intros Hne. apply hasType_false in Hne.
  destruct (split_at_last (Type_ new) l) as [H|(l1 & old & l2 & -> & Hold & Hl2)].
  - rewrite mergeIDPCondition_absent by exact H. simpl.
    rewrite List.filter_app. simpl. rewrite Hne. apply app_nil_r.
  - rewrite mergeIDPCondition_present by assumption. simpl.
    destruct (decide (old = _)); [reflexivity|]. simpl.
    rewrite !List.filter_app. simpl.
    assert (Hold' : hasType ty old = false).
    { apply hasType_false. apply hasType_false in Hne. congruence. }
    rewrite Hold'.
    destruct (decide (Status old = Status new));
      unfold hasType in *; simpl; now rewrite Hne.
Qed.

(** After a merge the last entry of the merged Type is the incoming
    condition, up to its LastTransitionTime. *)
Lemma mergeIDPCondition_lastOf (l : list Condition) (new : Condition) :
  exists t, lastOf (Type_ new) (fst (mergeIDPCondition l new)) =
            Some (withLastTransitionTime t new).
Proof.
  destruct (split_at_last (Type_ new) l) as [H|(l1 & old & l2 & -> & Hold & Hl2)].
  - rewrite mergeIDPCondition_absent by exact H. simpl.
    exists (LastTransitionTime new). rewrite withLastTransitionTime_same.
    now apply (lastOf_split _ l []).
  - rewrite mergeIDPCondition_present by assumption. simpl.
    destruct (decide (old = _)) as [Heq|Hneq]; simpl.
    + rewrite lastOf_split by assumption.
      destruct (decide (Status old = Status new)).
      * exists (LastTransitionTime old). now f_equal.
      * exists (LastTransitionTime new). rewrite withLastTransitionTime_same.
        now f_equal.
    + destruct (decide (Status old = Status new)).
      * exists (LastTransitionTime old). now apply lastOf_split.
      * exists (LastTransitionTime new). rewrite withLastTransitionTime_same.
        now apply lastOf_split.
Qed.

(** Merging what is already there changes nothing. *)
Lemma mergeIDPCondition_noop (l : list Condition) (new x : Condition) :
  lastOf (Type_ new) l = Some x ->
  x = withLastTransitionTime (LastTransitionTime x) new ->
  mergeIDPCondition l new = (l, false).
Proof.
  intros Hx Heq.
  apply lastOf_Some_split in Hx as (l1 & l2 & -> & Hty & Hl2).
  rewrite mergeIDPCondition_present by assumption. simpl.
  assert (Hst : Status x = Status new) by now rewrite Heq.
  destruct (decide (Status x = Status new)); [|contradiction].
  destruct (decide (x = _)); [reflexivity|contradiction].
Qed.

End MergeFacts.

(** ** Facts about MergeIDPConditions *)

Section MergeAllFacts.
Import metav1 conditionsutil StateM.
Variable wall : nat -> Time.

Lemma mergeEach_cons (c : Condition) (rest : list Condition) (og : Z)
      (l : list Condition) (had : bool) (s : Effects) :
  mergeEach wall (c :: rest) og l had s =
  let cond := stamped (wall (ticks s)) og c in
  let r := mergeIDPCondition l cond in
  mergeEach wall rest og (fst r)
    (if decide (Status cond = ConditionFalse) then true else had)
    {| ticks := S (ticks s);
       logged := if snd r
                 then logged s ++ [mkLogEntry (Type_ cond) (Status cond)
                                              (Reason cond) (Message cond)]
                 else logged s |}.
Proof.
  simpl. unfold bind, Now. simpl.
  destruct (mergeIDPCondition l _) as [u []]; reflexivity.
Qed.

Lemma MergeIDPConditions_unfold (conds : list Condition) (og : Z)
      (l : list Condition) (s : Effects) :
  MergeIDPConditions wall conds og l s =
  let r := mergeEach wall conds og l false s in
  ((sort.SliceStable lessType (fst (fst r)), snd (fst r)), snd r).
Proof.
  unfold MergeIDPConditions, bind.
  now destruct (mergeEach wall conds og l false s) as [[m h] s'].
Qed.

Lemma mergeEach_hadErrorCondition (conds : list Condition) (og : Z)
      (l : list Condition) (had : bool) (s : Effects) :
  snd (fst (mergeEach wall conds og l had s)) = had || existsb isFalse conds.
Proof.
  revert l had s. induction conds as [|c rest IH]; intros l had s.
  - simpl. now rewrite orb_false_r.
  - rewrite mergeEach_cons. simpl. rewrite IH. unfold isFalse. simpl.
    destruct (decide (Status c = ConditionFalse)) as [H|H].
    + rewrite (bool_decide_eq_true_2 _ H). simpl. now rewrite orb_true_r.
    + now rewrite (bool_decide_eq_false_2 _ H).
Qed.

Lemma mergeEach_filter_other (ty : string) (conds : list Condition) (og : Z)
      (l : list Condition) (had : bool) (s : Effects) :
  ty ∉ map Type_ conds ->
  List.filter (hasType ty) (fst (fst (mergeEach wall conds og l had s))) =
  List.filter (hasType ty) l.
Proof.
  revert l had s. induction conds as [|c rest IH]; intros l had s Hty.
  - reflexivity.
  - rewrite mergeEach_cons. simpl in *. apply not_elem_of_cons in Hty as [Hc Hrest].
    rewrite IH by exact Hrest.
    apply mergeIDPCondition_filter_other. simpl. congruence.
Qed.

(** After the loop, every incoming condition is the last entry of its Type,
    up to the LastTransitionTime, when no two of them share a Type. *)
Lemma mergeEach_lastOf (conds : list Condition) (og : Z)
      (l : list Condition) (had : bool) (s : Effects) :
  NoDup (map Type_ conds) ->
  forall c, c ∈ conds ->
  exists t, lastOf (Type_ c) (fst (fst (mergeEach wall conds og l had s))) =
            Some (stamped t og c).
Proof.
  revert l had s. induction conds as [|c0 rest IH]; intros l had s Hnd c Hc.
  - now apply elem_of_nil in Hc.
  - simpl in Hnd. apply NoDup_cons in Hnd as [Hc0 Hnd].
    rewrite mergeEach_cons. simpl.
    apply elem_of_cons in Hc as [->|Hc].
    + unfold lastOf. rewrite mergeEach_filter_other by exact Hc0.
      destruct (mergeIDPCondition_lastOf l (stamped (wall (ticks s)) og c0))
        as [t Ht].
      exists t. exact Ht.
    + now apply IH.
Qed.

(** Running the loop over conditions that are all in place already leaves
    the slice alone and logs nothing. *)
Lemma mergeEach_noop (conds : list Condition) (og : Z)
      (l : list Condition) (had : bool) (s : Effects) :
  (forall c, c ∈ conds -> exists t, lastOf (Type_ c) l = Some (stamped t og c)) ->
  mergeEach wall conds og l had s =
  ((l, had || existsb isFalse conds),
   {| ticks := length conds + ticks s; logged := logged s |}).
Proof.
  revert had s. induction conds as [|c rest IH]; intros had s Hin.
  - simpl. unfold ret. rewrite orb_false_r. now destruct s.
  - rewrite mergeEach_cons. simpl.
    destruct (Hin c) as [t Ht]; [now left|].
    rewrite (mergeIDPCondition_noop l (stamped (wall (ticks s)) og c)
               (stamped t og c)) by (exact Ht || reflexivity).
    simpl. rewrite IH by (intros c' Hc'; apply Hin; now right).
    simpl. f_equal; [|f_equal; lia].
    f_equal. unfold isFalse.
    destruct (decide (Status c = ConditionFalse)) as [H|H].
    + rewrite (bool_decide_eq_true_2 _ H). simpl. now rewrite orb_true_r.
    + now rewrite (bool_decide_eq_false_2 _ H).
Qed.

Lemma mergeIDPCondition_types (l : list Condition) (new : Condition) :
  map Type_ (fst (mergeIDPCondition l new)) = addType (map Type_ l) (Type_ new).
Proof.
  unfold addType.
  destruct (split_at_last (Type_ new) l) as [H|(l1 & old & l2 & -> & Hold & Hl2)].
  - rewrite mergeIDPCondition_absent by exact H. simpl.
    rewrite bool_decide_eq_false_2.
    + now rewrite map_app.
    + intros Hin. apply list_elem_of_In, in_map_iff in Hin as (c & Hc & Hin).
      rewrite List.Forall_forall in H. now apply (H c).
  - rewrite mergeIDPCondition_present by assumption. simpl.
    rewrite bool_decide_eq_true_2.
    + destruct (decide (old = _)); [reflexivity|]. simpl.
      rewrite !map_app. simpl. f_equal. f_equal.
      now destruct (decide (Status old = Status new)).
    + rewrite map_app. apply elem_of_app. right. simpl. rewrite Hold. now left.
Qed.

Lemma mergeEach_types (conds : list Condition) (og : Z)
      (l : list Condition) (had : bool) (s : Effects) :
  map Type_ (fst (fst (mergeEach wall conds og l had s))) =
  fold_left addType (map Type_ conds) (map Type_ l).
Proof.
  revert l had s. induction conds as [|c rest IH]; intros l had s.
  - reflexivity.
  - rewrite mergeEach_cons. simpl. rewrite IH. f_equal.
    apply (mergeIDPCondition_types l (stamped (wall (ticks s)) og c)).
Qed.

End MergeAllFacts.

(** ** The order of conditions *)

Section ConditionOrder.
Import metav1 conditionsutil.

Lemma lessType_irrefl (a : Condition) : lessType a a = false.
Proof. apply ltb_irrefl. Qed.

Lemma lessType_trans (a b c : Condition) :
  lessType a b = true -> lessType b c = true -> lessType a c = true.
Proof. apply ltb_trans. Qed.

Lemma lessType_negtrans (a b c : Condition) :
  lessType a b = false -> lessType b c = false -> lessType a c = false.
Proof. apply ltb_negtrans. Qed.

Lemma lessType_same (ty : string) (a b : Condition) :
  hasType ty a = true -> hasType ty b = true -> lessType a b = false.
Proof.
  intros Ha%hasType_true Hb%hasType_true. unfold lessType.
  rewrite Ha, Hb. apply ltb_irrefl.
Qed.

Lemma notAfter_byType (a b : Condition) :
  sort.notAfter lessType a b <-> byType a b.
Proof. unfold sort.notAfter, lessType, byType. apply ltb_false_le. Qed.

Lemma SliceStable_byType (l : list Condition) :
  StronglySorted byType (sort.SliceStable lessType l).
Proof.
  pose proof (SliceStable_sorted lessType lessType_irrefl lessType_trans l) as H.
  induction H as [|a l' Hs IH Ha]; constructor; [exact IH|].
  eapply Forall_impl; [exact Ha|]. intros b. apply notAfter_byType.
Qed.

Lemma SliceStable_byType_id (l : list Condition) :
  StronglySorted byType l -> sort.SliceStable lessType l = l.
Proof.
  intros H. apply SliceStable_of_sorted.
  induction H as [|a l' Hs IH Ha]; constructor; [exact IH|].
  eapply Forall_impl; [exact Ha|]. intros b. apply notAfter_byType.
Qed.

Lemma SliceStable_hasType (ty : string) (l : list Condition) :
  List.filter (hasType ty) (sort.SliceStable lessType l) = List.filter (hasType ty) l.
Proof.
  apply SliceStable_filter.
  - apply lessType_irrefl.
  - apply lessType_trans.
  - apply lessType_negtrans.
  - apply lessType_same.
Qed.

Lemma addType_Permutation (tys tys' : list string) (ty : string) :
  tys ≡ₚ tys' -> addType tys ty ≡ₚ addType tys' ty.
Proof.
  intros H. unfold addType.
  destruct (decide (ty ∈ tys)) as [Hin|Hin].
  - rewrite !bool_decide_eq_true_2; [exact H| now rewrite <- H | exact Hin].
  - rewrite !bool_decide_eq_false_2; [now rewrite H | now rewrite <- H | exact Hin].
Qed.

Lemma addType_swap (tys : list string) (a b : string) :
  addType (addType tys a) b ≡ₚ addType (addType tys b) a.
Proof.
  unfold addType.
  destruct (decide (a = b)) as [->|Hab]; [reflexivity|].
  destruct (decide (a ∈ tys)) as [Ha|Ha], (decide (b ∈ tys)) as [Hb|Hb].
  - rewrite (bool_decide_eq_true_2 _ Ha), (bool_decide_eq_true_2 _ Hb).
    now rewrite (bool_decide_eq_true_2 _ Ha).
  - rewrite (bool_decide_eq_true_2 _ Ha), (bool_decide_eq_false_2 _ Hb).
    rewrite bool_decide_eq_true_2; [reflexivity|]. apply elem_of_app. now left.
  - rewrite (bool_decide_eq_false_2 _ Ha), (bool_decide_eq_true_2 _ Hb).
    rewrite bool_decide_eq_true_2; [|apply elem_of_app; now left].
    now rewrite (bool_decide_eq_false_2 _ Ha).
  - rewrite (bool_decide_eq_false_2 _ Ha), (bool_decide_eq_false_2 _ Hb).
    rewrite !bool_decide_eq_false_2.
    + rewrite <- !app_assoc. apply Permutation_app_head. simpl. apply Permutation_swap.
    + rewrite elem_of_app, list_elem_of_singleton. intuition congruence.
    + rewrite elem_of_app, list_elem_of_singleton. intuition congruence.
Qed.

Lemma fold_addType_acc (ts tys tys' : list string) :
  tys ≡ₚ tys' -> fold_left addType ts tys ≡ₚ fold_left addType ts tys'.
Proof.
  revert tys tys'. induction ts as [|t ts IH]; intros tys tys' H; simpl.
  - exact H.
  - apply IH. now apply addType_Permutation.
Qed.

(** The Types that result from merging do not depend on the order of
    either slice, up to their own order. *)
Lemma fold_addType_Permutation (ts ts' : list string) :
  ts ≡ₚ ts' -> forall tys tys', tys ≡ₚ tys' ->
  fold_left addType ts tys ≡ₚ fold_left addType ts' tys'.
Proof.
  induction 1 as [|t ts ts' _ IH|a b ts|ts1 ts2 ts3 _ IH1 _ IH2];
    intros tys tys' Htys; simpl.
  - exact Htys.
  - apply IH. now apply addType_Permutation.
  - apply fold_addType_acc. rewrite addType_swap.
    now do 2 apply addType_Permutation.
  - etransitivity; [apply IH1; exact Htys|]. now apply IH2.
Qed.

End ConditionOrder.

(** ** The condition merge: the claims *)

Section MergeClaims.
Import metav1 conditionsutil StateM.

Lemma unique_Type_is_last (existing : list Condition) (i : nat) (old : Condition) :
  NoDup (map Type_ existing) -> existing !! i = Some old ->
  existing = take i existing ++ old :: drop (S i) existing /\
  length (take i existing) = i /\
  Forall (fun x => Type_ x <> Type_ old) (drop (S i) existing).
Proof.
  intros Hnd Hi. pose proof (take_drop_middle existing i old Hi) as Hsplit.
  split; [now symmetry|]. split.
  - apply length_take_le. apply lookup_lt_Some in Hi. lia.
  - rewrite <- Hsplit, map_app in Hnd. simpl in Hnd.
    apply NoDup_app in Hnd as (_ & _ & Hnd).
    apply NoDup_cons in Hnd as [Hnotin _].
    apply Forall_forall. intros x Hx Heq. apply Hnotin. rewrite <- Heq.
    now apply list_elem_of_fmap_2.
Qed.

(** C5: the loop body of MergeIDPConditions hands mergeIDPCondition the
    incoming condition stamped with the time read from the clock. If no
    stored condition has its Type, the stamped condition is appended and the
    merge reports a change. Otherwise, for the stored condition of that Type
    (the last one, should several carry it): when its Status equals the
    incoming Status the merged entry keeps the stored LastTransitionTime;
    when the Status differs the merged entry carries the time stamped at the
    merge, and the merge reports a change. In a set in which every Type
    occurs once this holds for the stored condition of the Type, wherever
    it is. *)
Theorem mergeIDPCondition_transition_time
        (wall : nat -> Time) (c : Condition) (og : Z)
        (existing : list Condition) (had : bool) (s : Effects) :
  let now := wall (ticks s) in
  let cond := stamped now og c in
  let after := fst (fst (mergeEach wall [c] og existing had s)) in
  after = fst (mergeIDPCondition existing cond) /\
  LastTransitionTime cond = now /\
  (Forall (fun x => Type_ x <> Type_ c) existing ->
   mergeIDPCondition existing cond = (existing ++ [cond], true)) /\
  (forall l1 old l2,
     existing = l1 ++ old :: l2 -> Type_ old = Type_ c ->
     Forall (fun x => Type_ x <> Type_ c) l2 ->
     (Status old = Status c ->
      after = l1 ++ withLastTransitionTime (LastTransitionTime old) cond :: l2) /\
     (Status old <> Status c ->
      mergeIDPCondition existing cond = (l1 ++ cond :: l2, true))) /\
  (forall i old,
     NoDup (map Type_ existing) -> existing !! i = Some old ->
     Type_ old = Type_ c ->
     (Status old = Status c ->
      after = <[i := withLastTransitionTime (LastTransitionTime old) cond]> existing) /\
     (Status old <> Status c ->
      mergeIDPCondition existing cond = (<[i := cond]> existing, true))).
Proof.
  intros now cond after.
  assert (Hlast : forall l1 old l2,
     existing = l1 ++ old :: l2 -> Type_ old = Type_ c ->
     Forall (fun x => Type_ x <> Type_ c) l2 ->
     (Status old = Status c ->
      after = l1 ++ withLastTransitionTime (LastTransitionTime old) cond :: l2) /\
     (Status old <> Status c ->
      mergeIDPCondition existing cond = (l1 ++ cond :: l2, true))).
  { subst after. rewrite mergeEach_cons. simpl. fold now. fold cond.
    intros l1 old l2 -> Hty Hl2.
    rewrite mergeIDPCondition_present by assumption. simpl.
    change (Status cond) with (Status c). split; intros Hst.
    + destruct (decide (Status old = Status c)); [|contradiction].
      destruct (decide (old = _)) as [Heq|Hneq]; simpl; [|reflexivity].
      now rewrite <- Heq.
    + destruct (decide (Status old = Status c)); [contradiction|].
      destruct (decide (old = cond)) as [Heq|Hneq]; [|reflexivity].
      exfalso. apply Hst. now rewrite Heq. }
  split; [subst after; now rewrite mergeEach_cons|].
  split; [reflexivity|]. split; [|split; [exact Hlast|]].
  - intros H. now apply mergeIDPCondition_absent.
  - intros i old Hnd Hi Hty.
    destruct (unique_Type_is_last existing i old Hnd Hi) as (Hsplit & Hlen & Hrest).
    rewrite Hty in Hrest.
    destruct (Hlast _ _ _ Hsplit Hty Hrest) as [Hsame Hdiff].
    assert (Hins : forall x,
              <[i := x]> existing = take i existing ++ x :: drop (S i) existing).
    { intros x. rewrite Hsplit at 1.
      rewrite insert_app_r_alt by lia. rewrite Hlen, Nat.sub_diag. reflexivity. }
    split; intros Hst; rewrite Hins; auto.
Qed.

Lemma mergeIDPCondition_transition_time_witness :
  fst (fst (mergeEach examples.tickClock [examples.cond "Ready" ConditionTrue] 1%Z
              [examples.storedReady] false examples.start)) =
  [withLastTransitionTime 5%Z
     (stamped 0%Z 1%Z (examples.cond "Ready" ConditionTrue))].
Proof.
  apply (proj1 (proj1 (proj2 (proj2 (proj2
           (mergeIDPCondition_transition_time examples.tickClock
              (examples.cond "Ready" ConditionTrue) 1%Z
              [examples.storedReady] false examples.start))))
           [] examples.storedReady [] eq_refl eq_refl (List.Forall_nil _))).
  reflexivity.
Defined.

(** C4, as amended: when no two of the incoming conditions share a Type,
    merging them a second time into the set that the first merge produced,
    with the same observed generation and at any later clock reading, leaves
    the set as it is: every call of mergeIDPCondition of the second run
    returns false whatever time was stamped, no "updated condition" line is
    logged, and the sorted slice is the same. *)
Theorem MergeIDPConditions_idempotent
        (wall : nat -> Time) (conds : list Condition) (og : Z)
        (existing : list Condition) (s s' : Effects) :
  NoDup (map Type_ conds) ->
  let merged := fst (fst (MergeIDPConditions wall conds og existing s)) in
  let again := MergeIDPConditions wall conds og merged s' in
  fst (fst again) = merged /\
  logged (snd again) = logged s' /\
  (forall c t, c ∈ conds ->
     mergeIDPCondition merged (stamped t og c) = (merged, false)).
Proof.
  intros Hnd merged again.
  assert (Hlast : forall c, c ∈ conds ->
            exists t, lastOf (Type_ c) merged = Some (stamped t og c)).
  { intros c Hc. subst merged. rewrite MergeIDPConditions_unfold. simpl.
    unfold lastOf. rewrite SliceStable_hasType.
    now apply mergeEach_lastOf. }
  assert (Hsorted : sort.SliceStable lessType merged = merged).
  { apply SliceStable_byType_id. subst merged.
    rewrite MergeIDPConditions_unfold. simpl. apply SliceStable_byType. }
  subst again. rewrite MergeIDPConditions_unfold.
  rewrite mergeEach_noop by exact Hlast. simpl.
  repeat split; [exact Hsorted|].
  intros c t Hc. destruct (Hlast c Hc) as [t' Ht'].
  now apply (mergeIDPCondition_noop merged (stamped t og c) (stamped t' og c)).
Qed.

Lemma MergeIDPConditions_idempotent_witness :
  let merged :=
    fst (fst (MergeIDPConditions examples.tickClock
                [examples.cond "Ready" ConditionFalse] 1%Z
                [examples.storedReady] examples.start)) in
  fst (fst (MergeIDPConditions examples.tickClock
              [examples.cond "Ready" ConditionFalse] 1%Z merged
              {| ticks := 7; logged := [] |})) = merged.
Proof.
  apply (MergeIDPConditions_idempotent examples.tickClock
           [examples.cond "Ready" ConditionFalse] 1%Z
           [examples.storedReady] examples.start {| ticks := 7; logged := [] |}).
  simpl. repeat constructor. intros H. now apply elem_of_nil in H.
Defined.

(** C4 as stated fails: with two incoming conditions of one Type, the second
    merge stamps the entry afresh and reports changes. *)
Lemma MergeIDPConditions_not_idempotent :
  let first := MergeIDPConditions examples.tickClock examples.sameTypeTwice 1%Z
                 [] examples.start in
  let merged := fst (fst first) in
  let again := MergeIDPConditions examples.tickClock examples.sameTypeTwice 1%Z
                 merged (snd first) in
  fst (fst again) <> merged /\
  logged (snd again) <> logged (snd first) /\
  snd (mergeIDPCondition merged
         (stamped 2%Z 1%Z (examples.cond "Ready" ConditionTrue))) = true.
Proof. repeat split; vm_compute; congruence. Qed.

(** C6: whatever the order of the incoming conditions and of the stored
    ones, the slice that MergeIDPConditions leaves is in ascending order of
    Type; it is the merged slice sorted stably (entries of one Type keep
    their order, nothing is lost or added); and the sequence of Types in it
    is the same for every reordering of either input. *)
Theorem MergeIDPConditions_sorted_by_Type
        (wall : nat -> Time) (conds : list Condition) (og : Z)
        (existing : list Condition) (s : Effects) :
  let result := fst (fst (MergeIDPConditions wall conds og existing s)) in
  let merged := fst (fst (mergeEach wall conds og existing false s)) in
  StronglySorted byType result /\
  (forall ty, List.filter (hasType ty) result = List.filter (hasType ty) merged) /\
  result ≡ₚ merged /\
  (forall wall' conds' og' existing' s',
     conds ≡ₚ conds' -> existing ≡ₚ existing' ->
     map Type_ (fst (fst (MergeIDPConditions wall' conds' og' existing' s'))) =
     map Type_ result).
Proof.
  intros result merged. subst result merged.
  rewrite MergeIDPConditions_unfold. simpl.
  split; [apply SliceStable_byType|].
  split; [intros ty; apply SliceStable_hasType|].
  split; [apply SliceStable_Permutation|].
  intros wall' conds' og' existing' s' Hc He.
  rewrite MergeIDPConditions_unfold. simpl.
  apply (Sorted_unique String.le).
  - apply (Sorted_fmap Type_ byType String.le); [now intros|].
    apply StronglySorted_Sorted, SliceStable_byType.
  - apply (Sorted_fmap Type_ byType String.le); [now intros|].
    apply StronglySorted_Sorted, SliceStable_byType.
  - rewrite !SliceStable_Permutation, !mergeEach_types.
    apply fold_addType_Permutation.
    + symmetry. now apply Permutation_map.
    + symmetry. now apply Permutation_map.
Qed.

Lemma MergeIDPConditions_sorted_by_Type_witness :
  map Type_ (fst (fst (MergeIDPConditions examples.tickClock
                         [examples.cond "B" ConditionTrue;
                          examples.cond "A" ConditionTrue] 1%Z
                         [examples.storedReady] examples.start))) =
  map Type_ (fst (fst (MergeIDPConditions examples.tickClock
                         [examples.cond "A" ConditionTrue;
                          examples.cond "B" ConditionTrue] 1%Z
                         [examples.storedReady] examples.start))).
Proof.
  apply (proj2 (proj2 (proj2
           (MergeIDPConditions_sorted_by_Type examples.tickClock
              [examples.cond "A" ConditionTrue; examples.cond "B" ConditionTrue]
              1%Z [examples.storedReady] examples.start)))).
  - apply perm_swap.
  - reflexivity.
Defined.

End MergeClaims.

(** ** The GitHub watcher *)

Section GitHubWatcher.
Import metav1 conditionsutil StateM controllerlib githubupstreamwatcher.
Variable wall : nat -> Time.
Variable cluster : Cluster.

Lemma github_updateStatus_run (upstream : GitHubIdentityProvider)
      (conditions : list Condition) (w : World) :
  let r := MergeIDPConditions wall conditions (Generation upstream)
             (Conditions (Status upstream)) (effects w) in
  let updated := updatedWith upstream (fst (fst r)) (snd (fst r)) in
  updateStatus wall cluster upstream conditions w =
  (tt,
   if decide (upstream = updated)
   then {| effects := snd r; cacheSets := cacheSets w;
           statusUpdates := statusUpdates w; updateErrors := updateErrors w |}
   else {| effects := snd r; cacheSets := cacheSets w;
           statusUpdates := statusUpdates w ++ [updated];
           updateErrors :=
             match UpdateStatus cluster updated with
             | Some err => updateErrors w ++ [err]
             | None => updateErrors w
             end |}).
Proof.
  unfold updateStatus, bind, liftEffects, updatedWith. simpl.
  destruct (MergeIDPConditions wall conditions (Generation upstream)
              (Conditions (Status upstream)) (effects w)) as [[merged had] e].
  simpl. destruct (decide (upstream = _)); reflexivity.
Qed.

Lemma MergeIDPConditions_hadErrorCondition (conditions : list Condition)
      (og : Z) (existing : list Condition) (s : Effects) :
  snd (fst (MergeIDPConditions wall conditions og existing s)) =
  existsb isFalse conditions.
Proof.
  rewrite MergeIDPConditions_unfold. simpl.
  now rewrite mergeEach_hadErrorCondition.
Qed.

Lemma existsb_isFalse (conditions : list Condition) :
  existsb isFalse conditions = true <->
  exists c, c ∈ conditions /\ metav1.Status c = ConditionFalse.
Proof.
  rewrite existsb_exists. split; intros (c & Hc & Hs); exists c.
  - split; [now apply list_elem_of_In|]. now apply bool_decide_eq_true in Hs.
  - split; [now apply list_elem_of_In|]. now apply bool_decide_eq_true.
Qed.

(** C1, as amended: MergeIDPConditions returns true exactly when one of the
    incoming conditions has Status False, whatever the stored set holds; and
    updateStatus sets Phase to Error exactly then and to Ready otherwise
    (the object it sends carries that Phase; when it sends nothing, the
    object had that Phase already). *)
Theorem MergeIDPConditions_reports_incoming_failures
        (conditions : list Condition) (og : Z) (existing : list Condition)
        (s : Effects) (upstream : GitHubIdentityProvider) (w : World) :
  (snd (fst (MergeIDPConditions wall conditions og existing s)) = true <->
   exists c, c ∈ conditions /\ metav1.Status c = ConditionFalse) /\
  let w' := snd (updateStatus wall cluster upstream conditions w) in
  (statusUpdates w' = statusUpdates w /\
   Phase (Status upstream) = phaseFor conditions) \/
  (exists updated,
     statusUpdates w' = statusUpdates w ++ [updated] /\
     Phase (Status updated) = phaseFor conditions).
Proof.
  split.
  - rewrite MergeIDPConditions_hadErrorCondition. apply existsb_isFalse.
  - rewrite github_updateStatus_run. simpl.
    rewrite MergeIDPConditions_hadErrorCondition.
    destruct (decide (upstream = _)) as [Heq|Hneq]; simpl.
    + left. split; [reflexivity|]. rewrite Heq at 1. reflexivity.
    + right. eexists. split; reflexivity.
Qed.

Lemma MergeIDPConditions_nothing_incoming (og : Z) (existing : list Condition)
      (s : Effects) :
  MergeIDPConditions wall [] og existing s =
  ((sort.SliceStable lessType existing, false), s).
Proof. reflexivity. Qed.

Lemma github_validateUpstream_run (upstream : GitHubIdentityProvider) (w : World) :
  validateUpstream wall cluster upstream w =
  (Some {| configName := Name upstream |},
   if decide (upstream = readied upstream) then w
   else {| effects := effects w; cacheSets := cacheSets w;
           statusUpdates := statusUpdates w ++ [readied upstream];
           updateErrors :=
             match UpdateStatus cluster (readied upstream) with
             | Some err => updateErrors w ++ [err]
             | None => updateErrors w
             end |}).
Proof.
  unfold validateUpstream, bind. rewrite github_updateStatus_run.
  rewrite MergeIDPConditions_nothing_incoming. simpl. unfold ret.
  fold (readied upstream).
  destruct (decide (upstream = readied upstream)); [now destruct w|reflexivity].
Qed.

Lemma github_validateEach_run (upstreams : list GitHubIdentityProvider)
      (requeue : bool) (validated : list ProviderConfig) (w : World) :
  let r := validateEach wall cluster upstreams requeue validated w in
  fst r = (requeue,
           validated ++ map (fun u => {| configName := Name u |}) upstreams) /\
  cacheSets (snd r) = cacheSets w /\
  effects (snd r) = effects w /\
  statusUpdates (snd r) =
    statusUpdates w ++
    map readied (List.filter (fun u => bool_decide (u <> readied u)) upstreams).
Proof.
  revert requeue validated w.
  induction upstreams as [|u rest IH]; intros requeue validated w; simpl.
  - now rewrite !app_nil_r.
  - unfold bind. rewrite github_validateUpstream_run.
    destruct (IH requeue (validated ++ [{| configName := Name u |}])
                (if decide (u = readied u) then w
                 else {| effects := effects w; cacheSets := cacheSets w;
                         statusUpdates := statusUpdates w ++ [readied u];
                         updateErrors :=
                           match UpdateStatus cluster (readied u) with
                           | Some err => updateErrors w ++ [err]
                           | None => updateErrors w
                           end |})) as (H1 & H2 & H3 & H4).
    rewrite H1, H2, H3, H4. rewrite <- app_assoc. simpl.
    destruct (decide (u = readied u)) as [Heq|Hneq].
    + rewrite bool_decide_eq_false_2 by tauto. auto.
    + rewrite bool_decide_eq_true_2 by exact Hneq. simpl.
      rewrite <- app_assoc. auto.
Qed.

(** C1 as stated fails: with nothing incoming and a failing condition in
    the stored set, MergeIDPConditions returns false although the resulting
    set holds a condition with Status False, and updateStatus sends the
    object with Phase Ready. *)
Lemma MergeIDPConditions_misses_stored_failure :
  let r := MergeIDPConditions examples.tickClock [] 1%Z examples.storedFailure
             examples.start in
  ~ (snd (fst r) = true <->
     exists c, c ∈ fst (fst r) /\ metav1.Status c = ConditionFalse) /\
  exists updated,
    statusUpdates (snd (updateStatus examples.tickClock examples.ghCluster
                          examples.ghProvider [] examples.ghWorld)) = [updated] /\
    Phase (Status updated) = GitHubPhaseReady /\
    exists c, c ∈ Conditions (Status updated) /\ metav1.Status c = ConditionFalse.
Proof.
  split.
  - intros [_ H]. simpl in H. discriminate H.
    exists (examples.cond "ClientCredentialsValid" ConditionFalse).
    split; [now left | reflexivity].
  - eexists. split; [reflexivity|]. split; [reflexivity|].
    exists (examples.cond "ClientCredentialsValid" ConditionFalse).
    split; [now left | reflexivity].
Qed.

(** C10: validateUpstream of the GitHub watcher checks nothing: it merges an
    empty list of conditions (no clock reading, no condition added to the
    stored ones, which are only sorted) and returns a config, never nil. So
    when listing succeeds Sync returns nil, never the synthetic requeue;
    the set handed to SetGitHubIdentityProviders holds a config for every
    listed provider, in order; and every provider's Phase is Ready: the
    objects sent to UpdateStatus carry Phase Ready, and a provider for which
    nothing is sent has Phase Ready already. *)
Theorem github_Sync_accepts_every_provider
        (upstreams : list GitHubIdentityProvider) (w : World) :
  List_ cluster = inl upstreams ->
  let r := Sync wall cluster w in
  (forall u w0,
     validateUpstream wall cluster u w0 =
       bind (updateStatus wall cluster u []) (fun _ => ret (Some {| configName := Name u |})) w0 /\
     fst (validateUpstream wall cluster u w0) = Some {| configName := Name u |}) /\
  fst r = None /\
  cacheSets (snd r) =
    cacheSets w ++ [map (fun u => {| configName := Name u |}) upstreams] /\
  effects (snd r) = effects w /\
  statusUpdates (snd r) =
    statusUpdates w ++
    map readied (List.filter (fun u => bool_decide (u <> readied u)) upstreams) /\
  (forall u, u ∈ upstreams ->
     Phase (Status (readied u)) = GitHubPhaseReady /\
     Conditions (Status (readied u)) ≡ₚ Conditions (Status u) /\
     (u = readied u -> Phase (Status u) = GitHubPhaseReady)).
Proof.
  intros Hlist r. split.
  - intros u w0. split; [reflexivity|]. now rewrite github_validateUpstream_run.
  - subst r. unfold Sync. rewrite Hlist. unfold bind.
    destruct (github_validateEach_run upstreams false [] w) as (H1 & H2 & H3 & H4).
    destruct (validateEach wall cluster upstreams false [] w) as [[requeue validated] w1].
    simpl in *. injection H1 as -> ->.
    rewrite H2, H3, H4. repeat split.
    + apply SliceStable_Permutation.
    + intros ->. reflexivity.
Qed.

End GitHubWatcher.

Lemma github_Sync_accepts_every_provider_witness :
  fst (githubupstreamwatcher.Sync examples.tickClock examples.ghCluster
         examples.ghWorld) = None.
Proof.
  apply (proj1 (proj2
    (github_Sync_accepts_every_provider examples.tickClock examples.ghCluster
       [examples.ghProvider] examples.ghWorld eq_refl))).
Defined.

(** ** The OIDC watcher: scopes *)

Section Scopes.
Import oidcupstreamwatcher.

Lemma fold_Insert_elem (l : list string) (set : gset string) (s : string) :
  s ∈ fold_left (fun set s => sets.Insert s set) l set <-> s ∈ l \/ s ∈ set.
Proof.
  revert set. induction l as [|x l IH]; intros set; simpl.
  - rewrite elem_of_nil. tauto.
  - rewrite IH, elem_of_cons. unfold sets.Insert. set_solver.
Qed.

Lemma List_elem (set : gset string) (s : string) :
  s ∈ sets.List_ set <-> s ∈ set.
Proof.
  unfold sets.List_. rewrite merge_sort_Permutation. apply elem_of_elements.
Qed.

Lemma List_NoDup (set : gset string) : NoDup (sets.List_ set).
Proof.
  unfold sets.List_. rewrite merge_sort_Permutation. apply NoDup_elements.
Qed.

Lemma List_sorted (set : gset string) :
  StronglySorted String.le (sets.List_ set).
Proof. apply StronglySorted_merge_sort; apply _. Qed.

Lemma le_ne_ltb (a b : string) : (a ≤ b)%string -> a <> b -> String.ltb a b = true.
Proof.
  intros Hle Hne. destruct (String.ltb a b) eqn:H; [reflexivity|exfalso].
  apply ltb_false_le in H. apply Hne. now apply (anti_symm String.le).
Qed.

Lemma sorted_NoDup_ascending (l : list string) :
  StronglySorted String.le l -> NoDup l ->
  StronglySorted (fun a b => String.ltb a b = true) l.
Proof.
  induction 1 as [|a l Hs IH Ha]; intros Hnd; constructor.
  - apply IH. now apply NoDup_cons in Hnd.
  - apply NoDup_cons in Hnd as [Hnotin _].
    rewrite List.Forall_forall in *. intros b Hb.
    apply le_ne_ltb; [now apply Ha|].
    intros ->. apply Hnotin. now apply list_elem_of_In.
Qed.

(** C9: with no additional scopes computeScopes returns the default set
    openid, offline_access, email, profile; otherwise it returns, in strictly
    ascending order and so without repetition, exactly "openid" and the
    configured scopes; for ["groups"] that is [groups, openid]. *)
Theorem computeScopes_default_or_sorted_union (additionalScopes : list string) :
  computeScopes [] = ["openid"; "offline_access"; "email"; "profile"] /\
  computeScopes ["groups"] = ["groups"; "openid"] /\
  (additionalScopes <> [] ->
   StronglySorted (fun a b => String.ltb a b = true)
     (computeScopes additionalScopes) /\
   NoDup (computeScopes additionalScopes) /\
   forall s, s ∈ computeScopes additionalScopes <->
             s = "openid" \/ s ∈ additionalScopes).
Proof.
  split; [reflexivity|]. split; [now vm_compute|].
  intros Hne. unfold computeScopes.
  destruct additionalScopes as [|x rest]; [contradiction|].
  change (Nat.eqb (length (x :: rest)) 0) with false. cbv iota.
  split; [|split].
  - apply sorted_NoDup_ascending; [apply List_sorted | apply List_NoDup].
  - apply List_NoDup.
  - intros s. rewrite List_elem, fold_Insert_elem.
    unfold sets.Insert, sets.NewString, ScopeOpenID. set_solver.
Qed.

Lemma computeScopes_default_or_sorted_union_witness :
  NoDup (computeScopes ["profile"; "groups"; "profile"]).
Proof.
  apply (proj2 (proj2
    (computeScopes_default_or_sorted_union ["profile"; "groups"; "profile"]))).
  discriminate.
Defined.

End Scopes.

(** ** The OIDC watcher: additional authorize parameters *)

Section AuthorizeParameters.
Import oidcupstreamwatcher.

Lemma disallowed_denylist (name : string) :
  disallowed name = true <-> name ∈ denylist.
Proof.
  unfold disallowed, disallowedAdditionalAuthorizeParameters, denylist.
  cbn [list_to_map foldr fst snd].
  repeat (rewrite lookup_insert; case_decide;
          [subst; simpl; split; [intros _; set_solver | reflexivity]|]).
  rewrite lookup_empty. simpl. split; [discriminate|].
  rewrite !elem_of_cons, elem_of_nil. intuition congruence.
Qed.

Lemma splitAuthorizeParameters_run (params : list v1alpha1.Parameter_)
      (additional : gmap string string) (rejected : list string) :
  splitAuthorizeParameters params additional rejected =
  (fold_left (fun m p => <[v1alpha1.Name p := v1alpha1.Value p]> m)
     (List.filter isAllowed params) additional,
   rejected ++ List.filter disallowed (map v1alpha1.Name params)).
Proof.
  revert additional rejected.
  induction params as [|p rest IH]; intros additional rejected; simpl.
  - now rewrite app_nil_r.
  - unfold isAllowed at 1. destruct (disallowed (v1alpha1.Name p)); simpl.
    + rewrite IH. now rewrite <- app_assoc.
    + now rewrite IH.
Qed.

Lemma fold_insert_lookup_other (l : list v1alpha1.Parameter_)
      (m : gmap string string) (name : string) :
  (forall p, p ∈ l -> v1alpha1.Name p <> name) ->
  fold_left (fun m p => <[v1alpha1.Name p := v1alpha1.Value p]> m) l m !! name =
  m !! name.
Proof.
  revert m. induction l as [|p rest IH]; intros m Hl; simpl; [reflexivity|].
  rewrite IH by (intros q Hq; apply Hl; now right).
  apply lookup_insert_ne. apply Hl. now left.
Qed.

Lemma authorizeParametersCondition_rejected (rejected : list string) :
  rejected <> [] ->
  authorizeParametersCondition rejected =
  falseCondition typeAdditionalAuthorizeParametersValid
    reasonDisallowedParameterName
    ("the following additionalAuthorizeParameters are not allowed: "
     +:+ strings.Join rejected ",").
Proof. destruct rejected; [contradiction|reflexivity]. Qed.

End AuthorizeParameters.

(** ** The OIDC watcher: validation and Sync *)

Section OIDCWatcher.
Import metav1 StateM controllerlib oidcupstreamwatcher.
Variable wall : nat -> Time.
Variable cluster : Cluster.

Lemma keepsCacheSets_ret {A} (a : A) : keepsCacheSets (ret a).
Proof. now intros w. Qed.

Lemma keepsCacheSets_bind {A B} (m : M World A) (k : A -> M World B) :
  keepsCacheSets m -> (forall a, keepsCacheSets (k a)) ->
  keepsCacheSets (bind m k).
Proof.
  intros Hm Hk w. unfold bind. specialize (Hm w).
  destruct (m w) as [a w1]. simpl in Hm. now rewrite Hk.
Qed.

Lemma keepsCacheSets_liftEffects {A} (m : M conditionsutil.Effects A) :
  keepsCacheSets (liftEffects m).
Proof. intros w. unfold liftEffects. now destruct (m (effects w)). Qed.

Lemma keepsCacheSets_logError (err msg : string) (values : list (string * string)) :
  keepsCacheSets (logError err msg values).
Proof. now intros w. Qed.

Lemma keepsCacheSets_getProvider (spec : v1alpha1.OIDCIdentityProviderSpec) :
  keepsCacheSets (getProvider wall spec).
Proof.
  intros w. unfold getProvider, bind, get.
  destruct (validatorCache w !! cacheKey spec) as [entry|]; [|reflexivity].
  unfold liftEffects, conditionsutil.Now. simpl.
  now destruct (_ <? _)%Z.
Qed.

Lemma keepsCacheSets_putProvider (spec : v1alpha1.OIDCIdentityProviderSpec)
      (discovered : upstreamoidc.Provider) (httpClient : upstreamoidc.HTTPClient) :
  keepsCacheSets (putProvider wall spec discovered httpClient).
Proof. now intros w. Qed.

Lemma keepsCacheSets_validateIssuer (upstream : v1alpha1.OIDCIdentityProvider)
      (result : upstreamoidc.ProviderConfig) :
  keepsCacheSets (validateIssuer wall cluster upstream result).
Proof.
  unfold validateIssuer. apply keepsCacheSets_bind.
  - apply keepsCacheSets_getProvider.
  - intros [[discovered httpClient]|]; [apply keepsCacheSets_ret|].
    destruct (getClient cluster upstream) as [httpClient|err];
      [|apply keepsCacheSets_ret].
    destruct (validateHTTPSURL cluster _ _ _) as [parsed [c|]];
      [apply keepsCacheSets_ret|].
    destruct (NewProvider cluster httpClient _) as [discovered|err].
    + apply keepsCacheSets_bind; [apply keepsCacheSets_putProvider|].
      intros _. apply keepsCacheSets_ret.
    + apply keepsCacheSets_bind; [apply keepsCacheSets_logError|].
      intros _. apply keepsCacheSets_ret.
Qed.

Lemma keepsCacheSets_updateStatus (upstream : v1alpha1.OIDCIdentityProvider)
      (conditions : list Condition) :
  keepsCacheSets (updateStatus wall cluster upstream conditions).
Proof.
  unfold updateStatus. apply keepsCacheSets_bind; [apply keepsCacheSets_liftEffects|].
  intros now. apply keepsCacheSets_bind; [apply keepsCacheSets_liftEffects|].
  intros [merged had]. destruct (decide _); [apply keepsCacheSets_ret|].
  unfold clientUpdateStatus. apply keepsCacheSets_bind; [now intros w|].
  intros _. destruct (UpdateStatus cluster _);
    [apply keepsCacheSets_logError | apply keepsCacheSets_ret].
Qed.

Lemma oidc_logFailing_run (upstream : v1alpha1.OIDCIdentityProvider)
      (conditions : list Condition) (valid : bool) (w : World) :
  fst (logFailing upstream conditions valid w) =
    valid && forallb notFalse conditions /\
  cacheSets (snd (logFailing upstream conditions valid w)) = cacheSets w.
Proof.
  revert valid w. induction conditions as [|c rest IH]; intros valid w; simpl.
  - now rewrite andb_true_r.
  - unfold notFalse at 1.
    destruct (decide (Status c = ConditionFalse)) as [Hc|Hc].
    + rewrite (bool_decide_eq_true_2 _ Hc). simpl. unfold bind. simpl.
      destruct (IH false
                  {| effects := effects w; validatorCache := validatorCache w;
                     cacheSets := cacheSets w; statusUpdates := statusUpdates w;
                     errorLog := errorLog w ++
                       [mkErrorLine errOIDCFailureStatus "found failing condition"
                          [("namespace", Namespace (v1alpha1.ObjectMeta upstream));
                           ("name", Name (v1alpha1.ObjectMeta upstream));
                           ("type", Type_ c); ("reason", Reason c);
                           ("message", Message c)]] |}) as [H1 H2].
      rewrite H1, H2. simpl. now rewrite andb_false_r.
    + rewrite (bool_decide_eq_false_2 _ Hc). simpl. apply IH.
Qed.

(** One validation, step by step. *)
Lemma oidc_validateUpstream_run (upstream : v1alpha1.OIDCIdentityProvider) (w : World) :
  let params := v1alpha1.AdditionalAuthorizeParameters
                  (v1alpha1.AuthorizationConfig (v1alpha1.Spec upstream)) in
  let sp := splitAuthorizeParameters params ∅ [] in
  let sec := validateSecret cluster upstream (newResult upstream (fst sp)) in
  let iss := validateIssuer wall cluster upstream (snd sec) w in
  let conditions :=
    [fst sec; fst (fst iss); authorizeParametersCondition (snd sp)] in
  fst (validateUpstream wall cluster upstream w) =
    (if forallb notFalse conditions then Some (snd (fst iss)) else None) /\
  cacheSets (snd (validateUpstream wall cluster upstream w)) = cacheSets w.
Proof.
  cbv zeta. unfold validateUpstream.
  destruct (splitAuthorizeParameters _ ∅ []) as [additional rejected].
  cbn [fst snd].
  destruct (validateSecret cluster upstream (newResult upstream additional))
    as [secretCondition result1].
  cbn [fst snd]. unfold bind.
  pose proof (keepsCacheSets_validateIssuer upstream result1 w) as Hiss.
  destruct (validateIssuer wall cluster upstream result1 w)
    as [[issuerCondition result2] w1].
  cbn [fst snd] in *.
  set (conditions := [secretCondition; issuerCondition;
                      authorizeParametersCondition rejected]).
  pose proof (keepsCacheSets_updateStatus upstream conditions w1) as Hup.
  destruct (updateStatus wall cluster upstream conditions w1) as [[] w2].
  cbn [fst snd] in Hup.
  destruct (oidc_logFailing_run upstream conditions true w2) as [Hv Hlog].
  destruct (logFailing upstream conditions true w2) as [valid w3].
  cbn [fst snd] in *. subst valid. split; [reflexivity|].
  unfold ret. cbn [snd]. congruence.
Qed.

Lemma validateSecret_params (upstream : v1alpha1.OIDCIdentityProvider)
      (result : upstreamoidc.ProviderConfig) :
  upstreamoidc.AdditionalAuthcodeParams (snd (validateSecret cluster upstream result)) =
  upstreamoidc.AdditionalAuthcodeParams result.
Proof.
  unfold validateSecret.
  destruct (GetSecret cluster _ _) as [secret|err]; [|reflexivity].
  destruct (negb _); [reflexivity|].
  destruct (_ || _); reflexivity.
Qed.

Lemma validateDiscovered_params (upstream : v1alpha1.OIDCIdentityProvider)
      (discovered : upstreamoidc.Provider) (httpClient : upstreamoidc.HTTPClient)
      (result : upstreamoidc.ProviderConfig) :
  upstreamoidc.AdditionalAuthcodeParams
    (snd (validateDiscovered cluster upstream discovered httpClient result)) =
  upstreamoidc.AdditionalAuthcodeParams result.
Proof.
  unfold validateDiscovered.
  destruct (upstreamoidc.ProviderClaims discovered) as [revocation|err];
    [|reflexivity].
  destruct (negb (String.eqb revocation "")).
  - destruct (validateHTTPSURL cluster revocation _ _) as [u [c|]]; [reflexivity|].
    destruct (validateHTTPSURL cluster _ "authorization endpoint" _) as [u1 [c1|]];
      [reflexivity|].
    destruct (validateHTTPSURL cluster _ "token endpoint" _) as [u2 [c2|]];
      reflexivity.
  - destruct (validateHTTPSURL cluster _ "authorization endpoint" _) as [u1 [c1|]];
      [reflexivity|].
    destruct (validateHTTPSURL cluster _ "token endpoint" _) as [u2 [c2|]];
      reflexivity.
Qed.

Lemma validateIssuer_params (upstream : v1alpha1.OIDCIdentityProvider)
      (result : upstreamoidc.ProviderConfig) (w : World) :
  upstreamoidc.AdditionalAuthcodeParams
    (snd (fst (validateIssuer wall cluster upstream result w))) =
  upstreamoidc.AdditionalAuthcodeParams result.
Proof.
  unfold validateIssuer, bind.
  destruct (getProvider wall (v1alpha1.Spec upstream) w)
    as [[[discovered httpClient]|] w1].
  - apply validateDiscovered_params.
  - destruct (getClient cluster upstream) as [httpClient|err]; [|reflexivity].
    destruct (validateHTTPSURL cluster _ _ _) as [parsed [c|]]; [reflexivity|].
    destruct (NewProvider cluster httpClient _) as [discovered|err].
    + simpl. apply validateDiscovered_params.
    + reflexivity.
Qed.

Lemma oidc_validateEach_run (upstreams : list v1alpha1.OIDCIdentityProvider)
      (requeue : bool) (validated : list upstreamoidc.ProviderConfig) (w : World) :
  let r := validateEach wall cluster upstreams requeue validated w in
  let vs := validations wall cluster upstreams w in
  fst r = (requeue || existsb isNil vs, validated ++ omap id vs) /\
  cacheSets (snd r) = cacheSets w.
Proof.
  revert requeue validated w.
  induction upstreams as [|u rest IH]; intros requeue validated w; simpl.
  - now rewrite orb_false_r, app_nil_r.
  - unfold bind.
    destruct (oidc_validateUpstream_run u w) as [_ Hcache].
    destruct (validateUpstream wall cluster u w) as [[v|] w1]; simpl in *.
    + destruct (IH requeue (validated ++ [v]) w1) as [H1 H2].
      rewrite H1, H2, Hcache. now rewrite <- app_assoc.
    + destruct (IH true validated w1) as [H1 H2].
      rewrite H1, H2, Hcache. now rewrite orb_true_r.
Qed.

Lemma oidc_Sync_run (upstreams : list v1alpha1.OIDCIdentityProvider) (w : World) :
  List_ cluster = inl upstreams ->
  let vs := validations wall cluster upstreams w in
  fst (Sync wall cluster w) =
    (if existsb isNil vs then Some ErrSyntheticRequeue else None) /\
  cacheSets (snd (Sync wall cluster w)) = cacheSets w ++ [omap id vs].
Proof.
  intros Hlist vs. unfold Sync. rewrite Hlist. unfold bind.
  destruct (oidc_validateEach_run upstreams false [] w) as [H1 H2].
  destruct (validateEach wall cluster upstreams false [] w)
    as [[requeue validated] w1].
  simpl in *. injection H1 as -> ->. fold vs. now rewrite H2.
Qed.

(** C2: when listing succeeds, Sync calls SetOIDCIdentityProviders once, at
    the end of the pass, with the configs of exactly those providers whose
    validation returned a config, in the order listed, whatever happened to
    any provider's status; when listing fails, Sync returns an error and
    changes nothing, the published sets included. *)
Theorem oidc_Sync_publishes_valid_providers (w : World) :
  (forall upstreams, List_ cluster = inl upstreams ->
     cacheSets (snd (Sync wall cluster w)) =
     cacheSets w ++ [omap id (validations wall cluster upstreams w)]) /\
  (forall err, List_ cluster = inr err ->
     fst (Sync wall cluster w) =
       Some (Errorf "failed to list OIDCIdentityProviders" err) /\
     snd (Sync wall cluster w) = w).
Proof.
  split.
  - intros upstreams Hlist. now apply oidc_Sync_run.
  - intros err Hlist. unfold Sync. now rewrite Hlist.
Qed.

Lemma existsb_isNil {A} (vs : list (option A)) :
  existsb isNil vs = true <-> None ∈ vs.
Proof.
  rewrite existsb_exists. split.
  - intros ([v|] & Hin & Hv); [discriminate|]. now apply list_elem_of_In.
  - intros Hin. exists None. split; [now apply list_elem_of_In|reflexivity].
Qed.

Lemma falseCondition_fails (type reason message : string) :
  notFalse (falseCondition type reason message) = false.
Proof. reflexivity. Qed.

Lemma validateHTTPSURL_condition (maybeHTTPSURL endpointType reason : string)
      (parsed : option url.URL) (c : Condition) :
  validateHTTPSURL cluster maybeHTTPSURL endpointType reason = (parsed, Some c) ->
  notFalse c = false.
Proof.
  unfold validateHTTPSURL.
  destruct (url.Parse maybeHTTPSURL) as [u|err].
  - destruct (negb (String.eqb (url.Scheme u) "https")).
    + intros [= _ <-]. reflexivity.
    + destruct (_ || _); intros [= _ <-] || intros [=]. reflexivity.
  - intros [= _ <-]. reflexivity.
Qed.

Lemma validateUpstream_nil_disallowed (upstream : v1alpha1.OIDCIdentityProvider)
      (w0 : World) :
  (exists p, p ∈ v1alpha1.AdditionalAuthorizeParameters
                   (v1alpha1.AuthorizationConfig (v1alpha1.Spec upstream)) /\
             disallowed (v1alpha1.Name p) = true) ->
  fst (validateUpstream wall cluster upstream w0) = None.
Proof.
  intros (p & Hp & Hdis).
  destruct (oidc_validateUpstream_run upstream w0) as [-> _].
  rewrite splitAuthorizeParameters_run. cbn [fst snd app forallb].
  assert (Hne : List.filter disallowed
                  (map v1alpha1.Name
                     (v1alpha1.AdditionalAuthorizeParameters
                        (v1alpha1.AuthorizationConfig (v1alpha1.Spec upstream))))
                <> []).
  { intros Hnil.
    assert (Hin : In (v1alpha1.Name p) []).
    { rewrite <- Hnil. apply filter_In. split; [|exact Hdis].
      apply in_map. now apply list_elem_of_In. }
    exact Hin. }
  rewrite (authorizeParametersCondition_rejected _ Hne).
  rewrite falseCondition_fails. now rewrite !andb_false_r.
Qed.

Lemma validateUpstream_nil_issuer (upstream : v1alpha1.OIDCIdentityProvider)
      (w0 : World) :
  (forall result,
     notFalse (fst (fst (validateIssuer wall cluster upstream result w0))) = false) ->
  fst (validateUpstream wall cluster upstream w0) = None.
Proof.
  intros Hiss.
  destruct (oidc_validateUpstream_run upstream w0) as [-> _].
  cbn [forallb]. rewrite Hiss. now rewrite andb_false_r.
Qed.

Lemma validateIssuer_bad_client (upstream : v1alpha1.OIDCIdentityProvider)
      (result : upstreamoidc.ProviderConfig) (w0 : World) (err : string) :
  fst (getProvider wall (v1alpha1.Spec upstream) w0) = None ->
  getClient cluster upstream = inr err ->
  fst (fst (validateIssuer wall cluster upstream result w0)) =
  falseCondition typeOIDCDiscoverySucceeded ReasonInvalidTLSConfig err.
Proof.
  intros Hmiss Hclient. unfold validateIssuer, bind.
  destruct (getProvider wall (v1alpha1.Spec upstream) w0) as [cached w1].
  simpl in Hmiss. subst cached. now rewrite Hclient.
Qed.

Lemma validateIssuer_bad_issuer (upstream : v1alpha1.OIDCIdentityProvider)
      (result : upstreamoidc.ProviderConfig) (w0 : World)
      (httpClient : upstreamoidc.HTTPClient) (parsed : option url.URL)
      (c : Condition) :
  fst (getProvider wall (v1alpha1.Spec upstream) w0) = None ->
  getClient cluster upstream = inl httpClient ->
  validateHTTPSURL cluster (v1alpha1.Issuer (v1alpha1.Spec upstream))
    "issuer" reasonUnreachable = (parsed, Some c) ->
  fst (fst (validateIssuer wall cluster upstream result w0)) = c.
Proof.
  intros Hmiss Hclient Hurl. unfold validateIssuer, bind.
  destruct (getProvider wall (v1alpha1.Spec upstream) w0) as [cached w1].
  simpl in Hmiss. subst cached. now rewrite Hclient, Hurl.
Qed.

(** C3, as amended: when listing succeeds, Sync returns the synthetic
    requeue exactly when the validation of some listed provider returned
    nil, and nil otherwise; and validation returns nil for a configuration
    error as for any other failing condition: for a disallowed additional
    authorize parameter, and, when the discovery cache has no entry for the
    provider, for CA data that cannot be used and for an issuer URL that
    validateHTTPSURL turns down. *)
Theorem oidc_Sync_requeues_on_any_failure
        (upstreams : list v1alpha1.OIDCIdentityProvider) (w : World) :
  List_ cluster = inl upstreams ->
  (fst (Sync wall cluster w) = Some ErrSyntheticRequeue <->
   None ∈ validations wall cluster upstreams w) /\
  (fst (Sync wall cluster w) = None <->
   None ∉ validations wall cluster upstreams w) /\
  (forall upstream w0,
     (exists p, p ∈ v1alpha1.AdditionalAuthorizeParameters
                      (v1alpha1.AuthorizationConfig (v1alpha1.Spec upstream)) /\
                disallowed (v1alpha1.Name p) = true) ->
     fst (validateUpstream wall cluster upstream w0) = None) /\
  (forall upstream w0 err,
     fst (getProvider wall (v1alpha1.Spec upstream) w0) = None ->
     getClient cluster upstream = inr err ->
     fst (validateUpstream wall cluster upstream w0) = None) /\
  (forall upstream w0 httpClient parsed c,
     fst (getProvider wall (v1alpha1.Spec upstream) w0) = None ->
     getClient cluster upstream = inl httpClient ->
     validateHTTPSURL cluster (v1alpha1.Issuer (v1alpha1.Spec upstream))
       "issuer" reasonUnreachable = (parsed, Some c) ->
     fst (validateUpstream wall cluster upstream w0) = None).
Proof.
  intros Hlist.
  destruct (oidc_Sync_run upstreams w Hlist) as [Hret _].
  split; [|split; [|split; [|split]]].
  - rewrite Hret, <- existsb_isNil.
    destruct (existsb isNil _); split; congruence.
  - rewrite Hret, <- existsb_isNil.
    destruct (existsb isNil _); split; congruence.
  - apply validateUpstream_nil_disallowed.
  - intros upstream w0 err Hmiss Hclient.
    apply validateUpstream_nil_issuer. intros result.
    now rewrite (validateIssuer_bad_client upstream result w0 err).
  - intros upstream w0 httpClient parsed c Hmiss Hclient Hurl.
    apply validateUpstream_nil_issuer. intros result.
    rewrite (validateIssuer_bad_issuer upstream result w0 httpClient parsed c)
      by assumption.
    exact (validateHTTPSURL_condition _ _ _ parsed c Hurl).
Qed.

End OIDCWatcher.

Lemma oidc_Sync_publishes_valid_providers_witness :
  oidcupstreamwatcher.cacheSets
    (snd (oidcupstreamwatcher.Sync examples.tickClock examples.oidcCluster
            examples.oidcWorld)) =
  [] ++ [omap id (oidcupstreamwatcher.validations examples.tickClock
                    examples.oidcCluster [examples.oidcProvider]
                    examples.oidcWorld)].
Proof.
  apply (proj1 (oidc_Sync_publishes_valid_providers examples.tickClock
                  examples.oidcCluster examples.oidcWorld)
               [examples.oidcProvider]).
  reflexivity.
Defined.

Lemma oidc_Sync_requeues_on_any_failure_witness :
  fst (oidcupstreamwatcher.validateUpstream examples.tickClock
         examples.oidcCluster examples.oidcProvider examples.oidcWorld) = None.
Proof.
  apply (proj1 (proj2 (proj2
           (oidc_Sync_requeues_on_any_failure examples.tickClock
              examples.oidcCluster [examples.oidcProvider] examples.oidcWorld
              eq_refl)))).
  exists (v1alpha1.mkParameter "redirect_uri" "evil").
  split; [apply list_elem_of_here | reflexivity].
Defined.

(** C3 as stated fails: a provider whose secret and discovery are in order
    and whose only failing condition is the disallowed parameter
    redirect_uri makes Sync return the synthetic requeue, in a cluster where
    listing, the secret lookup, discovery and the status update all
    succeed. *)
Lemma oidc_Sync_requeues_on_disallowed_parameter :
  let r := oidcupstreamwatcher.Sync examples.tickClock examples.oidcCluster
             examples.oidcWorld in
  fst r = Some controllerlib.ErrSyntheticRequeue /\
  map (fun u => map (fun c => (metav1.Type_ c, metav1.Status c, metav1.Reason c))
                 (v1alpha1.Conditions (v1alpha1.Status u)))
      (oidcupstreamwatcher.statusUpdates (snd r)) =
  [[("AdditionalAuthorizeParametersValid", metav1.ConditionFalse,
     "DisallowedParameterName");
    ("ClientCredentialsSecretValid", metav1.ConditionTrue, "Success");
    ("OIDCDiscoverySucceeded", metav1.ConditionTrue, "Success")]].
Proof. split; now vm_compute. Qed.

(** ** The OIDC watcher: https URLs *)

Section HTTPSURL.
Import metav1 oidcupstreamwatcher.
Variable cluster : Cluster.

Lemma validateHTTPSURL_wrong_scheme (maybeHTTPSURL endpointType reason : string)
      (u : url.URL) :
  url.Parse maybeHTTPSURL = inl u -> url.Scheme u <> "https" ->
  validateHTTPSURL cluster maybeHTTPSURL endpointType reason =
  (None,
   Some (falseCondition typeOIDCDiscoverySucceeded reason
           (endpointType +:+ " URL '" +:+ maybeHTTPSURL +:+ "' must have "
            +:+ strconv.Quote "https" +:+ " scheme, not "
            +:+ strconv.Quote (url.Scheme u)))).
Proof.
  intros Hparse Hscheme. unfold validateHTTPSURL. rewrite Hparse.
  apply String.eqb_neq in Hscheme. now rewrite Hscheme.
Qed.

Lemma validateHTTPSURL_query_or_fragment
      (maybeHTTPSURL endpointType reason : string) (u : url.URL) :
  url.Parse maybeHTTPSURL = inl u -> url.Scheme u = "https" ->
  url.Query u <> ∅ \/ url.Fragment u <> "" ->
  validateHTTPSURL cluster maybeHTTPSURL endpointType reason =
  (None,
   Some (falseCondition typeOIDCDiscoverySucceeded reason
           (endpointType +:+ " URL '" +:+ maybeHTTPSURL
            +:+ "' cannot contain query or fragment component"))).
Proof.
  intros Hparse Hscheme Hqf. unfold validateHTTPSURL. rewrite Hparse.
  apply String.eqb_eq in Hscheme. rewrite Hscheme. simpl.
  assert (Hor : negb (Nat.eqb (size (url.Query u)) 0)
                || negb (String.eqb (url.Fragment u) "") = true).
  { destruct Hqf as [Hq|Hf].
    - destruct (Nat.eqb (size (url.Query u)) 0) eqn:Hsize; [|reflexivity].
      apply Nat.eqb_eq, map_size_empty_iff in Hsize. contradiction.
    - apply String.eqb_neq in Hf. rewrite Hf. apply orb_true_r. }
  now rewrite Hor.
Qed.

Lemma validateHTTPSURL_accepted (maybeHTTPSURL endpointType reason : string)
      (u : url.URL) :
  url.Parse maybeHTTPSURL = inl u -> url.Scheme u = "https" ->
  url.Query u = ∅ -> url.Fragment u = "" ->
  validateHTTPSURL cluster maybeHTTPSURL endpointType reason = (Some u, None).
Proof.
  intros Hparse Hscheme Hq Hf. unfold validateHTTPSURL. rewrite Hparse.
  apply String.eqb_eq in Hscheme. rewrite Hscheme, Hq, Hf. reflexivity.
Qed.

End HTTPSURL.

(** C7: validateHTTPSURL at https URLs that carry a query string.
    "https://example.com?x=1" is turned down with the message that the URL
    cannot contain a query or fragment component. "https://example.com?&"
    and "https://example.com?a;b", whose query strings are "&" and "a;b",
    are returned with no condition: the guard counts the parameters that
    Query() keeps, and Query() drops empty and malformed pairs. *)
Theorem validateHTTPSURL_accepts_query_without_parameters :
  oidcupstreamwatcher.validateHTTPSURL examples.oidcCluster
    "https://example.com?x=1" "authorization endpoint" "InvalidResponse" =
    (None,
     Some (oidcupstreamwatcher.falseCondition "OIDCDiscoverySucceeded"
             "InvalidResponse"
             "authorization endpoint URL 'https://example.com?x=1' cannot contain query or fragment component")) /\
  (exists u,
     oidcupstreamwatcher.validateHTTPSURL examples.oidcCluster
       "https://example.com?&" "authorization endpoint" "InvalidResponse" =
     (Some u, None) /\ url.RawQuery u = "&") /\
  (exists u,
     oidcupstreamwatcher.validateHTTPSURL examples.oidcCluster
       "https://example.com?a;b" "authorization endpoint" "InvalidResponse" =
     (Some u, None) /\ url.RawQuery u = "a;b").
Proof.
  split; [now vm_compute|]. split; eexists; split; now vm_compute.
Qed.

(** * Further properties of the condition merge *)

Section MergeExtras.
Import metav1 conditionsutil StateM.


(** X1: mergeIDPCondition reports a change exactly when it changed the slice. *)
Theorem mergeIDPCondition_changed_iff_differs
        (existing : list Condition) (new : Condition) :
  snd (mergeIDPCondition existing new) = false <->
  fst (mergeIDPCondition existing new) = existing.
Proof.
  destruct (split_at_last (Type_ new) existing)
    as [H|(l1 & old & l2 & -> & Hold & Hl2)].
  - rewrite mergeIDPCondition_absent by exact H. simpl.
    split; [discriminate|]. intros Heq.
    apply (f_equal length) in Heq. rewrite length_app in Heq. simpl in Heq. lia.
  - rewrite mergeIDPCondition_present by assumption. simpl.
    destruct (decide (old = _)) as [Heq|Hneq]; simpl; [tauto|].
    split; [discriminate|]. intros Heq.
    apply app_inv_head in Heq. injection Heq as Heq. congruence.
Qed.

(** X2: a merge never drops or moves an entry: the slice keeps its length or
    grows by one, and when it grows the new last entry is the incoming
    condition; an entry of another Type stays where it is, and an entry of
    the merged Type stays or is replaced, in its place, by the incoming
    condition, which carries the transition time of the entry it replaces
    when the Status is the same and its own transition time otherwise. *)
Theorem mergeIDPCondition_keeps_the_others
        (existing : list Condition) (new : Condition) :
  let merged := fst (mergeIDPCondition existing new) in
  length existing <= length merged <= S (length existing) /\
  (length merged = S (length existing) -> merged = existing ++ [new]) /\
  (forall j x, existing !! j = Some x ->
     merged !! j = Some x \/
     (Type_ x = Type_ new /\
      merged !! j =
        Some (if decide (Status x = Status new)
              then withLastTransitionTime (LastTransitionTime x) new
              else new))).
Proof.
  cbv zeta.
  destruct (split_at_last (Type_ new) existing)
    as [H|(l1 & old & l2 & -> & Hold & Hl2)].
  - rewrite mergeIDPCondition_absent by exact H. simpl.
    rewrite length_app. simpl. split; [lia|]. split; [reflexivity|].
    intros j x Hj. left. now apply lookup_app_l_Some.
  - rewrite mergeIDPCondition_present by assumption. simpl.
    destruct (decide (old = _)) as [Heq|Hneq]; simpl.
    + split; [lia|]. split; [lia|]. intros j x Hj. now left.
    + rewrite !length_app. simpl. split; [lia|]. split; [lia|].
      intros j x Hj.
      destruct (decide (j = length l1)) as [->|Hne].
      * right. rewrite list_lookup_middle in Hj by reflexivity.
        injection Hj as <-. split; [exact Hold|].
        now rewrite list_lookup_middle by reflexivity.
      * left. rewrite <- Hj.
        destruct (decide (j < length l1)) as [Hlt|Hge].
        -- now rewrite !lookup_app_l by exact Hlt.
        -- rewrite !lookup_app_r by lia.
           destruct (j - length l1) as [|k] eqn:Hk; [lia|reflexivity].
Qed.

Lemma mergeIDPCondition_keeps_the_others_witness :
  fst (mergeIDPCondition [examples.storedReady]
         (examples.cond "Ready" ConditionFalse)) !! 0 = Some examples.storedReady \/
  (Type_ examples.storedReady = Type_ (examples.cond "Ready" ConditionFalse) /\
   fst (mergeIDPCondition [examples.storedReady]
          (examples.cond "Ready" ConditionFalse)) !! 0 =
   Some (if decide (Status examples.storedReady =
                    Status (examples.cond "Ready" ConditionFalse))
         then withLastTransitionTime (LastTransitionTime examples.storedReady)
                (examples.cond "Ready" ConditionFalse)
         else examples.cond "Ready" ConditionFalse)).
Proof.
  apply (proj2 (proj2 (mergeIDPCondition_keeps_the_others [examples.storedReady]
                         (examples.cond "Ready" ConditionFalse)))).
  reflexivity.
Defined.

Lemma addType_NoDup (tys : list string) (ty : string) :
  NoDup tys -> NoDup (addType tys ty).
Proof.
  intros Hnd. unfold addType. case_bool_decide as Hin; [exact Hnd|].
  apply NoDup_app. repeat split; [exact Hnd| |apply NoDup_singleton].
  intros x Hx Hx'. apply list_elem_of_singleton in Hx'. now subst.
Qed.

Lemma addType_elem (tys : list string) (ty x : string) :
  x ∈ addType tys ty <-> x ∈ tys \/ x = ty.
Proof.
  unfold addType. case_bool_decide as Hin.
  - split; [tauto|]. intros [H| ->]; assumption.
  - now rewrite elem_of_app, list_elem_of_singleton.
Qed.

Lemma fold_addType_NoDup (ts tys : list string) :
  NoDup tys -> NoDup (fold_left addType ts tys).
Proof.
  revert tys. induction ts as [|t ts IH]; intros tys Hnd; simpl; [exact Hnd|].
  now apply IH, addType_NoDup.
Qed.

Lemma fold_addType_elem (ts tys : list string) (x : string) :
  x ∈ fold_left addType ts tys <-> x ∈ tys \/ x ∈ ts.
Proof.
  revert tys. induction ts as [|t ts IH]; intros tys; simpl.
  - rewrite elem_of_nil. tauto.
  - rewrite IH, addType_elem, elem_of_cons. tauto.
Qed.

Lemma MergeIDPConditions_types (wall : nat -> Time) (conds : list Condition)
      (og : Z) (existing : list Condition) (s : Effects) :
  map Type_ (fst (fst (MergeIDPConditions wall conds og existing s))) ≡ₚ
  fold_left addType (map Type_ conds) (map Type_ existing).
Proof.
  rewrite MergeIDPConditions_unfold. simpl.
  rewrite <- mergeEach_types with (wall := wall) (og := og) (had := false) (s := s).
  apply Permutation_map, SliceStable_Permutation.
Qed.

(** X3: MergeIDPConditions keeps the Types of a condition set unique: a stored
    set in which no Type occurs twice is left as such a set, whatever the
    incoming conditions are, repeated Types among them included. *)
Theorem MergeIDPConditions_keeps_Types_unique
        (wall : nat -> Time) (conds : list Condition) (og : Z)
        (existing : list Condition) (s : Effects) :
  NoDup (map Type_ existing) ->
  NoDup (map Type_ (fst (fst (MergeIDPConditions wall conds og existing s)))).
Proof.
  intros Hnd. rewrite MergeIDPConditions_types. now apply fold_addType_NoDup.
Qed.

Lemma MergeIDPConditions_keeps_Types_unique_witness :
  NoDup (map Type_
           (fst (fst (MergeIDPConditions examples.tickClock
                        examples.sameTypeTwice 1%Z [examples.storedReady]
                        examples.start)))).
Proof.
  apply (MergeIDPConditions_keeps_Types_unique examples.tickClock
           examples.sameTypeTwice 1%Z [examples.storedReady] examples.start).
  simpl. apply NoDup_singleton.
Defined.

(** X4: The Types in the set that MergeIDPConditions leaves are the stored Types
    and the incoming Types, no other and none missing; the slice grows by at
    most the number of incoming conditions and never shrinks. *)
Theorem MergeIDPConditions_Types_are_stored_and_incoming
        (wall : nat -> Time) (conds : list Condition) (og : Z)
        (existing : list Condition) (s : Effects) (ty : string) :
  let result := fst (fst (MergeIDPConditions wall conds og existing s)) in
  (ty ∈ map Type_ result <-> ty ∈ map Type_ existing \/ ty ∈ map Type_ conds) /\
  length existing <= length result <= length existing + length conds.
Proof.
  cbv zeta. split.
  - rewrite MergeIDPConditions_types. apply fold_addType_elem.
  - rewrite <- (length_map Type_ (fst _)), MergeIDPConditions_types.
    rewrite <- (length_map Type_ existing), <- (length_map Type_ conds).
    generalize (map Type_ existing) as tys. generalize (map Type_ conds) as ts.
    induction ts as [|t ts IH]; intros tys; simpl; [lia|].
    specialize (IH (addType tys t)). unfold addType in *.
    case_bool_decide; [lia|]. rewrite length_app in IH. simpl in IH. lia.
Qed.

Lemma mergeIDPCondition_lastOf_time (l : list Condition) (new : Condition) :
  exists t,
    lastOf (Type_ new) (fst (mergeIDPCondition l new)) =
      Some (withLastTransitionTime t new) /\
    (t = LastTransitionTime new \/
     exists old, lastOf (Type_ new) l = Some old /\
                 Status old = Status new /\ t = LastTransitionTime old).
Proof.
  destruct (split_at_last (Type_ new) l) as [H|(l1 & old & l2 & -> & Hold & Hl2)].
  - rewrite mergeIDPCondition_absent by exact H. simpl.
    exists (LastTransitionTime new). rewrite withLastTransitionTime_same.
    split; [now apply (lastOf_split _ l [])|now left].
  - rewrite mergeIDPCondition_present by assumption. simpl.
    pose proof (lastOf_split (Type_ new) l1 l2 old Hold Hl2) as Hlast.
    destruct (decide (Status old = Status new)) as [Hst|Hst].
    + exists (LastTransitionTime old). split.
      * destruct (decide (old = _)) as [Heq|Hneq]; simpl.
        -- rewrite Hlast. now f_equal.
        -- now apply lastOf_split.
      * right. exists old. auto.
    + exists (LastTransitionTime new). rewrite withLastTransitionTime_same.
      split; [|now left].
      destruct (decide (old = new)) as [Heq|Hneq]; simpl.
      * rewrite Hlast. now f_equal.
      * now apply lastOf_split.
Qed.

Lemma lastOf_elem (ty : string) (l : list Condition) (x : Condition) :
  lastOf ty l = Some x -> x ∈ l /\ Type_ x = ty.
Proof.
  intros (l1 & l2 & -> & Hty & _)%lastOf_Some_split. split; [|exact Hty].
  apply elem_of_app. right. now left.
Qed.

Lemma mergeEach_lastOf_time (wall : nat -> Time) (conds : list Condition) (og : Z)
      (l : list Condition) (had : bool) (s : Effects) :
  NoDup (map Type_ conds) ->
  forall c, c ∈ conds ->
  exists t,
    lastOf (Type_ c) (fst (fst (mergeEach wall conds og l had s))) =
      Some (stamped t og c) /\
    ((exists i, i < length conds /\ t = wall (ticks s + i)) \/
     (exists old, lastOf (Type_ c) l = Some old /\
                  Status old = Status c /\ t = LastTransitionTime old)).
Proof.
  revert l had s. induction conds as [|c0 rest IH]; intros l had s Hnd c Hc.
  - now apply elem_of_nil in Hc.
  - simpl in Hnd. apply NoDup_cons in Hnd as [Hc0 Hnd].
    rewrite mergeEach_cons. simpl.
    apply elem_of_cons in Hc as [->|Hc].
    + unfold lastOf at 1. rewrite mergeEach_filter_other by exact Hc0.
      destruct (mergeIDPCondition_lastOf_time l (stamped (wall (ticks s)) og c0))
        as (t & Ht & Hfrom).
      exists t. split; [exact Ht|].
      destruct Hfrom as [->|(old & Hold & Hst & ->)].
      * left. exists 0. split; [lia|]. simpl. now rewrite Nat.add_0_r.
      * right. exists old. auto.
    + destruct (IH (fst (mergeIDPCondition l (stamped (wall (ticks s)) og c0)))
                  (if decide (Status c0 = ConditionFalse) then true else had)
                  {| ticks := S (ticks s);
                     logged :=
                       if snd (mergeIDPCondition l (stamped (wall (ticks s)) og c0))
                       then logged s ++
                            [mkLogEntry (Type_ c0) (Status c0) (Reason c0) (Message c0)]
                       else logged s |} Hnd c Hc) as (t & Ht & Hfrom).
      exists t. split; [exact Ht|].
      destruct Hfrom as [(i & Hi & ->)|(old & Hold & Hst & ->)].
      * left. exists (S i). split; [lia|]. simpl. f_equal. lia.
      * right. exists old. split; [|auto].
        unfold lastOf in *. rewrite <- Hold. f_equal. symmetry.
        apply (mergeIDPCondition_filter_other (Type_ c) l
                 (stamped (wall (ticks s)) og c0)).
        simpl. intros Heq. apply Hc0. rewrite Heq.
        now apply list_elem_of_fmap_2.
Qed.

(** X5: When no two incoming conditions share a Type, the set that
    MergeIDPConditions leaves holds every incoming condition: its Type,
    Status, Reason and Message with the observed generation of the call, and
    as transition time a time read during the call or the one of a stored
    condition of the same Type and Status. *)
Theorem MergeIDPConditions_holds_every_incoming
        (wall : nat -> Time) (conds : list Condition) (og : Z)
        (existing : list Condition) (s : Effects) (c : Condition) :
  NoDup (map Type_ conds) -> c ∈ conds ->
  exists t,
    stamped t og c ∈ fst (fst (MergeIDPConditions wall conds og existing s)) /\
    ((exists i, i < length conds /\ t = wall (ticks s + i)) \/
     (exists old, old ∈ existing /\ Type_ old = Type_ c /\
                  Status old = Status c /\ t = LastTransitionTime old)).
Proof.
  intros Hnd Hc.
  destruct (mergeEach_lastOf_time wall conds og existing false s Hnd c Hc)
    as (t & Ht & Hfrom).
  exists t. split.
  - rewrite MergeIDPConditions_unfold. simpl. rewrite SliceStable_Permutation.
    now apply lastOf_elem in Ht.
  - destruct Hfrom as [Hclock|(old & Hold & Hst & ->)]; [now left|].
    right. exists old. apply lastOf_elem in Hold as [Hin Hty]. auto.
Qed.

Lemma MergeIDPConditions_holds_every_incoming_witness :
  exists t,
    stamped t 1%Z (examples.cond "Ready" ConditionTrue) ∈
      fst (fst (MergeIDPConditions examples.tickClock
                  [examples.cond "Ready" ConditionTrue] 1%Z
                  [examples.storedReady] examples.start)) /\
    ((exists i, i < 1 /\ t = examples.tickClock (0 + i)) \/
     (exists old, old ∈ [examples.storedReady] /\
                  Type_ old = "Ready" /\
                  Status old = ConditionTrue /\ t = LastTransitionTime old)).
Proof.
  apply (MergeIDPConditions_holds_every_incoming examples.tickClock
           [examples.cond "Ready" ConditionTrue] 1%Z [examples.storedReady]
           examples.start (examples.cond "Ready" ConditionTrue)).
  - simpl. apply NoDup_singleton.
  - apply list_elem_of_here.
Defined.



Lemma findOldConfig_findOld (existing : list Condition) (ty : string)
      (i : nat) (old : option nat) :
  findOldConfig existing ty i old = findOld existing ty i old.
Proof.
  revert i old. induction existing as [|c rest IH]; intros i old; simpl;
    [reflexivity|apply IH].
Qed.

Lemma mergeConfigCondition_mergeIDPCondition
      (existing : list Condition) (new : Condition) :
  mergeConfigCondition existing new = mergeIDPCondition existing new.
Proof.
  unfold mergeConfigCondition, mergeIDPCondition.
  now rewrite findOldConfig_findOld.
Qed.

Lemma mergeEachConfig_mergeEach (wall : nat -> Time) (conds : list Condition)
      (og : Z) (l : list Condition) (had : bool) (s : Effects) :
  mergeEachConfig wall conds og l had s = mergeEach wall conds og l had s.
Proof.
  revert l had s. induction conds as [|c rest IH]; intros l had s;
    [reflexivity|].
  cbn [mergeEachConfig mergeEach]. unfold bind, Now.
  rewrite mergeConfigCondition_mergeIDPCondition.
  destruct (mergeIDPCondition l _) as [u changed].
  destruct changed; cbn [when logInfo modify ret]; apply IH.
Qed.

(** X7: MergeConfigConditions does for the conditions of the config API group
    what MergeIDPConditions does: on the same inputs it leaves the same
    slice, returns the same flag and has the same effects; so its result is
    sorted by Type and it returns true exactly when an incoming condition
    has Status False. *)
Theorem MergeConfigConditions_as_MergeIDPConditions
        (wall : nat -> Time) (conds : list Condition) (og : Z)
        (existing : list Condition) (s : Effects) :
  MergeConfigConditions wall conds og existing s =
    MergeIDPConditions wall conds og existing s /\
  StronglySorted byType
    (fst (fst (MergeConfigConditions wall conds og existing s))) /\
  snd (fst (MergeConfigConditions wall conds og existing s)) =
    existsb isFalse conds.
Proof.
  assert (Heq : MergeConfigConditions wall conds og existing s =
                MergeIDPConditions wall conds og existing s).
  { unfold MergeConfigConditions, MergeIDPConditions, bind.
    now rewrite mergeEachConfig_mergeEach. }
  rewrite Heq. split; [reflexivity|].
  rewrite MergeIDPConditions_unfold. cbn [fst snd].
  split; [apply SliceStable_byType|].
  now rewrite mergeEach_hadErrorCondition.
Qed.

End MergeExtras.

(** * Further properties of the GitHub watcher *)

Section GitHubExtras.
Import metav1 conditionsutil StateM controllerlib githubupstreamwatcher.
Variable wall : nat -> Time.
Variable cluster : Cluster.

(** When the lister fails, Sync of the GitHub watcher returns the lister's
    error wrapped in "failed to list GitHubIdentityProviders" and does
    nothing else: no provider is validated, no status is written and the
    published set is not replaced. *)
Theorem github_Sync_list_failure (err : string) (w : World) :
  List_ cluster = inr err ->
  Sync wall cluster w =
  (Some (Errorf "failed to list GitHubIdentityProviders" err), w).
Proof. intros Hlist. unfold Sync. now rewrite Hlist. Qed.

Lemma readied_unchanged_iff (u : GitHubIdentityProvider) :
  u = readied u <->
  Phase (Status u) = GitHubPhaseReady /\
  StronglySorted byType (Conditions (Status u)).
Proof.
  split.
  - intros Heq. split.
    + now rewrite Heq.
    + rewrite Heq. simpl. apply SliceStable_byType.
  - intros [Hphase Hsorted]. destruct u as [n ns g [ph cs]].
    simpl in *. subst ph. unfold readied, updatedWith. simpl.
    now rewrite SliceStable_byType_id.
Qed.

Lemma readied_readied (u : GitHubIdentityProvider) :
  readied (readied u) = readied u.
Proof.
  symmetry. apply readied_unchanged_iff. split; [reflexivity|].
  simpl. apply SliceStable_byType.
Qed.

Lemma github_validateEach_errors (upstreams : list GitHubIdentityProvider)
      (requeue : bool) (validated : list ProviderConfig) (w : World) :
  updateErrors (snd (validateEach wall cluster upstreams requeue validated w)) =
  updateErrors w ++
  omap (UpdateStatus cluster)
    (map readied (List.filter (fun u => bool_decide (u <> readied u)) upstreams)).
Proof.
  revert requeue validated w.
  induction upstreams as [|u rest IH]; intros requeue validated w; simpl.
  - now rewrite app_nil_r.
  - unfold bind. rewrite github_validateUpstream_run. rewrite IH.
    destruct (decide (u = readied u)) as [Heq|Hneq].
    + now rewrite bool_decide_eq_false_2 by tauto.
    + rewrite bool_decide_eq_true_2 by exact Hneq. simpl.
      destruct (UpdateStatus cluster (readied u)); simpl;
        [now rewrite <- app_assoc | reflexivity].
Qed.

(** X8: The GitHub watcher writes a status only when it has to: validating a
    provider sends no UpdateStatus request exactly when the provider's Phase
    is Ready already and its stored conditions are sorted by Type; otherwise
    it sends one request, for the provider with Phase Ready and the stored
    conditions sorted. *)
Theorem github_status_written_only_when_needed
        (u : GitHubIdentityProvider) (w : World) :
  let sent := statusUpdates (snd (validateUpstream wall cluster u w)) in
  (sent = statusUpdates w <->
   Phase (Status u) = GitHubPhaseReady /\
   StronglySorted byType (Conditions (Status u))) /\
  (sent = statusUpdates w \/ sent = statusUpdates w ++ [readied u]).
Proof.
  cbv zeta. rewrite github_validateUpstream_run. rewrite <- readied_unchanged_iff.
  destruct (decide (u = readied u)) as [Heq|Hneq]; cbn [snd statusUpdates].
  - split; [tauto|now left].
  - split; [|now right]. split; [|contradiction].
    intros Hsame. apply (f_equal length) in Hsame.
    rewrite length_app in Hsame. simpl in Hsame. lia.
Qed.

(** X9: A request that the API server turns down is logged and nothing more:
    the errors logged in a pass are the answers to the requests sent, in
    order, and Sync still returns nil and publishes every listed
    provider. *)
Theorem github_Sync_update_errors_only_logged
        (upstreams : list GitHubIdentityProvider) (w : World) :
  List_ cluster = inl upstreams ->
  let r := Sync wall cluster w in
  exists sent,
    statusUpdates (snd r) = statusUpdates w ++ sent /\
    updateErrors (snd r) = updateErrors w ++ omap (UpdateStatus cluster) sent /\
    fst r = None /\
    last (cacheSets (snd r)) =
      Some (map (fun u => {| configName := Name u |}) upstreams).
Proof.
  intros Hlist. cbv zeta. unfold Sync. rewrite Hlist. unfold bind.
  pose proof (github_validateEach_errors upstreams false [] w) as Herr.
  destruct (github_validateEach_run wall cluster upstreams false [] w)
    as (H1 & H2 & H3 & H4).
  destruct (validateEach wall cluster upstreams false [] w)
    as [[requeue validated] w1].
  cbn [fst snd] in *. injection H1 as -> ->.
  eexists. split; [exact H4|]. split; [exact Herr|]. split; [reflexivity|].
  cbn. now rewrite last_snoc.
Qed.

(** X10: The status writes of the GitHub watcher come to rest: once the listed
    providers are as the requests of a pass made them, the next pass sends
    no request and logs no error, whatever the API server would answer. *)
Theorem github_Sync_comes_to_rest
        (upstreams : list GitHubIdentityProvider) (w : World) :
  List_ cluster = inl (map readied upstreams) ->
  statusUpdates (snd (Sync wall cluster w)) = statusUpdates w /\
  updateErrors (snd (Sync wall cluster w)) = updateErrors w.
Proof.
  intros Hlist. unfold Sync. rewrite Hlist. unfold bind.
  pose proof (github_validateEach_errors (map readied upstreams) false [] w) as Herr.
  destruct (github_validateEach_run wall cluster (map readied upstreams) false [] w)
    as (_ & _ & _ & Hsent).
  destruct (validateEach wall cluster (map readied upstreams) false [] w)
    as [[requeue validated] w1].
  cbn [fst snd] in *.
  assert (Hnone : List.filter (fun u => bool_decide (u <> readied u))
                    (map readied upstreams) = []).
  { apply filter_none. intros z Hz. apply in_map_iff in Hz as (u & <- & _).
    apply bool_decide_eq_false_2. intros Hne. apply Hne.
    symmetry. apply readied_readied. }
  rewrite Hnone in Hsent, Herr. simpl in *.
  rewrite app_nil_r in Hsent, Herr. auto.
Qed.

End GitHubExtras.

Lemma github_Sync_list_failure_witness :
  githubupstreamwatcher.Sync examples.tickClock examples.ghUnlistable
    examples.ghWorld =
  (Some (controllerlib.Errorf "failed to list GitHubIdentityProviders"
           "informer cache not synced"),
   examples.ghWorld).
Proof.
  apply (github_Sync_list_failure examples.tickClock examples.ghUnlistable).
  reflexivity.
Defined.

Lemma github_Sync_update_errors_only_logged_witness :
  exists sent,
    githubupstreamwatcher.statusUpdates
      (snd (githubupstreamwatcher.Sync examples.tickClock examples.ghConflicting
              examples.ghWorld)) = [] ++ sent /\
    githubupstreamwatcher.updateErrors
      (snd (githubupstreamwatcher.Sync examples.tickClock examples.ghConflicting
              examples.ghWorld)) =
      [] ++ omap (githubupstreamwatcher.UpdateStatus examples.ghConflicting) sent /\
    fst (githubupstreamwatcher.Sync examples.tickClock examples.ghConflicting
           examples.ghWorld) = None /\
    last (githubupstreamwatcher.cacheSets
            (snd (githubupstreamwatcher.Sync examples.tickClock
                    examples.ghConflicting examples.ghWorld))) =
      Some (map (fun u => {| githubupstreamwatcher.configName :=
                               githubupstreamwatcher.Name u |})
              [examples.ghProvider]).
Proof.
  apply (github_Sync_update_errors_only_logged examples.tickClock
           examples.ghConflicting [examples.ghProvider] examples.ghWorld).
  reflexivity.
Defined.

Lemma github_Sync_comes_to_rest_witness :
  githubupstreamwatcher.statusUpdates
    (snd (githubupstreamwatcher.Sync examples.tickClock examples.ghSettled
            examples.ghWorld)) = [] /\
  githubupstreamwatcher.updateErrors
    (snd (githubupstreamwatcher.Sync examples.tickClock examples.ghSettled
            examples.ghWorld)) = [].
Proof.
  apply (github_Sync_comes_to_rest examples.tickClock examples.ghSettled
           [examples.ghProvider] examples.ghWorld).
  reflexivity.
Defined.

(** * Further properties of the OIDC watcher *)

Section OIDCExtras.
Variable wall : nat -> metav1.Time.
Variable cluster : oidcupstreamwatcher.Cluster.
Import metav1 conditionsutil StateM controllerlib oidcupstreamwatcher.

(** X11: computeScopes looks at the requested scopes as a set: two requests that
    name the same scopes, in whatever order and however often, are asked for
    the same scopes, and openid is always among them. *)
Theorem computeScopes_ignores_order_and_repetition
        (additionalScopes additionalScopes' : list string) :
  (forall s, s ∈ additionalScopes <-> s ∈ additionalScopes') ->
  computeScopes additionalScopes = computeScopes additionalScopes' /\
  "openid" ∈ computeScopes additionalScopes.
Proof.
  intros Hsame. split.
  - unfold computeScopes.
    destruct additionalScopes as [|a l], additionalScopes' as [|a' l'];
      cbn [length Nat.eqb].
    + reflexivity.
    + exfalso. apply (not_elem_of_nil a'), Hsame. left.
    + exfalso. apply (not_elem_of_nil a), Hsame. left.
    + f_equal. apply set_eq. intros s. rewrite !fold_Insert_elem.
      rewrite (Hsame s). reflexivity.
  - unfold computeScopes. destruct additionalScopes as [|a l]; cbn [length Nat.eqb].
    + left.
    + apply List_elem, fold_Insert_elem. right.
      unfold sets.Insert, ScopeOpenID. set_solver.
Qed.

Lemma fold_insert_last (l : list v1alpha1.Parameter_) (m : gmap string string)
      (name : string) :
  fold_left (fun m p => <[v1alpha1.Name p := v1alpha1.Value p]> m) l m !! name =
  match last (map v1alpha1.Value
                (List.filter (fun p => String.eqb (v1alpha1.Name p) name) l)) with
  | Some v => Some v
  | None => m !! name
  end.
Proof.
  revert m. induction l as [|p rest IH]; intros m; cbn [fold_left List.filter map].
  - reflexivity.
  - rewrite IH. destruct (String.eqb (v1alpha1.Name p) name) eqn:Hname.
    + apply String.eqb_eq in Hname. cbn [map]. rewrite last_cons.
      destruct (last _); [reflexivity|]. rewrite Hname. apply lookup_insert_eq.
    + apply String.eqb_neq in Hname. destruct (last _); [reflexivity|].
      now apply lookup_insert_ne.
Qed.

Lemma filter_name_isAllowed (l : list v1alpha1.Parameter_) (name : string) :
  disallowed name = false ->
  List.filter (fun p => String.eqb (v1alpha1.Name p) name) (List.filter isAllowed l) =
  List.filter (fun p => String.eqb (v1alpha1.Name p) name) l.
Proof.
  intros Hname. induction l as [|p rest IH]; cbn [List.filter]; [reflexivity|].
  unfold isAllowed at 1.
  destruct (String.eqb (v1alpha1.Name p) name) eqn:Hp.
  - apply String.eqb_eq in Hp. rewrite Hp, Hname. cbn [negb List.filter].
    apply String.eqb_eq in Hp. rewrite Hp. now rewrite IH.
  - destruct (disallowed (v1alpha1.Name p)); cbn [negb List.filter];
      [exact IH|]. rewrite Hp. exact IH.
Qed.

Lemma validateUpstream_passes (upstream : v1alpha1.OIDCIdentityProvider) (w : World) :
  let params := v1alpha1.AdditionalAuthorizeParameters
                  (v1alpha1.AuthorizationConfig (v1alpha1.Spec upstream)) in
  let additional := fst (splitAuthorizeParameters params ∅ []) in
  let sec := validateSecret cluster upstream (newResult upstream additional) in
  let iss := validateIssuer wall cluster upstream (snd sec) w in
  List.filter disallowed (map v1alpha1.Name params) = [] ->
  Status (fst sec) <> ConditionFalse ->
  Status (fst (fst iss)) <> ConditionFalse ->
  fst (validateUpstream wall cluster upstream w) = Some (snd (fst iss)).
Proof.
  cbv zeta. intros Hnone Hsecret Hissuer.
  destruct (oidc_validateUpstream_run wall cluster upstream w) as [-> _].
  cbn [forallb]. unfold notFalse at 1 2.
  rewrite !bool_decide_eq_false_2 by assumption. cbn [negb andb].
  rewrite splitAuthorizeParameters_run. cbn [snd app]. now rewrite Hnone.
Qed.

Lemma validateUpstream_params (upstream : v1alpha1.OIDCIdentityProvider) (w : World)
      (config : upstreamoidc.ProviderConfig) :
  let params := v1alpha1.AdditionalAuthorizeParameters
                  (v1alpha1.AuthorizationConfig (v1alpha1.Spec upstream)) in
  fst (validateUpstream wall cluster upstream w) = Some config ->
  upstreamoidc.AdditionalAuthcodeParams config =
    fst (splitAuthorizeParameters params ∅ []) /\
  List.filter disallowed (map v1alpha1.Name params) = [].
Proof.
  cbv zeta. intros Hvalid.
  destruct (oidc_validateUpstream_run wall cluster upstream w) as [Hrun _].
  cbv zeta in Hrun. rewrite Hvalid in Hrun.
  destruct (forallb notFalse _) eqn:Hall; [|discriminate].
  injection Hrun as ->. split.
  - now rewrite validateIssuer_params, validateSecret_params.
  - cbn [forallb] in Hall. apply andb_prop in Hall as [_ Hall].
    apply andb_prop in Hall as [_ Hall]. apply andb_prop in Hall as [Hall _].
    rewrite splitAuthorizeParameters_run in Hall. cbn [snd app] in Hall.
    destruct (List.filter disallowed _); [reflexivity|discriminate].
Qed.

Lemma filter_disallowed_nil (params : list v1alpha1.Parameter_) :
  List.filter disallowed (map v1alpha1.Name params) = [] <->
  forall p, p ∈ params -> disallowed (v1alpha1.Name p) = false.
Proof.
  induction params as [|p rest IH]; cbn [map List.filter].
  - split; [|reflexivity]. intros _ p Hp. now apply not_elem_of_nil in Hp.
  - destruct (disallowed (v1alpha1.Name p)) eqn:Hp.
    + split; [discriminate|]. intros Hall.
      specialize (Hall p ltac:(left)). congruence.
    + rewrite IH. split.
      * intros Hall q Hq. apply elem_of_cons in Hq as [->|Hq]; auto.
      * intros Hall q Hq. apply Hall. now right.
Qed.

(** X12: a configuration that validateUpstream returns maps every name to the
    value of the last additional authorize parameter of the spec with that
    name, and has no entry for a name the spec does not give: a name given
    twice keeps its last value. validateUpstream does return such a
    configuration whenever no parameter name is denied and neither the
    secret nor the issuer condition has Status False. The map it builds
    before that has no entry for a denied name and the last value for any
    other. *)
Theorem additional_authorize_parameters_last_value_wins
        (upstream : v1alpha1.OIDCIdentityProvider) (w : World) (name : string) :
  let params := v1alpha1.AdditionalAuthorizeParameters
                  (v1alpha1.AuthorizationConfig (v1alpha1.Spec upstream)) in
  let additional := fst (splitAuthorizeParameters params ∅ []) in
  let sec := validateSecret cluster upstream (newResult upstream additional) in
  let iss := validateIssuer wall cluster upstream (snd sec) w in
  let lastValue :=
    last (map v1alpha1.Value
            (List.filter (fun p => String.eqb (v1alpha1.Name p) name) params)) in
  (forall config,
     fst (validateUpstream wall cluster upstream w) = Some config ->
     upstreamoidc.AdditionalAuthcodeParams config !! name = lastValue) /\
  ((forall p, p ∈ params -> disallowed (v1alpha1.Name p) = false) ->
   Status (fst sec) <> ConditionFalse ->
   Status (fst (fst iss)) <> ConditionFalse ->
   exists config,
     fst (validateUpstream wall cluster upstream w) = Some config /\
     upstreamoidc.AdditionalAuthcodeParams config !! name = lastValue) /\
  additional !! name = (if disallowed name then None else lastValue).
Proof.
  cbv zeta.
  assert (Hbuilt :
    fst (splitAuthorizeParameters
           (v1alpha1.AdditionalAuthorizeParameters
              (v1alpha1.AuthorizationConfig (v1alpha1.Spec upstream))) ∅ []) !! name =
    if disallowed name then None
    else last (map v1alpha1.Value
                 (List.filter (fun p => String.eqb (v1alpha1.Name p) name)
                    (v1alpha1.AdditionalAuthorizeParameters
                       (v1alpha1.AuthorizationConfig (v1alpha1.Spec upstream)))))).
  { rewrite splitAuthorizeParameters_run. cbn [fst].
    destruct (disallowed name) eqn:Hname.
    - rewrite fold_insert_lookup_other; [apply lookup_empty|].
      intros p Hp Heq. apply list_elem_of_In, List.filter_In in Hp as [_ Hp].
      unfold isAllowed in Hp. rewrite Heq, Hname in Hp. discriminate.
    - rewrite fold_insert_last, filter_name_isAllowed by exact Hname.
      destruct (last _); [reflexivity|apply lookup_empty]. }
  assert (Hreturned : forall config,
    fst (validateUpstream wall cluster upstream w) = Some config ->
    upstreamoidc.AdditionalAuthcodeParams config !! name =
    last (map v1alpha1.Value
            (List.filter (fun p => String.eqb (v1alpha1.Name p) name)
               (v1alpha1.AdditionalAuthorizeParameters
                  (v1alpha1.AuthorizationConfig (v1alpha1.Spec upstream)))))).
  { intros config Hconfig.
    destruct (validateUpstream_params upstream w config Hconfig) as [-> Hnone].
    rewrite Hbuilt. destruct (disallowed name) eqn:Hname; [|reflexivity].
    rewrite filter_disallowed_nil in Hnone.
    destruct (List.filter _ _) as [|p rest] eqn:Hfilter; [reflexivity|].
    exfalso.
    assert (Hp : In p (List.filter (fun p => String.eqb (v1alpha1.Name p) name)
                         (v1alpha1.AdditionalAuthorizeParameters
                            (v1alpha1.AuthorizationConfig (v1alpha1.Spec upstream)))))
      by (rewrite Hfilter; now left).
    apply List.filter_In in Hp as [Hp Heq]. apply String.eqb_eq in Heq.
    specialize (Hnone p (proj2 (list_elem_of_In _ _) Hp)). congruence. }
  split; [exact Hreturned|]. split; [|exact Hbuilt].
  intros Hallowed Hsecret Hissuer. eexists. split.
  - apply validateUpstream_passes; [|exact Hsecret|exact Hissuer].
    now apply filter_disallowed_nil.
  - apply Hreturned. apply validateUpstream_passes; [|exact Hsecret|exact Hissuer].
    now apply filter_disallowed_nil.
Qed.

Lemma validateHTTPSURL_cases (maybeHTTPSURL endpointType reason : string) :
  (exists u,
     validateHTTPSURL cluster maybeHTTPSURL endpointType reason = (Some u, None) /\
     parsesToHTTPS maybeHTTPSURL u) \/
  (exists c,
     validateHTTPSURL cluster maybeHTTPSURL endpointType reason = (None, Some c) /\
     Type_ c = typeOIDCDiscoverySucceeded /\ Status c = ConditionFalse /\
     Reason c = reason).
Proof.
  unfold validateHTTPSURL, parsesToHTTPS.
  destruct (url.Parse maybeHTTPSURL) as [u|err].
  - destruct (String.eqb (url.Scheme u) "https") eqn:Hscheme; cbn [negb].
    + destruct (Nat.eqb (size (url.Query u)) 0) eqn:Hsize; cbn [negb orb].
      * destruct (String.eqb (url.Fragment u) "") eqn:Hf; cbn [negb].
        -- left. exists u. apply String.eqb_eq in Hscheme, Hf.
           apply Nat.eqb_eq, map_size_empty_iff in Hsize. auto.
        -- right. eexists. split; [reflexivity|]. auto.
      * right. eexists. split; [reflexivity|]. auto.
    + right. eexists. split; [reflexivity|]. auto.
  - right. eexists. split; [reflexivity|]. auto.
Qed.

(** X13: validateHTTPSURL returns a URL or a condition, never both and never
    neither. A URL it returns is the parse of its input, with scheme https,
    no query parameter and no fragment; a condition it returns is an
    OIDCDiscoverySucceeded condition with Status False and the reason the
    caller chose. *)
Theorem validateHTTPSURL_url_or_condition
        (maybeHTTPSURL endpointType reason : string) :
  (exists u,
     validateHTTPSURL cluster maybeHTTPSURL endpointType reason = (Some u, None) /\
     url.Parse maybeHTTPSURL = inl u /\ url.Scheme u = "https" /\
     url.Query u = ∅ /\ url.Fragment u = "") \/
  (exists c,
     validateHTTPSURL cluster maybeHTTPSURL endpointType reason = (None, Some c) /\
     Type_ c = "OIDCDiscoverySucceeded" /\ Status c = ConditionFalse /\
     Reason c = reason).
Proof.
  destruct (validateHTTPSURL_cases maybeHTTPSURL endpointType reason)
    as [(u & Hrun & Hparse & Hscheme & Hquery & Hfragment)|(c & Hrun & Hc)].
  - left. exists u. auto.
  - right. exists c. auto.
Qed.

Lemma validateSecret_cases (upstream : v1alpha1.OIDCIdentityProvider)
      (result : upstreamoidc.ProviderConfig) :
  let secretName := v1alpha1.SecretName (v1alpha1.Client (v1alpha1.Spec upstream)) in
  let found := GetSecret cluster (Namespace (v1alpha1.ObjectMeta upstream)) secretName in
  let r := validateSecret cluster upstream result in
  (Status (fst r) = ConditionFalse /\ snd r = result /\
   ~ exists secret clientID clientSecret,
       found = inl secret /\
       SecretType secret = oidcClientSecretType /\
       Data secret !! clientIDDataKey = Some clientID /\ clientID <> "" /\
       Data secret !! clientSecretDataKey = Some clientSecret /\ clientSecret <> "") \/
  (exists secret clientID clientSecret,
     found = inl secret /\
     SecretType secret = oidcClientSecretType /\
     Data secret !! clientIDDataKey = Some clientID /\ clientID <> "" /\
     Data secret !! clientSecretDataKey = Some clientSecret /\ clientSecret <> "" /\
     Status (fst r) = ConditionTrue /\
     snd r = withCredentials clientID clientSecret result).
Proof.
  cbv zeta. unfold validateSecret.
  destruct (GetSecret cluster _ _) as [secret|err].
  - destruct (String.eqb (SecretType secret) oidcClientSecretType) eqn:Hty;
      cbn [negb].
    + apply String.eqb_eq in Hty.
      destruct (Data secret !! clientIDDataKey) as [clientID|] eqn:Hid;
        cbn [default].
      * destruct clientID as [|a clientID]; cbn [String.length Nat.eqb orb].
        { left. split; [reflexivity|]. split; [reflexivity|].
          intros (s' & i & c & Hs & _ & Hi & Hne & _).
          injection Hs as <-. rewrite Hid in Hi. injection Hi as <-.
          now apply Hne. }
        destruct (Data secret !! clientSecretDataKey) as [clientSecret|] eqn:Hsec;
          cbn [default].
        -- destruct clientSecret as [|b clientSecret]; cbn [String.length Nat.eqb].
           { left. split; [reflexivity|]. split; [reflexivity|].
             intros (s' & i & c & Hs & _ & _ & _ & Hc & Hne).
             injection Hs as <-. rewrite Hsec in Hc. injection Hc as <-.
             now apply Hne. }
           right. exists secret, (String a clientID), (String b clientSecret).
           repeat (split; [first [assumption|reflexivity|discriminate]|]).
           reflexivity.
        -- left. split; [reflexivity|]. split; [reflexivity|].
           intros (s' & i & c & Hs & _ & _ & _ & Hc & _).
           injection Hs as <-. rewrite Hsec in Hc. discriminate.
      * left. split; [reflexivity|]. split; [reflexivity|].
        intros (s' & i & c & Hs & _ & Hi & _).
        injection Hs as <-. rewrite Hid in Hi. discriminate.
    + apply String.eqb_neq in Hty.
      left. split; [reflexivity|]. split; [reflexivity|].
      intros (s' & i & c & Hs & Hty' & _). injection Hs as <-. contradiction.
  - left. split; [reflexivity|]. split; [reflexivity|].
    intros (s' & i & c & Hs & _). discriminate.
Qed.

Lemma validateSecret_Type (upstream : v1alpha1.OIDCIdentityProvider)
      (result : upstreamoidc.ProviderConfig) :
  Type_ (fst (validateSecret cluster upstream result)) =
  typeClientCredentialsSecretValid.
Proof.
  unfold validateSecret. destruct (GetSecret cluster _ _); [|reflexivity].
  destruct (negb _); [reflexivity|]. now destruct (_ || _).
Qed.

(** X14: validateSecret reports ClientCredentialsSecretValid with Status True
    exactly when the Secret named by the spec is found in the namespace of
    the provider, has the type secrets.pinniped.dev/oidc-client and holds a
    clientID and a clientSecret that are both not empty. For such a Secret
    the Status is True and these two values are written into the result,
    which is otherwise left alone; in every other case the Status is False
    and the result is left as it was. *)
Theorem validateSecret_loads_credentials
        (upstream : v1alpha1.OIDCIdentityProvider)
        (result : upstreamoidc.ProviderConfig) :
  let secretName := v1alpha1.SecretName (v1alpha1.Client (v1alpha1.Spec upstream)) in
  let found := GetSecret cluster (Namespace (v1alpha1.ObjectMeta upstream)) secretName in
  let r := validateSecret cluster upstream result in
  Type_ (fst r) = "ClientCredentialsSecretValid" /\
  (Status (fst r) = ConditionTrue <->
   exists secret clientID clientSecret,
     found = inl secret /\
     SecretType secret = "secrets.pinniped.dev/oidc-client" /\
     Data secret !! "clientID" = Some clientID /\ clientID <> "" /\
     Data secret !! "clientSecret" = Some clientSecret /\ clientSecret <> "") /\
  (forall secret clientID clientSecret,
     found = inl secret ->
     SecretType secret = "secrets.pinniped.dev/oidc-client" ->
     Data secret !! "clientID" = Some clientID -> clientID <> "" ->
     Data secret !! "clientSecret" = Some clientSecret -> clientSecret <> "" ->
     Status (fst r) = ConditionTrue /\
     snd r = withCredentials clientID clientSecret result) /\
  (Status (fst r) <> ConditionTrue ->
   Status (fst r) = ConditionFalse /\ snd r = result).
Proof.
  cbv zeta. split; [apply validateSecret_Type|].
  destruct (validateSecret_cases upstream result)
    as [(Hst & Hres & Hno)|(secret & i & c & Hs & Hty & Hi & Hine & Hc & Hcne & Hst & Hres)].
  - split; [|split; [|auto]].
    + rewrite Hst. split; [discriminate|]. intros Hgood. contradiction.
    + intros secret i c Hs Hty Hi Hine Hc Hcne. exfalso. apply Hno.
      exists secret, i, c. auto 10.
  - split; [|split; [|intros Hne; contradiction]].
    + split; [|auto]. intros _. exists secret, i, c. auto 10.
    + intros secret' i' c' Hs' _ Hi' _ Hc' _. split; [exact Hst|].
      rewrite Hs in Hs'. injection Hs' as <-.
      unfold clientIDDataKey, clientSecretDataKey in Hi, Hc.
      rewrite Hi in Hi'. rewrite Hc in Hc'.
      injection Hi' as <-. injection Hc' as <-. exact Hres.
Qed.

Lemma getClient_cases (upstream : v1alpha1.OIDCIdentityProvider) :
  let ca := caBundle (v1alpha1.Spec upstream) in
  getClient cluster upstream =
  if String.eqb ca "" then inl (defaultClientShortTimeout None)
  else match DecodeString cluster ca with
       | inr err => inr ("spec.certificateAuthorityData is invalid: " +:+ err)
       | inl bundle =>
           if AppendCertsFromPEM cluster bundle
           then inl (defaultClientShortTimeout (Some bundle))
           else inr ("spec.certificateAuthorityData is invalid: " +:+ ErrNoCertificates)
       end.
Proof.
  cbv zeta. unfold getClient, caBundle, cacheKey. cbn [snd].
  destruct (v1alpha1.TLS (v1alpha1.Spec upstream)) as [tls|]; [|reflexivity].
  destruct (String.eqb _ ""); [reflexivity|].
  destruct (DecodeString cluster _); [|reflexivity].
  now destruct (AppendCertsFromPEM cluster _).
Qed.

(** X15: the HTTP client that getClient builds depends on the provider only
    through the key of the discovery cache: two providers with the same
    issuer and the same CA bundle, a missing TLS block counting as an empty
    bundle, get the same client or the same error. A client it returns has a
    timeout of one minute; it trusts the system roots exactly when the
    bundle is empty, and otherwise the bundle as decoded, which then holds a
    certificate. An error arises only for a bundle that is not empty and
    starts with "spec.certificateAuthorityData is invalid: ". *)
Theorem getClient_depends_on_cacheKey_only
        (upstream upstream' : v1alpha1.OIDCIdentityProvider) :
  cacheKey (v1alpha1.Spec upstream) = cacheKey (v1alpha1.Spec upstream') ->
  getClient cluster upstream = getClient cluster upstream' /\
  (forall httpClient, getClient cluster upstream = inl httpClient ->
     upstreamoidc.Timeout httpClient = (60 * 1000000000)%Z /\
     (upstreamoidc.RootCAs httpClient = None <->
      caBundle (v1alpha1.Spec upstream) = "") /\
     (forall bundle, upstreamoidc.RootCAs httpClient = Some bundle ->
        DecodeString cluster (caBundle (v1alpha1.Spec upstream)) = inl bundle /\
        AppendCertsFromPEM cluster bundle = true)) /\
  (forall err, getClient cluster upstream = inr err ->
     caBundle (v1alpha1.Spec upstream) <> "" /\
     exists cause, err = "spec.certificateAuthorityData is invalid: " +:+ cause).
Proof.
  intros Hkey. rewrite !getClient_cases. unfold caBundle. rewrite <- Hkey.
  split; [reflexivity|].
  destruct (String.eqb (snd (cacheKey (v1alpha1.Spec upstream))) "") eqn:Hca.
  - apply String.eqb_eq in Hca. split.
    + intros c [= <-]. cbn. split; [reflexivity|]. split; [tauto|]. discriminate.
    + discriminate.
  - apply String.eqb_neq in Hca.
    destruct (DecodeString cluster _) as [bundle|e] eqn:Hdec.
    + destruct (AppendCertsFromPEM cluster bundle) eqn:Hpem.
      * split; [|discriminate]. intros c [= <-]. cbn.
        split; [reflexivity|]. split; [split; [discriminate|contradiction]|].
        intros b [= <-]. auto.
      * split; [discriminate|]. intros err [= <-]. split; [exact Hca|]. eauto.
    + split; [discriminate|]. intros err [= <-]. split; [exact Hca|]. eauto.
Qed.

(** X16: what putProvider stores, getProvider gives back under every spec
    with the same issuer and CA bundle for as long as the clock read at the
    lookup is before the clock read at the store plus fifteen minutes, and
    not afterwards; for a spec with another key the store changes nothing
    but the clock reading it took. *)
Theorem putProvider_getProvider_round_trip
        (spec spec' : v1alpha1.OIDCIdentityProviderSpec)
        (discovered : upstreamoidc.Provider) (httpClient : upstreamoidc.HTTPClient)
        (w : World) :
  let stored := snd (putProvider wall spec discovered httpClient w) in
  let storedAt := wall (ticks (effects w)) in
  let lookedUpAt := wall (S (ticks (effects w))) in
  (cacheKey spec' = cacheKey spec ->
   fst (getProvider wall spec' stored) =
     if (lookedUpAt <? storedAt + 15 * 60 * 1000000000)%Z
     then Some (discovered, httpClient) else None) /\
  (cacheKey spec' <> cacheKey spec ->
   fst (getProvider wall spec' stored) =
   fst (getProvider wall spec' (snd (liftEffects (Now wall) w)))).
Proof.
  cbv zeta. split; intros Hkey.
  - unfold getProvider, putProvider, bind, get, modify, liftEffects, Now, ret.
    cbn. rewrite Hkey, lookup_insert_eq. cbn.
    change (wall (ticks (effects w)) + oidcValidatorCacheTTL)%Z
      with (wall (ticks (effects w)) + 15 * 60 * 1000000000)%Z.
    now destruct (_ <? _)%Z.
  - unfold getProvider, putProvider, bind, get, modify, liftEffects, Now, ret.
    cbn. rewrite lookup_insert_ne by congruence.
    destruct (validatorCache w !! cacheKey spec'); [|reflexivity]. cbn.
    now destruct (_ <? _)%Z.
Qed.

Lemma getProvider_world (spec : v1alpha1.OIDCIdentityProviderSpec) (w : World) :
  let w1 := snd (getProvider wall spec w) in
  validatorCache w1 = validatorCache w /\ errorLog w1 = errorLog w /\
  statusUpdates w1 = statusUpdates w /\ cacheSets w1 = cacheSets w /\
  logged (effects w1) = logged (effects w).
Proof.
  cbv zeta. unfold getProvider, bind, get, liftEffects, Now, ret.
  destruct (validatorCache w !! cacheKey spec); [|auto]. cbn.
  destruct (_ <? _)%Z; cbn; auto.
Qed.

Lemma getProvider_hit (spec : v1alpha1.OIDCIdentityProviderSpec) (w : World)
      (entry : lruValidatorCacheEntry) :
  validatorCache w !! cacheKey spec = Some entry ->
  (wall (ticks (effects w)) < expiry entry)%Z ->
  getProvider wall spec w =
  (Some (provider entry, client entry), snd (liftEffects (Now wall) w)).
Proof.
  intros Hentry Hfresh. unfold getProvider, bind, get, liftEffects, Now, ret.
  rewrite Hentry. cbn. apply Z.ltb_lt in Hfresh. now rewrite Hfresh.
Qed.

(** X17: while the discovery cache holds an entry for the issuer and CA
    bundle of a provider and the clock is before its expiry, validateIssuer
    judges the cached discovery document: whatever the network would answer
    now, no HTTP client is built and no discovery is run, nothing is logged,
    the cache keeps its entries, and the clock is read once. *)
Theorem validateIssuer_uses_fresh_cache_entry
        (upstream : v1alpha1.OIDCIdentityProvider)
        (result : upstreamoidc.ProviderConfig) (w : World)
        (entry : lruValidatorCacheEntry) :
  validatorCache w !! cacheKey (v1alpha1.Spec upstream) = Some entry ->
  (wall (ticks (effects w)) < expiry entry)%Z ->
  validateIssuer wall cluster upstream result w =
    (validateDiscovered cluster upstream (provider entry) (client entry) result,
     snd (liftEffects (Now wall) w)) /\
  forall network : Cluster,
    TruncateMostLongErr network = TruncateMostLongErr cluster ->
    validateIssuer wall network upstream result w =
    validateIssuer wall cluster upstream result w.
Proof.
  intros Hentry Hfresh.
  assert (Hhit : forall cl,
    validateIssuer wall cl upstream result w =
    (validateDiscovered cl upstream (provider entry) (client entry) result,
     snd (liftEffects (Now wall) w))).
  { intros cl. unfold validateIssuer. cbv zeta. unfold bind at 1.
    rewrite (getProvider_hit _ _ entry Hentry Hfresh). reflexivity. }
  split; [apply Hhit|]. intros network Htrunc. rewrite !Hhit. f_equal.
  unfold validateDiscovered, validateHTTPSURL. now rewrite Htrunc.
Qed.

Lemma validateDiscovered_cases (upstream : v1alpha1.OIDCIdentityProvider)
      (discovered : upstreamoidc.Provider) (httpClient : upstreamoidc.HTTPClient)
      (result : upstreamoidc.ProviderConfig) :
  let r := validateDiscovered cluster upstream discovered httpClient result in
  let endpoints := upstreamoidc.ProviderEndpoint discovered in
  (Status (fst r) = ConditionFalse /\
   (snd r = result \/ exists u, snd r = withRevocationURL u result)) \/
  (Status (fst r) = ConditionTrue /\
   exists revocationEndpoint authURL tokenURL,
     upstreamoidc.ProviderClaims discovered = inl revocationEndpoint /\
     parsesToHTTPS (upstreamoidc.AuthURL endpoints) authURL /\
     parsesToHTTPS (upstreamoidc.TokenURL endpoints) tokenURL /\
     (revocationEndpoint = "" /\
      snd r = withDiscovery discovered httpClient result \/
      revocationEndpoint <> "" /\
      exists u, parsesToHTTPS revocationEndpoint u /\
                snd r = withDiscovery discovered httpClient
                          (withRevocationURL (Some u) result))).
Proof.
  cbv zeta. unfold validateDiscovered.
  destruct (upstreamoidc.ProviderClaims discovered) as [endpoint|err];
    [|left; cbn; auto].
  destruct (String.eqb endpoint "") eqn:Hendpoint; cbn [negb].
  - apply String.eqb_eq in Hendpoint.
    destruct (validateHTTPSURL_cases
                (upstreamoidc.AuthURL (upstreamoidc.ProviderEndpoint discovered))
                "authorization endpoint" reasonInvalidResponse)
      as [(ua & -> & Hua)|(c & -> & _ & Hc & _)]; [|left; cbn; auto].
    destruct (validateHTTPSURL_cases
                (upstreamoidc.TokenURL (upstreamoidc.ProviderEndpoint discovered))
                "token endpoint" reasonInvalidResponse)
      as [(ut & -> & Hut)|(c & -> & _ & Hc & _)]; [|left; cbn; auto].
    right. split; [reflexivity|]. exists endpoint, ua, ut. cbn [snd]. auto 10.
  - apply String.eqb_neq in Hendpoint.
    destruct (validateHTTPSURL_cases endpoint "revocation endpoint"
                reasonInvalidResponse)
      as [(ur & -> & Hur)|(c & -> & _ & Hc & _)]; [|left; cbn; auto].
    destruct (validateHTTPSURL_cases
                (upstreamoidc.AuthURL (upstreamoidc.ProviderEndpoint discovered))
                "authorization endpoint" reasonInvalidResponse)
      as [(ua & -> & Hua)|(c & -> & _ & Hc & _)]; [|left; cbn; eauto].
    destruct (validateHTTPSURL_cases
                (upstreamoidc.TokenURL (upstreamoidc.ProviderEndpoint discovered))
                "token endpoint" reasonInvalidResponse)
      as [(ut & -> & Hut)|(c & -> & _ & Hc & _)]; [|left; cbn; eauto].
    right. split; [reflexivity|]. exists endpoint, ua, ut. cbn [snd].
    split; [reflexivity|]. split; [exact Hua|]. split; [exact Hut|].
    right. split; [exact Hendpoint|]. exists ur. auto.
Qed.

(** The outcome of validateIssuer: a failure found before any discovery
    document is judged, or the judgement of a document. *)
Lemma validateIssuer_cases (upstream : v1alpha1.OIDCIdentityProvider)
      (result : upstreamoidc.ProviderConfig) (w : World) :
  let r := validateIssuer wall cluster upstream result w in
  (Status (fst (fst r)) = ConditionFalse /\ snd (fst r) = result /\
   validatorCache (snd r) = validatorCache w) \/
  (exists discovered httpClient,
     fst r = validateDiscovered cluster upstream discovered httpClient result /\
     (validatorCache (snd r) = validatorCache w /\
      fst (getProvider wall (v1alpha1.Spec upstream) w) =
        Some (discovered, httpClient) \/
      fst (getProvider wall (v1alpha1.Spec upstream) w) = None /\
      getClient cluster upstream = inl httpClient /\
      NewProvider cluster httpClient (v1alpha1.Issuer (v1alpha1.Spec upstream)) =
        inl discovered /\
      (exists issuerURL,
         parsesToHTTPS (v1alpha1.Issuer (v1alpha1.Spec upstream)) issuerURL) /\
      validatorCache (snd r) =
        <[cacheKey (v1alpha1.Spec upstream) :=
            mkEntry discovered httpClient
              (wall (ticks (effects (snd (getProvider wall (v1alpha1.Spec upstream) w))))
               + oidcValidatorCacheTTL)%Z]>
          (validatorCache w))).
Proof.
  cbv zeta.
  remember (validateIssuer wall cluster upstream result w) as r eqn:Hr.
  unfold validateIssuer in Hr. cbv zeta in Hr. unfold bind at 1 in Hr.
  pose proof (getProvider_world (v1alpha1.Spec upstream) w) as Hworld.
  cbv zeta in Hworld.
  destruct (getProvider wall (v1alpha1.Spec upstream) w) as [cached w1] eqn:Hget.
  cbn [fst snd] in *. destruct Hworld as (Hcache & _).
  destruct cached as [[discovered httpClient]|].
  - right. exists discovered, httpClient. subst r. cbn. auto.
  - destruct (getClient cluster upstream) as [httpClient|err] eqn:Hclient;
      [|left; subst r; cbn; auto].
    destruct (validateHTTPSURL_cases (v1alpha1.Issuer (v1alpha1.Spec upstream))
                "issuer" reasonUnreachable)
      as [(u & Hurl & Hu)|(c & Hurl & _ & Hc & _)]; rewrite Hurl in Hr;
      [|left; subst r; cbn; auto].
    destruct (NewProvider cluster httpClient _) as [discovered|err] eqn:Hnew.
    + right. exists discovered, httpClient. subst r.
      unfold bind, putProvider, bind, modify, liftEffects, Now, ret. cbn.
      split; [reflexivity|]. right. rewrite Hcache. eauto 10.
    + left. subst r. unfold bind, logError, modify, ret. cbn. auto.
Qed.

Lemma getProvider_ticks (spec : v1alpha1.OIDCIdentityProviderSpec) (w : World) :
  ticks (effects (snd (getProvider wall spec w))) = ticks (effects w) \/
  ticks (effects (snd (getProvider wall spec w))) = S (ticks (effects w)).
Proof.
  unfold getProvider, bind, get, liftEffects, Now, ret.
  destruct (validatorCache w !! cacheKey spec); [|now left].
  cbn. destruct (_ <? _)%Z; now right.
Qed.

Lemma validateIssuer_stores (upstream : v1alpha1.OIDCIdentityProvider)
      (result : upstreamoidc.ProviderConfig) (w : World)
      (discovered : upstreamoidc.Provider) (httpClient : upstreamoidc.HTTPClient)
      (issuerURL : url.URL) :
  fst (getProvider wall (v1alpha1.Spec upstream) w) = None ->
  getClient cluster upstream = inl httpClient ->
  parsesToHTTPS (v1alpha1.Issuer (v1alpha1.Spec upstream)) issuerURL ->
  NewProvider cluster httpClient (v1alpha1.Issuer (v1alpha1.Spec upstream)) =
    inl discovered ->
  validatorCache (snd (validateIssuer wall cluster upstream result w)) =
  <[cacheKey (v1alpha1.Spec upstream) :=
      mkEntry discovered httpClient
        (wall (ticks (effects (snd (getProvider wall (v1alpha1.Spec upstream) w))))
         + oidcValidatorCacheTTL)%Z]>
    (validatorCache w).
Proof.
  intros Hget Hclient (Hparse & Hscheme & Hquery & Hfragment) Hnew.
  unfold validateIssuer. cbv zeta. unfold bind at 1.
  pose proof (getProvider_world (v1alpha1.Spec upstream) w) as Hworld.
  cbv zeta in Hworld.
  destruct (getProvider wall (v1alpha1.Spec upstream) w) as [cached w1].
  cbn [fst snd] in *. destruct Hworld as (Hcache & _). subst cached.
  rewrite Hclient.
  rewrite (validateHTTPSURL_accepted cluster _ "issuer" reasonUnreachable
             issuerURL Hparse Hscheme Hquery Hfragment).
  rewrite Hnew. unfold bind, putProvider, bind, modify, liftEffects, Now, ret.
  cbn. now rewrite Hcache.
Qed.

(** X18: validateIssuer writes the discovery cache in one case only: no fresh
    entry was found, the HTTP client could be built, the issuer is an https
    URL without query parameter and fragment, and discovery answered. In
    that case, whatever the judgement of the discovered endpoints is, the
    cache afterwards holds that client and that answer under the key of the
    spec, expiring fifteen minutes after the clock reading taken for the
    store, which is the first reading after the lookup. In every other case,
    failed discovery included, the cache keeps exactly the entries it
    had. *)
Theorem validateIssuer_caches_answered_discovery_only
        (upstream : v1alpha1.OIDCIdentityProvider)
        (result : upstreamoidc.ProviderConfig) (w : World) :
  let spec := v1alpha1.Spec upstream in
  let lookedUp := snd (getProvider wall spec w) in
  let after := validatorCache (snd (validateIssuer wall cluster upstream result w)) in
  (forall discovered httpClient issuerURL,
     fst (getProvider wall spec w) = None ->
     getClient cluster upstream = inl httpClient ->
     parsesToHTTPS (v1alpha1.Issuer spec) issuerURL ->
     NewProvider cluster httpClient (v1alpha1.Issuer spec) = inl discovered ->
     after = <[cacheKey spec :=
                 mkEntry discovered httpClient
                   (wall (ticks (effects lookedUp)) + 15 * 60 * 1000000000)%Z]>
               (validatorCache w)) /\
  ((~ exists discovered httpClient issuerURL,
        fst (getProvider wall spec w) = None /\
        getClient cluster upstream = inl httpClient /\
        parsesToHTTPS (v1alpha1.Issuer spec) issuerURL /\
        NewProvider cluster httpClient (v1alpha1.Issuer spec) = inl discovered) ->
   after = validatorCache w) /\
  (ticks (effects lookedUp) = ticks (effects w) \/
   ticks (effects lookedUp) = S (ticks (effects w))).
Proof.
  cbv zeta.
  destruct (validateIssuer_cases upstream result w)
    as [(_ & _ & Hcache)|(discovered & httpClient & _ & [(Hcache & Hhit)|Hmiss])].
  - split; [|split; [auto|apply getProvider_ticks]].
    intros d c u Hget Hclient Hurl Hnew.
    rewrite (validateIssuer_stores upstream result w d c u Hget Hclient Hurl Hnew).
    reflexivity.
  - split; [|split; [auto|apply getProvider_ticks]].
    intros d c u Hget. rewrite Hget in Hhit. discriminate.
  - destruct Hmiss as (Hget & Hclient & Hnew & (issuerURL & Hissuer) & Hcache).
    split; [|split; [|apply getProvider_ticks]].
    + intros d c u _ Hclient' _ Hnew'. rewrite Hclient in Hclient'.
      injection Hclient' as <-. rewrite Hnew in Hnew'. injection Hnew' as <-.
      exact Hcache.
    + intros Hno. exfalso. apply Hno.
      exists discovered, httpClient, issuerURL. auto.
Qed.

(** X19: when validateIssuer reports Status True, the result it hands on
    carries a discovery document and an HTTP client, its OAuth2 endpoints
    are those of the document, and the authorization and token endpoints
    each parse as an https URL with no query parameter and no fragment. A
    revocation endpoint that the document names satisfies the same and is
    recorded as the revocation URL; when it names none, the revocation URL
    of the result is left as it was. Nothing else in the result changes. *)
Theorem validateIssuer_true_means_https_endpoints
        (upstream : v1alpha1.OIDCIdentityProvider)
        (result : upstreamoidc.ProviderConfig) (w : World) :
  let r := fst (validateIssuer wall cluster upstream result w) in
  Status (fst r) = ConditionTrue ->
  exists discovered httpClient revocationEndpoint authURL tokenURL,
    upstreamoidc.Provider_ (snd r) = Some discovered /\
    upstreamoidc.Client (snd r) = Some httpClient /\
    upstreamoidc.ConfigEndpoint (upstreamoidc.Config_ (snd r)) =
      upstreamoidc.ProviderEndpoint discovered /\
    parsesToHTTPS (upstreamoidc.AuthURL (upstreamoidc.ProviderEndpoint discovered))
      authURL /\
    parsesToHTTPS (upstreamoidc.TokenURL (upstreamoidc.ProviderEndpoint discovered))
      tokenURL /\
    upstreamoidc.ProviderClaims discovered = inl revocationEndpoint /\
    (revocationEndpoint = "" /\
     snd r = withDiscovery discovered httpClient result \/
     revocationEndpoint <> "" /\
     exists revocationURL,
       parsesToHTTPS revocationEndpoint revocationURL /\
       snd r = withDiscovery discovered httpClient
                 (withRevocationURL (Some revocationURL) result)).
Proof.
  cbv zeta. intros Htrue.
  destruct (validateIssuer_cases upstream result w)
    as [(Hfalse & _)|(discovered & httpClient & Hrun & _)];
    [rewrite Hfalse in Htrue; discriminate|].
  rewrite Hrun in Htrue |- *.
  destruct (validateDiscovered_cases upstream discovered httpClient result)
    as [(Hfalse & _)|(_ & endpoint & ua & ut & Hclaims & Hua & Hut & Hres)];
    [rewrite Hfalse in Htrue; discriminate|].
  exists discovered, httpClient, endpoint, ua, ut.
  destruct Hres as [(Hnone & ->)|(Hsome & ur & Hur & ->)]; cbn;
    repeat (split; [first [reflexivity|assumption]|]); [left|right]; eauto.
Qed.

Lemma notFalse_Status (c : Condition) :
  notFalse c = true -> Status c <> ConditionFalse.
Proof.
  unfold notFalse. intros H Hfalse.
  rewrite bool_decide_eq_true_2 in H by exact Hfalse. discriminate.
Qed.

Lemma authorizeParametersCondition_passed (rejected : list string) :
  notFalse (authorizeParametersCondition rejected) = true -> rejected = [].
Proof.
  destruct rejected as [|name rest]; [reflexivity|]. discriminate.
Qed.

(** X20: a configuration that validateUpstream returns has passed every
    check. No additional authorize parameter of the spec has a denied name.
    The client ID and the client secret are the values of the Secret that
    the spec names, and neither is empty. The configuration carries a
    discovery document and an HTTP client, its OAuth2 endpoints are those of
    the document, and the authorization and token endpoints are https URLs
    without query parameter and fragment. Its name, resource UID, claims,
    password-grant flag and scopes are those of the provider. *)
Theorem validateUpstream_returns_checked_config
        (upstream : v1alpha1.OIDCIdentityProvider) (w : World)
        (config : upstreamoidc.ProviderConfig) :
  fst (validateUpstream wall cluster upstream w) = Some config ->
  let spec := v1alpha1.Spec upstream in
  let authorizationConfig := v1alpha1.AuthorizationConfig spec in
  (forall p, p ∈ v1alpha1.AdditionalAuthorizeParameters authorizationConfig ->
             disallowed (v1alpha1.Name p) = false) /\
  (exists secret,
     GetSecret cluster (Namespace (v1alpha1.ObjectMeta upstream))
       (v1alpha1.SecretName (v1alpha1.Client spec)) = inl secret /\
     SecretType secret = "secrets.pinniped.dev/oidc-client" /\
     Data secret !! "clientID" =
       Some (upstreamoidc.ClientID (upstreamoidc.Config_ config)) /\
     Data secret !! "clientSecret" =
       Some (upstreamoidc.ClientSecret (upstreamoidc.Config_ config))) /\
  upstreamoidc.ClientID (upstreamoidc.Config_ config) <> "" /\
  upstreamoidc.ClientSecret (upstreamoidc.Config_ config) <> "" /\
  (exists discovered httpClient authURL tokenURL,
     upstreamoidc.Provider_ config = Some discovered /\
     upstreamoidc.Client config = Some httpClient /\
     upstreamoidc.ConfigEndpoint (upstreamoidc.Config_ config) =
       upstreamoidc.ProviderEndpoint discovered /\
     parsesToHTTPS (upstreamoidc.AuthURL (upstreamoidc.ProviderEndpoint discovered))
       authURL /\
     parsesToHTTPS (upstreamoidc.TokenURL (upstreamoidc.ProviderEndpoint discovered))
       tokenURL) /\
  upstreamoidc.Name config = Name (v1alpha1.ObjectMeta upstream) /\
  upstreamoidc.ResourceUID config = UID (v1alpha1.ObjectMeta upstream) /\
  upstreamoidc.UsernameClaim config = v1alpha1.Username (v1alpha1.Claims spec) /\
  upstreamoidc.GroupsClaim config = v1alpha1.Groups (v1alpha1.Claims spec) /\
  upstreamoidc.AdditionalClaimMappings config =
    v1alpha1.AdditionalClaimMappings (v1alpha1.Claims spec) /\
  upstreamoidc.AllowPasswordGrant config =
    v1alpha1.AllowPasswordGrant authorizationConfig /\
  upstreamoidc.Scopes (upstreamoidc.Config_ config) =
    computeScopes (v1alpha1.AdditionalScopes authorizationConfig).
Proof.
  intros Hsome. cbv zeta.
  destruct (oidc_validateUpstream_run wall cluster upstream w) as [Hrun _].
  cbv zeta in Hrun. rewrite Hrun in Hsome. clear Hrun.
  set (sp := splitAuthorizeParameters _ ∅ []) in *.
  set (result := newResult upstream (fst sp)) in *.
  destruct (forallb notFalse _) eqn:Hall; [|discriminate].
  injection Hsome as <-. cbn [forallb] in Hall.
  apply andb_prop in Hall as [Hsecret Hall].
  apply andb_prop in Hall as [Hissuer Hall].
  apply andb_prop in Hall as [Hparams _].
  apply notFalse_Status in Hsecret, Hissuer.
  apply authorizeParametersCondition_passed in Hparams.
  split.
  { intros p Hp. destruct (disallowed (v1alpha1.Name p)) eqn:Hdenied; [|reflexivity].
    exfalso. subst sp. rewrite splitAuthorizeParameters_run in Hparams.
    cbn [snd app] in Hparams.
    assert (Hin : v1alpha1.Name p ∈
                    List.filter disallowed
                      (map v1alpha1.Name
                         (v1alpha1.AdditionalAuthorizeParameters
                            (v1alpha1.AuthorizationConfig (v1alpha1.Spec upstream))))).
    { apply list_elem_of_In, List.filter_In. split; [|exact Hdenied].
      apply list_elem_of_In, list_elem_of_fmap. eauto. }
    rewrite Hparams in Hin. now apply not_elem_of_nil in Hin. }
  destruct (validateSecret_cases upstream result)
    as [(Hfalse & _)|(secret & i & c & Hs & Hty & Hi & Hine & Hc & Hcne & _ & Hsec)];
    [contradiction|].
  rewrite Hsec in *. clear Hsecret.
  destruct (validateIssuer_cases upstream (withCredentials i c result) w)
    as [(Hfalse & _)|(discovered & httpClient & Hiss & _)]; [contradiction|].
  rewrite Hiss in *.
  destruct (validateDiscovered_cases upstream discovered httpClient
              (withCredentials i c result))
    as [(Hfalse & _)|(_ & endpoint & ua & ut & _ & Hua & Hut & Hres)];
    [contradiction|].
  destruct Hres as [(_ & ->)|(_ & ur & _ & ->)]; cbn;
    (split; [exists secret; auto|]);
    (split; [exact Hine|]); (split; [exact Hcne|]);
    (split; [exists discovered, httpClient, ua, ut; auto 10|]);
    auto 10.
Qed.

Lemma appendsErrors_ret {A} (P : ErrorLine -> Prop) (a : A) :
  appendsErrors P (ret a).
Proof. intros w. exists []. split; [now rewrite app_nil_r|constructor]. Qed.

Lemma appendsErrors_bind {A B} (P : ErrorLine -> Prop)
      (m : M World A) (k : A -> M World B) :
  appendsErrors P m -> (forall a, appendsErrors P (k a)) ->
  appendsErrors P (bind m k).
Proof.
  intros Hm Hk w. unfold bind. destruct (Hm w) as (l1 & H1 & HP1).
  destruct (m w) as [a w1]. cbn [snd] in H1.
  destruct (Hk a w1) as (l2 & H2 & HP2).
  exists (l1 ++ l2). rewrite H2, H1, app_assoc. split; [reflexivity|].
  now apply Forall_app.
Qed.

Lemma appendsErrors_liftEffects {A} (P : ErrorLine -> Prop)
      (m : M conditionsutil.Effects A) :
  appendsErrors P (liftEffects m).
Proof.
  intros w. exists []. unfold liftEffects. destruct (m (effects w)).
  split; [now rewrite app_nil_r|constructor].
Qed.

Lemma appendsErrors_logError (P : ErrorLine -> Prop) (err msg : string)
      (values : list (string * string)) :
  P (mkErrorLine err msg values) -> appendsErrors P (logError err msg values).
Proof.
  intros HP w. exists [mkErrorLine err msg values]. split; [reflexivity|].
  now repeat constructor.
Qed.

Lemma appendsErrors_modify_other (P : ErrorLine -> Prop) (f : World -> World) :
  (forall w, errorLog (f w) = errorLog w) -> appendsErrors P (modify f).
Proof.
  intros Hf w. exists []. cbn. rewrite Hf.
  split; [now rewrite app_nil_r|constructor].
Qed.

Lemma appendsErrors_getProvider (P : ErrorLine -> Prop)
      (spec : v1alpha1.OIDCIdentityProviderSpec) :
  appendsErrors P (getProvider wall spec).
Proof.
  unfold getProvider. apply appendsErrors_bind.
  - intros w. exists []. split; [now rewrite app_nil_r|constructor].
  - intros w. destruct (validatorCache w !! cacheKey spec);
      [|apply appendsErrors_ret].
    apply appendsErrors_bind; [apply appendsErrors_liftEffects|].
    intros now. destruct (_ <? _)%Z; apply appendsErrors_ret.
Qed.

Lemma appendsErrors_validateIssuer (upstream : v1alpha1.OIDCIdentityProvider)
      (result : upstreamoidc.ProviderConfig) :
  appendsErrors (fun line => lineMessage line = "failed to perform OIDC discovery")
    (validateIssuer wall cluster upstream result).
Proof.
  unfold validateIssuer. cbv zeta.
  apply appendsErrors_bind; [apply appendsErrors_getProvider|].
  intros [[discovered httpClient]|]; [apply appendsErrors_ret|].
  destruct (getClient cluster upstream); [|apply appendsErrors_ret].
  destruct (validateHTTPSURL cluster _ _ _) as [? [c|]]; [apply appendsErrors_ret|].
  destruct (NewProvider cluster _ _).
  - apply appendsErrors_bind; [|intros _; apply appendsErrors_ret].
    unfold putProvider.
    apply appendsErrors_bind; [apply appendsErrors_liftEffects|].
    intros now. now apply appendsErrors_modify_other.
  - apply appendsErrors_bind; [|intros _; apply appendsErrors_ret].
    now apply appendsErrors_logError.
Qed.

Lemma appendsErrors_updateStatus (upstream : v1alpha1.OIDCIdentityProvider)
      (conditions : list Condition) :
  appendsErrors (fun line => lineMessage line = "failed to update status")
    (updateStatus wall cluster upstream conditions).
Proof.
  unfold updateStatus.
  apply appendsErrors_bind; [apply appendsErrors_liftEffects|].
  intros now. apply appendsErrors_bind; [apply appendsErrors_liftEffects|].
  intros [merged had]. destruct (decide _); [apply appendsErrors_ret|].
  unfold clientUpdateStatus.
  apply appendsErrors_bind; [now apply appendsErrors_modify_other|].
  intros _. destruct (UpdateStatus cluster _);
    [now apply appendsErrors_logError | apply appendsErrors_ret].
Qed.

Lemma logFailing_errorLog (upstream : v1alpha1.OIDCIdentityProvider)
      (conditions : list Condition) (valid : bool) (w : World) :
  errorLog (snd (logFailing upstream conditions valid w)) =
  errorLog w ++ map (failingLine upstream) (List.filter isFalse conditions).
Proof.
  revert valid w.
  induction conditions as [|c rest IH]; intros valid w; cbn [logFailing List.filter].
  - cbn. now rewrite app_nil_r.
  - unfold isFalse at 1.
    destruct (decide (Status c = ConditionFalse)) as [Hc|Hc].
    + rewrite (bool_decide_eq_true_2 _ Hc). unfold bind, logError, modify.
      rewrite IH. cbn [errorLog map]. now rewrite <- app_assoc.
    + rewrite (bool_decide_eq_false_2 _ Hc). apply IH.
Qed.










End OIDCExtras.

Lemma computeScopes_ignores_order_and_repetition_witness :
  oidcupstreamwatcher.computeScopes ["groups"; "email"; "groups"] =
    oidcupstreamwatcher.computeScopes ["email"; "groups"] /\
  "openid" ∈ oidcupstreamwatcher.computeScopes ["groups"; "email"; "groups"].
Proof.
  apply (computeScopes_ignores_order_and_repetition
           ["groups"; "email"; "groups"] ["email"; "groups"]).
  intros s. rewrite !elem_of_cons, !elem_of_nil. tauto.
Defined.

Lemma getClient_depends_on_cacheKey_only_witness :
  oidcupstreamwatcher.getClient examples.oidcCluster examples.oidcPlainProvider =
  oidcupstreamwatcher.getClient examples.oidcCluster examples.oidcEmptyCAProvider.
Proof.
  apply (getClient_depends_on_cacheKey_only examples.oidcCluster
           examples.oidcPlainProvider examples.oidcEmptyCAProvider).
  reflexivity.
Defined.

Lemma validateIssuer_uses_fresh_cache_entry_witness :
  oidcupstreamwatcher.validateIssuer examples.tickClock examples.oidcUnreachable
    examples.oidcPlainProvider
    (oidcupstreamwatcher.newResult examples.oidcPlainProvider ∅)
    (snd (oidcupstreamwatcher.putProvider examples.tickClock
            (v1alpha1.Spec examples.oidcPlainProvider) examples.oidcDiscovery
            (oidcupstreamwatcher.defaultClientShortTimeout None)
            examples.oidcWorld)) =
  oidcupstreamwatcher.validateIssuer examples.tickClock examples.oidcCluster
    examples.oidcPlainProvider
    (oidcupstreamwatcher.newResult examples.oidcPlainProvider ∅)
    (snd (oidcupstreamwatcher.putProvider examples.tickClock
            (v1alpha1.Spec examples.oidcPlainProvider) examples.oidcDiscovery
            (oidcupstreamwatcher.defaultClientShortTimeout None)
            examples.oidcWorld)).
Proof.
  apply (proj2 (validateIssuer_uses_fresh_cache_entry examples.tickClock
                  examples.oidcCluster examples.oidcPlainProvider
                  (oidcupstreamwatcher.newResult examples.oidcPlainProvider ∅)
                  (snd (oidcupstreamwatcher.putProvider examples.tickClock
                          (v1alpha1.Spec examples.oidcPlainProvider)
                          examples.oidcDiscovery
                          (oidcupstreamwatcher.defaultClientShortTimeout None)
                          examples.oidcWorld))
                  (oidcupstreamwatcher.mkEntry examples.oidcDiscovery
                     (oidcupstreamwatcher.defaultClientShortTimeout None)
                     (0 + oidcupstreamwatcher.oidcValidatorCacheTTL)%Z)
                  eq_refl eq_refl) examples.oidcUnreachable).
  reflexivity.
Defined.

Lemma validateIssuer_true_means_https_endpoints_witness :
  exists discovered,
    upstreamoidc.Provider_
      (snd (fst (oidcupstreamwatcher.validateIssuer examples.tickClock
                   examples.oidcCluster examples.oidcPlainProvider
                   (oidcupstreamwatcher.newResult examples.oidcPlainProvider ∅)
                   examples.oidcWorld))) = Some discovered.
Proof.
  destruct (validateIssuer_true_means_https_endpoints examples.tickClock
              examples.oidcCluster examples.oidcPlainProvider
              (oidcupstreamwatcher.newResult examples.oidcPlainProvider ∅)
              examples.oidcWorld eq_refl)
    as (discovered & _ & _ & _ & _ & Hprovider & _).
  exists discovered. exact Hprovider.
Defined.

Lemma validateUpstream_returns_checked_config_witness :
  upstreamoidc.Scopes
    (upstreamoidc.Config_
       (oidcupstreamwatcher.withDiscovery examples.oidcDiscovery
          (oidcupstreamwatcher.defaultClientShortTimeout None)
          (oidcupstreamwatcher.withCredentials "id" "secret"
             (oidcupstreamwatcher.newResult examples.oidcPlainProvider
                {["prompt" := "consent"]})))) =
  oidcupstreamwatcher.computeScopes ["groups"].
Proof.
  apply (validateUpstream_returns_checked_config examples.tickClock
           examples.oidcCluster examples.oidcPlainProvider examples.oidcWorld).
  vm_compute. reflexivity.
Defined.


(** * Properties of the redaction of audit-logged request parameters *)

Section Redaction.
Import plog.
Variable allowedKeys : gset string.

Lemma eachValue_params_later (key : string) (count : nat) (values : list string)
      (i : nat) (params : gmap string string)
      (multiValueParams : gmap string (list string)) :
  fst (eachValue allowedKeys key count values (S i) params multiValueParams) =
  params.
Proof.
  revert i multiValueParams.
  induction values as [|p rest IH]; intros i multiValueParams; [reflexivity|].
  cbn [eachValue Nat.eqb]. apply IH.
Qed.

Lemma eachValue_params (key : string) (count : nat) (values : list string)
      (params : gmap string string)
      (multiValueParams : gmap string (list string)) :
  fst (eachValue allowedKeys key count values 0 params multiValueParams) =
  match values with
  | [] => params
  | p :: _ => <[key := transform allowedKeys key p]> params
  end.
Proof.
  destruct values as [|p rest]; [reflexivity|].
  cbn [eachValue Nat.eqb]. apply eachValue_params_later.
Qed.

Lemma eachValue_multiValueParams (key : string) (count : nat)
      (values : list string) (i : nat) (params : gmap string string)
      (multiValueParams : gmap string (list string)) :
  snd (eachValue allowedKeys key count values i params multiValueParams) =
  match values with
  | [] => multiValueParams
  | _ :: _ =>
      if Nat.ltb 1 count then
        <[key := (default [] (multiValueParams !! key)
                  ++ map (transform allowedKeys key) values)%list]>
          multiValueParams
      else multiValueParams
  end.
Proof.
  revert i params multiValueParams.
  induction values as [|p rest IH]; intros i params multiValueParams;
    [reflexivity|].
  cbn [eachValue]. rewrite IH. destruct (Nat.ltb 1 count).
  - destruct rest as [|q rest]; [reflexivity|].
    rewrite lookup_insert_eq, insert_insert_eq. cbn [default map id].
    f_equal. now rewrite <- app_assoc.
  - now destruct rest.
Qed.

(** What the two loops leave under each key. *)
Lemma eachKey_lookup (inputParams : gmap string (list string)) :
  (forall key,
     fst (eachKey inputParams allowedKeys) !! key =
     match inputParams !! key with
     | Some (p :: _) => Some (transform allowedKeys key p)
     | _ => None
     end) /\
  (forall key,
     snd (eachKey inputParams allowedKeys) !! key =
     match inputParams !! key with
     | Some values =>
         if Nat.ltb 1 (length values)
         then Some (map (transform allowedKeys key) values) else None
     | None => None
     end).
Proof.
  unfold eachKey.
  apply (map_fold_weak_ind
           (fun (acc : gmap string string * gmap string (list string)) m =>
              (forall key,
                 fst acc !! key =
                 match m !! key with
                 | Some (p :: _) => Some (transform allowedKeys key p)
                 | _ => None
                 end) /\
              (forall key,
                 snd acc !! key =
                 match m !! key with
                 | Some values =>
                     if Nat.ltb 1 (length values)
                     then Some (map (transform allowedKeys key) values) else None
                 | None => None
                 end))).
  - split; intros key; cbn [fst snd]; now rewrite !lookup_empty.
  - intros k values m [params multiValueParams] Hfresh [Hparams Hmulti].
    cbn [fst snd] in *. split; intros key.
    + rewrite eachValue_params.
      destruct (decide (k = key)) as [->|Hne].
      * rewrite lookup_insert_eq. destruct values as [|p rest].
        -- now rewrite Hparams, Hfresh.
        -- now rewrite lookup_insert_eq.
      * rewrite lookup_insert_ne by exact Hne. destruct values as [|p rest].
        -- apply Hparams.
        -- rewrite lookup_insert_ne by exact Hne. apply Hparams.
    + rewrite eachValue_multiValueParams.
      destruct (decide (k = key)) as [->|Hne].
      * rewrite lookup_insert_eq. destruct values as [|p rest].
        -- now rewrite Hmulti, Hfresh.
        -- destruct (Nat.ltb 1 (length (p :: rest))) eqn:Hmany.
           ++ rewrite lookup_insert_eq. now rewrite Hmulti, Hfresh.
           ++ now rewrite Hmulti, Hfresh.
      * rewrite lookup_insert_ne by exact Hne. destruct values as [|p rest].
        -- apply Hmulti.
        -- destruct (Nat.ltb 1 (length (p :: rest))).
           ++ rewrite lookup_insert_ne by exact Hne. apply Hmulti.
           ++ apply Hmulti.
Qed.

Lemma transform_not_allowed (key value : string) :
  key ∉ allowedKeys -> transform allowedKeys key value = "redacted".
Proof.
  intros Hkey. unfold transform. now rewrite bool_decide_eq_false_2.
Qed.

(** X23: nothing that sanitizeRequestParams returns shows a value of a key
    outside allowedKeys. The slice holds the labels "params" and
    "multiValueParams" and the two maps, and in both maps every value under
    such a key is the word "redacted", one for each value that the request
    gave under that key. *)
Theorem sanitizeRequestParams_redacts_keys_not_allowed
        (inputParams : gmap string (list string)) (element : any) :
  element ∈ sanitizeRequestParams inputParams allowedKeys ->
  match element with
  | anyString label => label = "params" \/ label = "multiValueParams"
  | anyParams params =>
      forall key value,
        key ∉ allowedKeys -> params !! key = Some value -> value = "redacted"
  | anyValues multiValueParams =>
      forall key values,
        key ∉ allowedKeys -> multiValueParams !! key = Some values ->
        exists given,
          inputParams !! key = Some given /\
          values = replicate (length given) "redacted"
  end.
Proof.
  unfold sanitizeRequestParams.
  destruct (eachKey_lookup inputParams) as [Hparams Hmulti].
  destruct (eachKey inputParams allowedKeys) as [params multiValueParams].
  cbn [fst snd] in *.
  assert (Hp : forall key value,
             key ∉ allowedKeys -> params !! key = Some value ->
             value = "redacted").
  { intros key value Hkey Hvalue. rewrite Hparams in Hvalue.
    destruct (inputParams !! key) as [[|p rest]|]; try discriminate.
    injection Hvalue as <-. now apply transform_not_allowed. }
  assert (Hm : forall key values,
             key ∉ allowedKeys -> multiValueParams !! key = Some values ->
             exists given,
               inputParams !! key = Some given /\
               values = replicate (length given) "redacted").
  { intros key values Hkey Hvalues. rewrite Hmulti in Hvalues.
    destruct (inputParams !! key) as [given|]; [|discriminate].
    destruct (Nat.ltb 1 (length given)); [|discriminate].
    injection Hvalues as <-. exists given. split; [reflexivity|].
    clear Hparams Hmulti Hp. induction given as [|p rest IH]; [reflexivity|].
    cbn [map length replicate]. rewrite IH.
    now rewrite transform_not_allowed. }
  intros Helement.
  destruct (Nat.ltb 0 (size multiValueParams));
    repeat (apply elem_of_cons in Helement as [->|Helement]; [auto|]);
    now apply not_elem_of_nil in Helement.
Qed.

(** X24: sanitizeRequestParams returns the label "params" and a map that
    holds, for every key with at least one value, its first value after the
    transformation; when some key has more than one value it also returns
    the label "multiValueParams" and a map that holds, for exactly the keys
    with more than one value, all their values in order, and otherwise it
    returns nothing more. The transformation of a value under an allowed key
    is its query-unescaped form, or the value itself when it cannot be
    unescaped. *)
Theorem sanitizeRequestParams_keeps_allowed_keys
        (inputParams : gmap string (list string)) :
  exists params multiValueParams,
    (forall key,
       params !! key =
       match inputParams !! key with
       | Some (p :: _) => Some (transform allowedKeys key p)
       | _ => None
       end) /\
    (forall key,
       multiValueParams !! key =
       match inputParams !! key with
       | Some values =>
           if Nat.ltb 1 (length values)
           then Some (map (transform allowedKeys key) values) else None
       | None => None
       end) /\
    ((exists key values, inputParams !! key = Some values /\ 1 < length values) ->
     sanitizeRequestParams inputParams allowedKeys =
       [anyString "params"; anyParams params;
        anyString "multiValueParams"; anyValues multiValueParams]) /\
    ((forall key values, inputParams !! key = Some values -> length values <= 1) ->
     sanitizeRequestParams inputParams allowedKeys =
       [anyString "params"; anyParams params]) /\
    (forall key value,
       key ∈ allowedKeys ->
       transform allowedKeys key value =
       match url.unescape value url.encodeQueryComponent with
       | inl unescaped => unescaped
       | inr _ => value
       end).
Proof.
  unfold sanitizeRequestParams.
  destruct (eachKey_lookup inputParams) as [Hparams Hmulti].
  destruct (eachKey inputParams allowedKeys) as [params multiValueParams].
  cbn [fst snd] in *. exists params, multiValueParams.
  split; [exact Hparams|]. split; [exact Hmulti|]. split; [|split].
  - intros (key & values & Hkey & Hmany).
    destruct (Nat.ltb 0 (size multiValueParams)) eqn:Hsize; [reflexivity|].
    exfalso. apply Nat.ltb_ge in Hsize.
    assert (Hempty : multiValueParams = ∅)
      by (apply map_size_empty_iff; lia).
    specialize (Hmulti key). rewrite Hkey, Hempty, lookup_empty in Hmulti.
    apply Nat.ltb_lt in Hmany. rewrite Hmany in Hmulti. discriminate.
  - intros Hsingle.
    destruct (Nat.ltb 0 (size multiValueParams)) eqn:Hsize; [|reflexivity].
    exfalso. apply Nat.ltb_lt in Hsize.
    destruct (map_size_ne_0_lookup_1 multiValueParams ltac:(lia))
      as (key & values & Hvalues).
    rewrite Hmulti in Hvalues.
    destruct (inputParams !! key) as [given|] eqn:Hgiven; [|discriminate].
    destruct (Nat.ltb 1 (length given)) eqn:Hmany; [|discriminate].
    apply Nat.ltb_lt in Hmany. specialize (Hsingle key given Hgiven). lia.
  - intros key value Hkey. unfold transform, QueryUnescape.
    rewrite bool_decide_eq_true_2 by exact Hkey. cbn [negb].
    now destruct (url.unescape value url.encodeQueryComponent).
Qed.

End Redaction.

Lemma sanitizeRequestParams_redacts_keys_not_allowed_witness :
  exists given,
    examples.loginForm !! "password" = Some given /\
    ["redacted"; "redacted"] = replicate (length given) "redacted".
Proof.
  apply (sanitizeRequestParams_redacts_keys_not_allowed examples.safeToLog
           examples.loginForm
           (plog.anyValues {[ "password" := ["redacted"; "redacted"] ]})).
  - assert (Hrun : plog.sanitizeRequestParams examples.loginForm examples.safeToLog =
                   [plog.anyString "params";
                    plog.anyParams
                      {[ "password" := "redacted"; "scope" := "openid email" ]};
                    plog.anyString "multiValueParams";
                    plog.anyValues {[ "password" := ["redacted"; "redacted"] ]}])
      by (vm_compute; reflexivity).
    rewrite Hrun. do 3 apply list_elem_of_further. apply list_elem_of_here.
  - unfold examples.safeToLog. intros Hin.
    apply elem_of_singleton in Hin. discriminate.
  - vm_compute. reflexivity.
Defined.

(** * The OIDC watcher: the denylist of authorize parameters *)

Section AuthorizeParametersReported.
Variable wall : nat -> metav1.Time.
Variable cluster : oidcupstreamwatcher.Cluster.
Import metav1 conditionsutil StateM controllerlib oidcupstreamwatcher.

Lemma mergeEachAt_last (now : Time) (init : list Condition) (c : Condition)
      (og : Z) (l : list Condition) (s : Effects) :
  exists t,
    lastOf (Type_ c) (fst (mergeEachAt now (init ++ [c]) og l s)) =
    Some (stamped t og c).
Proof.
  revert l s. induction init as [|a init IH]; intros l s; cbn [app mergeEachAt].
  - destruct (mergeIDPCondition_lastOf l (stamped now og c)) as [t Ht].
    exists t. destruct (mergeIDPCondition l (stamped now og c)) as [updated changed].
    unfold bind. destruct changed; exact Ht.
  - destruct (mergeIDPCondition l (stamped now og a)) as [updated changed].
    unfold bind. destruct changed; apply IH.
Qed.

Lemma MergeConditions_last (now : Time) (init : list Condition) (c : Condition)
      (og : Z) (l : list Condition) (s : Effects) :
  exists t,
    lastOf (Type_ c) (fst (fst (MergeConditions (init ++ [c]) og l now s))) =
    Some (stamped t og c).
Proof.
  destruct (mergeEachAt_last now init c og l s) as [t Ht]. exists t.
  unfold MergeConditions, bind.
  destruct (mergeEachAt now (init ++ [c]) og l s) as [merged s1].
  cbn [fst snd ret] in *. unfold lastOf in *. now rewrite SliceStable_hasType.
Qed.

(** What updateStatus leaves as the status of the provider: the object it
    sends, or the provider as listed when the merge changed nothing. *)
Lemma updateStatus_reports (upstream : v1alpha1.OIDCIdentityProvider)
      (init : list Condition) (c : Condition) (w : World) :
  exists reported t,
    (statusUpdates (snd (updateStatus wall cluster upstream (init ++ [c]) w)) =
       statusUpdates w /\ reported = upstream \/
     statusUpdates (snd (updateStatus wall cluster upstream (init ++ [c]) w)) =
       statusUpdates w ++ [reported]) /\
    lastOf (Type_ c) (v1alpha1.Conditions (v1alpha1.Status reported)) =
      Some (stamped t (Generation (v1alpha1.ObjectMeta upstream)) c).
Proof.
  unfold updateStatus, bind, liftEffects, Now. cbn [fst snd effects].
  destruct (MergeConditions_last (wall (ticks (effects w))) init c
              (Generation (v1alpha1.ObjectMeta upstream))
              (v1alpha1.Conditions (v1alpha1.Status upstream))
              {| ticks := S (ticks (effects w)); logged := logged (effects w) |})
    as [t Ht].
  destruct (MergeConditions (init ++ [c]) _ _ _ _) as [[merged had] e].
  cbn [fst snd] in *.
  match goal with
  | |- context [decide (upstream = ?u)] => set (updated := u)
  end.
  exists updated, t. split; [|exact Ht].
  destruct (decide (upstream = updated)) as [Heq|Hne].
  - left. cbn. auto.
  - right. unfold clientUpdateStatus, bind, modify.
    destruct (UpdateStatus cluster updated); reflexivity.
Qed.

Lemma validateIssuer_statusUpdates (upstream : v1alpha1.OIDCIdentityProvider)
      (result : upstreamoidc.ProviderConfig) (w : World) :
  statusUpdates (snd (validateIssuer wall cluster upstream result w)) =
  statusUpdates w.
Proof.
  unfold validateIssuer. cbv zeta. unfold bind at 1.
  pose proof (getProvider_world wall (v1alpha1.Spec upstream) w) as Hworld.
  cbv zeta in Hworld.
  destruct (getProvider wall (v1alpha1.Spec upstream) w) as [cached w1].
  cbn [fst snd] in *. destruct Hworld as (_ & _ & Hsent & _).
  destruct cached as [[discovered httpClient]|]; [exact Hsent|].
  destruct (getClient cluster upstream) as [httpClient|err]; [|exact Hsent].
  destruct (validateHTTPSURL cluster _ _ _) as [? [c|]]; [exact Hsent|].
  destruct (NewProvider cluster httpClient _); exact Hsent.
Qed.

Lemma logFailing_statusUpdates (upstream : v1alpha1.OIDCIdentityProvider)
      (conditions : list Condition) (valid : bool) (w : World) :
  statusUpdates (snd (logFailing upstream conditions valid w)) = statusUpdates w.
Proof.
  revert valid w.
  induction conditions as [|c rest IH]; intros valid w; cbn [logFailing];
    [reflexivity|].
  destruct (decide (Status c = ConditionFalse)); [|apply IH].
  unfold bind, logError, modify. now rewrite IH.
Qed.

Lemma filter_isAllowed_all (params : list v1alpha1.Parameter_) :
  (forall p, p ∈ params -> disallowed (v1alpha1.Name p) = false) ->
  List.filter isAllowed params = params.
Proof.
  induction params as [|p rest IH]; intros Hallowed; [reflexivity|].
  cbn [List.filter]. unfold isAllowed at 1.
  rewrite (Hallowed p ltac:(left)). cbn [negb]. f_equal. apply IH.
  intros q Hq. apply Hallowed. now right.
Qed.

(** One validation, with the status it leaves and the lines it logs. *)
Lemma validateUpstream_reports (upstream : v1alpha1.OIDCIdentityProvider)
      (w : World) :
  let params := v1alpha1.AdditionalAuthorizeParameters
                  (v1alpha1.AuthorizationConfig (v1alpha1.Spec upstream)) in
  let sp := splitAuthorizeParameters params ∅ [] in
  let sec := validateSecret cluster upstream (newResult upstream (fst sp)) in
  let iss := validateIssuer wall cluster upstream (snd sec) w in
  let condition := authorizeParametersCondition (snd sp) in
  let run := validateUpstream wall cluster upstream w in
  exists reported t earlier,
    (statusUpdates (snd run) = statusUpdates w /\ reported = upstream \/
     statusUpdates (snd run) = statusUpdates w ++ [reported]) /\
    lastOf (Type_ condition) (v1alpha1.Conditions (v1alpha1.Status reported)) =
      Some (stamped t (Generation (v1alpha1.ObjectMeta upstream)) condition) /\
    errorLog (snd run) =
      errorLog w ++ earlier ++
      map (failingLine upstream)
        (List.filter isFalse [fst sec; fst (fst iss); condition]).
Proof.
  cbv zeta. unfold validateUpstream.
  destruct (splitAuthorizeParameters _ ∅ []) as [additional rejected].
  cbn [fst snd].
  destruct (validateSecret cluster upstream (newResult upstream additional))
    as [secretCondition result1].
  cbn [fst snd]. unfold bind.
  pose proof (validateIssuer_statusUpdates upstream result1 w) as Hsent1.
  destruct (appendsErrors_validateIssuer wall cluster upstream result1 w)
    as (l1 & Hlog1 & _).
  destruct (validateIssuer wall cluster upstream result1 w)
    as [[issuerCondition result2] w1].
  cbn [fst snd] in *.
  set (condition := authorizeParametersCondition rejected).
  destruct (updateStatus_reports upstream [secretCondition; issuerCondition]
              condition w1) as (reported & t & Hsent2 & Hlast).
  cbn [app] in Hsent2.
  destruct (appendsErrors_updateStatus wall cluster upstream
              [secretCondition; issuerCondition; condition] w1)
    as (l2 & Hlog2 & _).
  destruct (updateStatus wall cluster upstream
              [secretCondition; issuerCondition; condition] w1) as [[] w2].
  cbn [fst snd] in *.
  pose proof (logFailing_statusUpdates upstream
                [secretCondition; issuerCondition; condition] true w2) as Hsent3.
  pose proof (logFailing_errorLog upstream
                [secretCondition; issuerCondition; condition] true w2) as Hlog3.
  destruct (logFailing upstream [secretCondition; issuerCondition; condition]
              true w2) as [valid w3].
  cbn [fst snd ret] in *.
  exists reported, t, (l1 ++ l2). split; [|split; [exact Hlast|]].
  - rewrite Hsent3. rewrite <- Hsent1. exact Hsent2.
  - rewrite Hlog3, Hlog2, Hlog1. now rewrite <- !app_assoc.
Qed.

(** C8: a parameter is rejected exactly when its name is one of
    response_type, scope, client_id, state, nonce, code_challenge,
    code_challenge_method, redirect_uri, hd. The status that validateUpstream
    leaves for the provider, which is the object it sends to the API server
    or the provider as listed when nothing changed, holds the
    AdditionalAuthorizeParametersValid condition: when a name was rejected
    it has Status False, Reason DisallowedParameterName and a message that
    lists the rejected names joined by commas, validateUpstream returns no
    configuration and the last line it logs is the failing condition with
    that message; when none was, it has Status True and validateUpstream
    returns a configuration unless the secret or the issuer condition fails.
    The map of additional parameters has no entry for a rejected name, and a
    configuration that is returned carries the map of all parameters. *)
Theorem additional_authorize_parameters_denylist
        (upstream : v1alpha1.OIDCIdentityProvider) (w : World) :
  let params := v1alpha1.AdditionalAuthorizeParameters
                  (v1alpha1.AuthorizationConfig (v1alpha1.Spec upstream)) in
  let rejected := List.filter disallowed (map v1alpha1.Name params) in
  let additional := fst (splitAuthorizeParameters params ∅ []) in
  let sec := validateSecret cluster upstream (newResult upstream additional) in
  let iss := validateIssuer wall cluster upstream (snd sec) w in
  let run := validateUpstream wall cluster upstream w in
  let message :=
    "the following additionalAuthorizeParameters are not allowed: "
    +:+ strings.Join rejected "," in
  (forall name, disallowed name = true <-> name ∈ denylist) /\
  (forall p, p ∈ params ->
     (v1alpha1.Name p ∈ rejected <-> v1alpha1.Name p ∈ denylist)) /\
  (exists reported condition,
     (statusUpdates (snd run) = statusUpdates w /\ reported = upstream \/
      statusUpdates (snd run) = statusUpdates w ++ [reported]) /\
     lastOf "AdditionalAuthorizeParametersValid"
       (v1alpha1.Conditions (v1alpha1.Status reported)) = Some condition /\
     Type_ condition = "AdditionalAuthorizeParametersValid" /\
     ObservedGeneration condition = Generation (v1alpha1.ObjectMeta upstream) /\
     (rejected <> [] ->
      Status condition = ConditionFalse /\
      Reason condition = "DisallowedParameterName" /\
      Message condition = message) /\
     (rejected = [] -> Status condition = ConditionTrue)) /\
  (rejected <> [] ->
   fst run = None /\
   last (errorLog (snd run)) =
     Some (failingLine upstream
             (falseCondition "AdditionalAuthorizeParametersValid"
                "DisallowedParameterName" message))) /\
  (rejected = [] ->
   Status (fst sec) <> ConditionFalse ->
   Status (fst (fst iss)) <> ConditionFalse ->
   exists config, fst run = Some config) /\
  (forall config, fst run = Some config ->
     rejected = [] /\
     upstreamoidc.AdditionalAuthcodeParams config = additional /\
     additional =
       fold_left (fun m p => <[v1alpha1.Name p := v1alpha1.Value p]> m) params ∅) /\
  (forall name, name ∈ denylist -> additional !! name = None).
Proof.
  cbv zeta.
  set (params := v1alpha1.AdditionalAuthorizeParameters
                   (v1alpha1.AuthorizationConfig (v1alpha1.Spec upstream))).
  set (rejected := List.filter disallowed (map v1alpha1.Name params)).
  assert (Hsplit : splitAuthorizeParameters params ∅ [] =
                   (fold_left (fun m p => <[v1alpha1.Name p := v1alpha1.Value p]> m)
                      (List.filter isAllowed params) ∅, rejected))
    by (now rewrite splitAuthorizeParameters_run).
  split; [apply disallowed_denylist|].
  split.
  { intros p Hp. rewrite <- disallowed_denylist. subst rejected.
    rewrite list_elem_of_In, filter_In. split; [tauto|].
    intros Hd. split; [|exact Hd]. apply in_map. now apply list_elem_of_In. }
  destruct (validateUpstream_reports upstream w)
    as (reported & t & earlier & Hsent & Hlast & Hlog).
  cbv zeta in Hlast, Hlog. fold params in Hlast, Hlog.
  rewrite Hsplit in Hlast, Hlog. cbn [fst snd] in Hlast, Hlog.
  split.
  { exists reported,
      (stamped t (Generation (v1alpha1.ObjectMeta upstream))
         (authorizeParametersCondition rejected)).
    split; [exact Hsent|]. split.
    { rewrite <- Hlast. f_equal. unfold authorizeParametersCondition.
      now destruct (Nat.ltb 0 (length rejected)). }
    split; [unfold authorizeParametersCondition;
            now destruct (Nat.ltb 0 (length rejected))|].
    split; [reflexivity|]. split.
    - intros Hne. rewrite (authorizeParametersCondition_rejected _ Hne).
      cbn. auto.
    - intros ->. reflexivity. }
  split.
  { intros Hne. split.
    - apply validateUpstream_nil_disallowed.
      destruct rejected as [|name rest] eqn:Hrej; [contradiction|].
      assert (Hin : In name (List.filter disallowed (map v1alpha1.Name params)))
        by (fold rejected; rewrite Hrej; now left).
      apply filter_In in Hin as [Hin Hdis]. apply in_map_iff in Hin as (p & <- & Hp).
      exists p. split; [now apply list_elem_of_In|exact Hdis].
    - rewrite Hlog, (authorizeParametersCondition_rejected _ Hne).
      match goal with
      | |- context [List.filter isFalse [?a; ?b; ?c]] =>
          change [a; b; c] with ([a; b] ++ [c])
      end.
      rewrite List.filter_app, map_app, !app_assoc. apply last_snoc. }
  split.
  { intros Hnone Hsecret Hissuer. eexists.
    apply (validateUpstream_passes wall cluster upstream w); assumption. }
  split.
  { intros config Hconfig.
    destruct (validateUpstream_params wall cluster upstream w config Hconfig)
      as [Hmap Hnone].
    fold params in Hmap, Hnone. fold rejected in Hnone.
    split; [exact Hnone|]. split; [exact Hmap|].
    rewrite Hsplit. cbn [fst]. f_equal.
    apply filter_isAllowed_all.
    exact (proj1 (filter_disallowed_nil params) Hnone). }
  intros name Hname. rewrite Hsplit. cbn [fst].
  rewrite fold_insert_lookup_other; [apply lookup_empty|].
  intros p Hp Heq. apply list_elem_of_In, filter_In in Hp as [_ Hallowed].
  apply disallowed_denylist in Hname. unfold isAllowed in Hallowed.
  rewrite Heq, Hname in Hallowed. discriminate.
Qed.

End AuthorizeParametersReported.

Lemma additional_authorize_parameters_denylist_witness :
  fst (oidcupstreamwatcher.validateUpstream examples.tickClock
         examples.oidcCluster examples.oidcProvider examples.oidcWorld) = None /\
  last (oidcupstreamwatcher.errorLog
          (snd (oidcupstreamwatcher.validateUpstream examples.tickClock
                  examples.oidcCluster examples.oidcProvider examples.oidcWorld))) =
  Some (oidcupstreamwatcher.failingLine examples.oidcProvider
          (oidcupstreamwatcher.falseCondition "AdditionalAuthorizeParametersValid"
             "DisallowedParameterName"
             ("the following additionalAuthorizeParameters are not allowed: "
              +:+ strings.Join ["redirect_uri"] ","))).
Proof.
  apply (proj1 (proj2 (proj2 (proj2
           (additional_authorize_parameters_denylist examples.tickClock
              examples.oidcCluster examples.oidcProvider examples.oidcWorld))))).
  vm_compute. discriminate.
Defined.
